(** * cedar-go: the authorizer, the experimental policy parser and the set value

  A shallow embedding of
  - [PolicySet.IsAuthorized] (package [cedar]),
  - the recursive-descent parser of [x/exp/ast/parser.go],
  - the [Set] value of package [types], whose implementation is described
    by the specification and exercised by [types/set_test.go],
  followed by the properties that the specification states about them. *)

From Stdlib Require Import ZArith String Ascii List Bool Lia Sorted Permutation.
From stdpp Require Import base list gmap strings.
Import ListNotations.

Set Warnings "-register-all".


(** Go's [(T, error)] results: [inl] the error, [inr] the value. *)
Definition errmsg := string.

(** * Package [types] *)
Module types.

Record EntityUID := mkEntityUID { uid_Type : string; uid_ID : string }.

Definition EntityUID_eqb (a b : EntityUID) : bool :=
  String.eqb (uid_Type a) (uid_Type b) && String.eqb (uid_ID a) (uid_ID b).

(** [netip.Addr] of the Go standard library: a 128-bit address and what
    the library calls its zone, which also tells IPv4 from IPv6. *)
Inductive zone := z0 | z4 | z6noz | z6zone (name : string).
Record Addr := mkAddr { addr_bits : Z; addr_z : zone }.
Definition Is6 (ip : Addr) : bool :=
  match addr_z ip with z0 | z4 => false | _ => true end.

(** [netip.Prefix]: an address and a prefix length. *)
Record Prefix := mkPrefix { prefix_ip : Addr; prefix_bits : Z }.

Definition zone_eqb (a b : zone) : bool :=
  match a, b with
  | z0, z0 | z4, z4 | z6noz, z6noz => true
  | z6zone x, z6zone y => String.eqb x y
  | _, _ => false
  end.

Definition Prefix_eqb (a b : Prefix) : bool :=
  Z.eqb (addr_bits (prefix_ip a)) (addr_bits (prefix_ip b))
  && zone_eqb (addr_z (prefix_ip a)) (addr_z (prefix_ip b))
  && Z.eqb (prefix_bits a) (prefix_bits b).

(** Modelled from the spec: the [Value] variants of section 3 (the
    declarations of package [types] are not among the sources).  A set
    keeps its elements in a sequence; a record is kept as its list of
    entries. *)
Inductive Value :=
| Boolean (b : bool)
| Long (i : Z)
| String_ (s : string)
| Set_ (s : list Value)
| Record_ (r : list (string * Value))
| Entity (uid : EntityUID)
| IPAddr (p : Prefix)
| Decimal (d : Z).

(** Modelled from the spec: [Equal], structural equality of values.
    "Set equality is order-insensitive and multiplicity-insensitive; other
    containers compare structurally": two sets are equal when each
    contains every element of the other, two records when their
    key-to-value mappings match. *)
Fixpoint Equal (a b : Value) {struct a} : bool :=
  match a, b with
  | Boolean x, Boolean y => Bool.eqb x y
  | Long x, Long y => Z.eqb x y
  | String_ x, String_ y => String.eqb x y
  | Set_ xs, Set_ ys =>
      forallb (fun x => existsb (fun y => Equal x y) ys) xs
      && forallb (fun y => existsb (fun x => Equal x y) xs) ys
  | Record_ xs, Record_ ys =>
      forallb (fun kx => existsb (fun ky =>
                 String.eqb (fst kx) (fst ky) && Equal (snd kx) (snd ky)) ys) xs
      && forallb (fun ky => existsb (fun kx =>
                 String.eqb (fst kx) (fst ky) && Equal (snd kx) (snd ky)) xs) ys
  | Entity x, Entity y => EntityUID_eqb x y
  | IPAddr x, IPAddr y => Prefix_eqb x y
  | Decimal x, Decimal y => Z.eqb x y
  | _, _ => false
  end.

(** [Set.Contains]: membership up to [Equal]. *)
Definition Contains (s : list Value) (v : Value) : bool :=
  existsb (fun x => Equal x v) s.

(** The elements kept on construction: an element already present (up to
    [Equal]) is not added again. *)
Fixpoint absorb (seen : list Value) (v : list Value) : list Value :=
  match v with
  | [] => seen
  | x :: rest =>
      if Contains seen x then absorb seen rest else absorb (seen ++ [x]) rest
  end.

(** Modelled from the spec: [NewSet], "duplicates (by structural equality)
    are absorbed on construction"; the elements keep the order of their
    first occurrence, as [TestSet/IterateEntire] observes. *)
Definition NewSet (v : list Value) : Value := Set_ (absorb [] v).

(** [Set.Len] and [Set.Slice]. *)
Definition Slice (s : Value) : list Value :=
  match s with Set_ xs => xs | _ => [] end.
Definition Len (s : Value) : nat := length (Slice s).

(** Modelled from the spec: [ValueToBool], the coercion of section 4.4
    ("coerce to boolean"); any other variant is a [TypeError]. *)
Definition TypeName (v : Value) : string :=
  match v with
  | Boolean _ => "bool"
  | Long _ => "long"
  | String_ _ => "string"
  | Set_ _ => "set"
  | Record_ _ => "record"
  | Entity _ => "(entity)"
  | IPAddr _ => "IP"
  | Decimal _ => "decimal"
  end.

Definition ValueToBool (v : Value) : errmsg + bool :=
  match v with
  | Boolean b => inr b
  | _ => inl ("type error: expected bool, got " +:+ TypeName v)
  end.

(** The elements of a sequence are pairwise different (up to [Equal]). *)
Fixpoint distinct (s : list Value) : bool :=
  match s with
  | [] => true
  | x :: rest => negb (existsb (fun y => Equal x y) rest) && distinct rest
  end.

(** ** Slices in memory *)

(** A Go slice of values is a view of an array that its holders share: the
    store maps the address of an array to its elements.  [TestSet/immutable]
    keeps a pointer into the slice that it hands to [NewSet] and writes
    through it afterwards. *)
Definition address := nat.
Definition store := gmap address (list Value).

(** The elements of the slice at [a]; a nil slice has none. *)
Definition elements_at (h : store) (a : address) : list Value :=
  default [] (h !! a).

(** [s[i] = x], or [*p = x] for [p := &s[i]]: [None] is Go's panic on an
    index out of range. *)
Definition assign (h : store) (a : address) (i : nat) (x : Value) : option store :=
  if (i <? length (elements_at h a))%nat
  then Some (<[a := <[i := x]> (elements_at h a)]> h)
  else None.

(** A sequence of such assignments through the same slice. *)
Fixpoint assign_all (h : store) (a : address) (ws : list (nat * Value)) : option store :=
  match ws with
  | [] => Some h
  | (i, x) :: rest =>
      match assign h a i x with
      | Some h' => assign_all h' a rest
      | None => None
      end
  end.

(** A [Set] in memory: the slice [s] of its elements. *)
Record SetRef := mkSetRef { s : address }.

(** Modelled from the spec: [NewSet] on slices in memory.  "NewSet must
    defensively copy": the elements kept go to an array of the set's own. *)
Definition NewSetAt (h : store) (v : address) : SetRef * store :=
  let a := fresh (dom h) in
  (mkSetRef a, <[a := absorb [] (elements_at h v)]> h).

(** [Set.Len] and [Set.Iterate] (all elements, in order) of a set in
    memory, and the value that it is. *)
Definition LenAt (h : store) (r : SetRef) : nat := length (elements_at h (s r)).
Definition IterateAt (h : store) (r : SetRef) : list Value := elements_at h (s r).
Definition value_at (h : store) (r : SetRef) : Value := Set_ (elements_at h (s r)).

(** ** Induction on values *)
Section ValueInduction.
Variable P : Value -> Prop.
Hypothesis HBoolean : forall b, P (Boolean b).
Hypothesis HLong : forall i, P (Long i).
Hypothesis HString : forall s, P (String_ s).
Hypothesis HSet : forall s, Forall P s -> P (Set_ s).
Hypothesis HRecord : forall r, Forall (fun kv => P (snd kv)) r -> P (Record_ r).
Hypothesis HEntity : forall uid, P (Entity uid).
Hypothesis HIPAddr : forall p, P (IPAddr p).
Hypothesis HDecimal : forall d, P (Decimal d).

Fixpoint Value_nested_ind (v : Value) : P v :=
  match v with
  | Boolean b => HBoolean b
  | Long i => HLong i
  | String_ s => HString s
  | Set_ s =>
      HSet s ((fix elements (l : list Value) : Forall P l :=
                 match l with
                 | [] => Stdlib.Lists.List.Forall_nil P
                 | x :: rest => Stdlib.Lists.List.Forall_cons P x rest (Value_nested_ind x) (elements rest)
                 end) s)
  | Record_ r =>
      HRecord r ((fix entries (l : list (string * Value))
                    : Forall (fun kv => P (snd kv)) l :=
                    match l with
                    | [] => Stdlib.Lists.List.Forall_nil _
                    | kv :: rest =>
                        Stdlib.Lists.List.Forall_cons _ kv rest (Value_nested_ind (snd kv)) (entries rest)
                    end) r)
  | Entity uid => HEntity uid
  | IPAddr p => HIPAddr p
  | Decimal d => HDecimal d
  end.
End ValueInduction.

End types.

(** * Package [cedar]: the authorizer *)
Module cedar.
Import types.

Record Position := mkPosition {
  Filename : string; Offset : Z; Line : Z; Column : Z }.

(** Modelled from the spec: [Effect], "effect ∈ {Permit, Forbid}" (its
    declaration is not among the sources). *)
Inductive Effect := Permit | Forbid.

Definition Effect_eqb (a b : Effect) : bool :=
  match a, b with
  | Permit, Permit | Forbid, Forbid => true
  | _, _ => false
  end.

(** Modelled from the spec: the entity store of section 3, "mapping from
    EntityUID to an EntityRecord = {attrs: Record, parents: set of
    EntityUID}" (package [entities] is not among the sources). *)
Record EntityRecord := mkEntityRecord {
  attrs : list (string * Value); parents : list EntityUID }.
Definition Entities := list (EntityUID * EntityRecord).

(** [eval.Context], as [IsAuthorized] fills it. *)
Record evalContext := mkEvalContext {
  ctx_Entities : Entities;
  ctx_Principal : EntityUID;
  ctx_Action : EntityUID;
  ctx_Resource : EntityUID;
  ctx_Context : list (string * Value) }.

(** [eval.Evaler]: the interface with the one method [Eval]. *)
Definition evaler := evalContext -> errmsg + Value.

Record Policy := mkPolicy {
  po_Position : Position;
  po_Annotations : list (string * string);
  po_Effect : Effect;
  po_eval : evaler }.

Definition PolicySet := list Policy.

(** [Decision] is a Go [bool]: [Allow] is [true], [Deny] is [false]. *)
Definition Decision := bool.
Definition Allow : Decision := true.
Definition Deny : Decision := false.

Record Error := mkError {
  err_Policy : nat; err_Position : Position; err_Message : string }.

Record Reason := mkReason { rsn_Policy : nat; rsn_Position : Position }.

Record Diagnostic := mkDiagnostic {
  Reasons : list Reason; Errors : list Error }.

Record Request := mkRequest {
  req_Principal : EntityUID;
  req_Action : EntityUID;
  req_Resource : EntityUID;
  req_Context : list (string * Value) }.

(** The local variables of [IsAuthorized] that the loop updates. *)
Record locals := mkLocals {
  diag_Errors : list Error;
  gotForbid : bool;
  forbidReasons : list Reason;
  gotPermit : bool;
  permitReasons : list Reason }.

(** One iteration of [for n, po := range p]. *)
Definition iteration (c : evalContext) (n : nat) (po : Policy) (l : locals) : locals :=
  match po_eval po c with
  | inl err =>
      mkLocals (diag_Errors l ++ [mkError n (po_Position po) err])
               (gotForbid l) (forbidReasons l) (gotPermit l) (permitReasons l)
  | inr v =>
      match ValueToBool v with
      | inl err =>
          mkLocals (diag_Errors l ++ [mkError n (po_Position po) err])
                   (gotForbid l) (forbidReasons l) (gotPermit l) (permitReasons l)
      | inr vb =>
          if negb vb then l
          else if Effect_eqb (po_Effect po) Forbid then
            mkLocals (diag_Errors l) true
                     (forbidReasons l ++ [mkReason n (po_Position po)])
                     (gotPermit l) (permitReasons l)
          else
            mkLocals (diag_Errors l) (gotForbid l) (forbidReasons l) true
                     (permitReasons l ++ [mkReason n (po_Position po)])
      end
  end.

(** The loop over the policies from index [n] on. *)
Fixpoint range (c : evalContext) (n : nat) (p : PolicySet) (l : locals) : locals :=
  match p with
  | [] => l
  | po :: rest => range c (S n) rest (iteration c n po l)
  end.

Definition IsAuthorized (p : PolicySet) (entityMap : Entities) (req : Request)
  : Decision * Diagnostic :=
  let c := mkEvalContext entityMap (req_Principal req) (req_Action req)
                         (req_Resource req) (req_Context req) in
  let l := range c 0 p (mkLocals [] false [] false []) in
  let reasons :=
    if gotForbid l then forbidReasons l
    else if gotPermit l then permitReasons l
    else [] in
  (gotPermit l && negb (gotForbid l), mkDiagnostic reasons (diag_Errors l)).

(** ** What the specification says of the authorizer *)

(** What one policy does on a request: it errors, it is satisfied, or not. *)
Inductive verdict := Errored (message : string) | Satisfied | Unsatisfied.

Definition verdict_of (c : evalContext) (po : Policy) : verdict :=
  match po_eval po c with
  | inl err => Errored err
  | inr v =>
      match ValueToBool v with
      | inl err => Errored err
      | inr true => Satisfied
      | inr false => Unsatisfied
      end
  end.

Definition fires (c : evalContext) (eff : Effect) (po : Policy) : bool :=
  Effect_eqb (po_Effect po) eff
  && match verdict_of c po with Satisfied => true | _ => false end.

(** The policies with their indices, numbered from [n]. *)
Definition indexed (n : nat) (p : PolicySet) : list (nat * Policy) :=
  combine (seq n (length p)) p.

(** The reasons of the policies of effect [eff] that fired, in policy order. *)
Definition fired (c : evalContext) (eff : Effect) (n : nat) (p : PolicySet) : list Reason :=
  map (fun np => mkReason (fst np) (po_Position (snd np)))
      (List.filter (fun np => fires c eff (snd np)) (indexed n p)).

(** The errors of the policies that errored, in policy order. *)
Definition errored (c : evalContext) (n : nat) (p : PolicySet) : list Error :=
  flat_map (fun np => match verdict_of c (snd np) with
                      | Errored m => [mkError (fst np) (po_Position (snd np)) m]
                      | _ => []
                      end) (indexed n p).

Definition nonempty {A} (l : list A) : bool :=
  match l with [] => false | _ => true end.

(** Policy indices after a policy is inserted at index [k]. *)
Definition skip_reason (k : nat) (r : Reason) : Reason :=
  if Nat.leb k (rsn_Policy r) then mkReason (S (rsn_Policy r)) (rsn_Position r) else r.

Definition skip_error (k : nat) (e : Error) : Error :=
  if Nat.leb k (err_Policy e)
  then mkError (S (err_Policy e)) (err_Position e) (err_Message e) else e.

Definition context_of (entityMap : Entities) (req : Request) : evalContext :=
  mkEvalContext entityMap (req_Principal req) (req_Action req)
                (req_Resource req) (req_Context req).

(** ** Policies for examples *)

Definition no_position : Position := mkPosition "" 0 1 1.

(** A policy whose evaluation always has the same result. *)
Definition constant_policy (eff : Effect) (r : errmsg + Value) : Policy :=
  mkPolicy no_position [] eff (fun _ => r).

Definition no_request : Request :=
  mkRequest (mkEntityUID "User" "alice") (mkEntityUID "Action" "view")
            (mkEntityUID "Doc" "doc1") [].

(** ** [Decision] as text *)

Definition Decision_String (a : Decision) : string :=
  if a then "allow" else "deny".

(** The one-character string of a double quote. *)
Definition quote_mark : string := String (ascii_of_N 34) EmptyString.

(** [Decision.MarshalJSON]: the string in quotes; the error is always nil. *)
Definition Decision_MarshalJSON (a : Decision) : errmsg + string :=
  inr (quote_mark +:+ Decision_String a +:+ quote_mark).

(** [Decision.UnmarshalJSON]: the decision that it stores in its receiver;
    the error is always nil. *)
Definition Decision_UnmarshalJSON (b : string) : errmsg + Decision :=
  inr (String.eqb b (quote_mark +:+ "allow" +:+ quote_mark)).

(** ** Results of [IsAuthorized] side by side *)

(** The result says that a Forbid policy was satisfied: the decision is
    [Deny] and there are reasons. *)
Definition forbids (r : Decision * Diagnostic) : bool :=
  negb (fst r) && nonempty (Reasons (snd r)).

(** Policy indices of a set that stands behind [k] other policies. *)
Definition shift_reason (k : nat) (r : Reason) : Reason :=
  mkReason (k + rsn_Policy r) (rsn_Position r).

Definition shift_error (k : nat) (e : Error) : Error :=
  mkError (k + err_Policy e) (err_Position e) (err_Message e).

End cedar.

(** * Package [ast]: the parser of [x/exp/ast/parser.go] *)
Module ast.
Import types.

Record Position := mkPosition {
  Filename : string; Offset : Z; Line : Z; Column : Z }.

(** ** Tokens *)

(** Modelled from the spec: the token of section 4.1, "each carrying text
    and a position", of one of the kinds identifier, integer literal, quoted
    string and punctuation (the lexer and the declaration of [Token] are not
    among the sources).  The text of a string token is the literal as it is
    written, quotes and escapes included. *)
Inductive TokenType :=
| TokenEOF | TokenIdent | TokenInt | TokenString | TokenOperator | TokenUnknown.

Record Token := mkToken { Type_ : TokenType; Pos : Position; Text : string }.

(** Go's zero value of [Token]. *)
Definition zeroToken : Token := mkToken TokenEOF (mkPosition "" 0 0 0) "".

Definition isIdent (t : Token) : bool :=
  match Type_ t with TokenIdent => true | _ => false end.
Definition isInt (t : Token) : bool :=
  match Type_ t with TokenInt => true | _ => false end.
Definition isString (t : Token) : bool :=
  match Type_ t with TokenString => true | _ => false end.

Definition dquote : ascii := ascii_of_N 34.
Definition backslash : ascii := ascii_of_N 92.

(** The UTF-8 encoding of a code point. *)
Definition byte (n : N) : ascii := ascii_of_N (n mod 256).

Definition utf8 (cp : N) : string :=
  (if cp <? 128 then String (byte cp) ""
   else if cp <? 2048 then
     String (byte (192 + cp / 64)) (String (byte (128 + cp mod 64)) "")
   else if cp <? 65536 then
     String (byte (224 + cp / 4096))
       (String (byte (128 + (cp / 64) mod 64)) (String (byte (128 + cp mod 64)) ""))
   else
     String (byte (240 + cp / 262144))
       (String (byte (128 + (cp / 4096) mod 64))
          (String (byte (128 + (cp / 64) mod 64))
             (String (byte (128 + cp mod 64)) ""))))%N.

Definition hexval (ch : ascii) : option N :=
  let n := N_of_ascii ch in
  (if (48 <=? n) && (n <=? 57) then Some (n - 48)
   else if (97 <=? n) && (n <=? 102) then Some (n - 87)
   else if (65 <=? n) && (n <=? 70) then Some (n - 55)
   else None)%N.

Definition valid_code_point (cp : N) : bool :=
  ((cp <? 55296) || ((57343 <? cp) && (cp <=? 1114111)))%N.

(** Where the decoder of a string literal stands. *)
Inductive unquoting :=
| Plain                       (* outside an escape *)
| Escaped                     (* after a backslash *)
| Brace                       (* after backslash-u *)
| Hex (cp : N) (digits : nat) (* inside the braces *).

(** Modelled from the spec: the escapes of section 4.1: a backslash
    followed by n, t, r, a double or single quote, a backslash, 0, an
    asterisk (which yields the asterisk) or u and a code point in hexadecimal
    between braces; anything else after a backslash is a malformed escape. *)
Fixpoint unquote (m : unquoting) (s : string) : errmsg + string :=
  match s with
  | EmptyString =>
      match m with Plain => inr EmptyString | _ => inl "bad escape" end
  | String ch rest =>
      let emit (o : string) :=
        match unquote Plain rest with
        | inl e => inl e
        | inr r => inr (o +:+ r)
        end in
      match m with
      | Plain =>
          if Ascii.eqb ch backslash then unquote Escaped rest else emit (String ch "")
      | Escaped =>
          if Ascii.eqb ch "n" then emit (String (ascii_of_N 10) "")
          else if Ascii.eqb ch "t" then emit (String (ascii_of_N 9) "")
          else if Ascii.eqb ch "r" then emit (String (ascii_of_N 13) "")
          else if Ascii.eqb ch dquote then emit (String ch "")
          else if Ascii.eqb ch "'" then emit (String ch "")
          else if Ascii.eqb ch backslash then emit (String ch "")
          else if Ascii.eqb ch "0" then emit (String (ascii_of_N 0) "")
          else if Ascii.eqb ch "*" then emit (String ch "")
          else if Ascii.eqb ch "u" then unquote Brace rest
          else inl "bad escape"
      | Brace =>
          if Ascii.eqb ch "{" then unquote (Hex 0 0) rest else inl "bad escape"
      | Hex cp digits =>
          if Ascii.eqb ch "}" then
            if Nat.eqb digits 0 || negb (valid_code_point cp)
            then inl "bad escape" else emit (utf8 cp)
          else
            match hexval ch with
            | Some d =>
                if Nat.ltb digits 6 then unquote (Hex (16 * cp + d) (S digits)) rest
                else inl "bad escape"
            | None => inl "bad escape"
            end
      end
  end.

Definition TrimPrefix (s prefix : string) : string :=
  if String.prefix prefix s
  then substring (String.length prefix) (String.length s - String.length prefix) s
  else s.

Definition TrimSuffix (s suffix : string) : string :=
  let n := String.length s - String.length suffix in
  if (String.length suffix <=? String.length s)%nat
     && String.eqb (substring n (String.length suffix) s) suffix
  then substring 0 n s else s.

(** Modelled from the spec: [Token.stringValue], the value of a quoted
    string: the text between the quotes with its escapes decoded. *)
Definition stringValue (t : Token) : errmsg + string :=
  unquote Plain (TrimSuffix (TrimPrefix (Text t) (String dquote "")) (String dquote "")).

Fixpoint digits_value (acc : Z) (s : string) : option Z :=
  match s with
  | EmptyString => Some acc
  | String ch rest =>
      let n := Z.of_N (N_of_ascii ch) in
      if ((48 <=? n) && (n <=? 57))%Z
      then digits_value (10 * acc + (n - 48))%Z rest
      else None
  end.

(** Modelled from the spec: [Token.intValue], the value of an integer
    literal as a [Long], a signed 64-bit integer; a literal out of that
    range is an error. *)
Definition intValue (t : Token) : errmsg + Z :=
  match Text t with
  | EmptyString => inl "invalid syntax"
  | s =>
      match digits_value 0 s with
      | None => inl "invalid syntax"
      | Some i => if (i <=? 9223372036854775807)%Z then inr i
                  else inl "value out of range"
      end
  end.

(** ** The Go standard library *)

(** What the parser calls in [net/netip] and [strconv] beyond the code
    written out below. *)
Class GoLib := {
  Float : Type;
  (** [netip.ParseAddr] *)
  ParseAddr : string -> errmsg + Addr;
  (** [strconv.ParseFloat(s, 64)] *)
  ParseFloat : string -> errmsg + Float;
  (** the conversion [int64(f)] behind [types.Decimal(f)] *)
  Float_to_int64 : Float -> Z }.

(** [strings.LastIndexByte]. *)
Fixpoint LastIndexByte (s : string) (ch : ascii) : option nat :=
  match s with
  | EmptyString => None
  | String x rest =>
      match LastIndexByte rest ch with
      | Some i => Some (S i)
      | None => if Ascii.eqb x ch then Some 0 else None
      end
  end.

(** [strconv.Atoi], with its optional sign. *)
Definition Atoi (s : string) : option Z :=
  match s with
  | EmptyString => None
  | String ch rest =>
      if Ascii.eqb ch "+" then
        match rest with EmptyString => None | _ => digits_value 0 rest end
      else if Ascii.eqb ch "-" then
        match rest with
        | EmptyString => None
        | _ => option_map Z.opp (digits_value 0 rest)
        end
      else digits_value 0 s
  end.

(** [netip.ParsePrefix], as the standard library writes it: the string is
    cut at its last slash, an address in front, a prefix length behind. *)
Definition ParsePrefix `{GoLib} (s : string) : errmsg + Prefix :=
  match LastIndexByte s "/" with
  | None => inl "no '/'"
  | Some i =>
      match ParseAddr (substring 0 i s) with
      | inl e => inl e
      | inr ip =>
          match addr_z ip with
          | z6zone _ => inl "IPv6 zones cannot be present in a prefix"
          | _ =>
              let bitsStr := substring (S i) (String.length s - S i) s in
              let leading :=
                match bitsStr with
                | String ch (String _ _) =>
                    let n := N_of_ascii ch in negb ((49 <=? n) && (n <=? 57))%N
                | _ => false
                end in
              if leading then inl "bad bits after slash"
              else
                match Atoi bitsStr with
                | None => inl "bad bits after slash"
                | Some bits =>
                    let maxBits := if Is6 ip then 128%Z else 32%Z in
                    if ((bits <? 0) || (maxBits <? bits))%Z
                    then inl "prefix length out of range"
                    else inr (mkPrefix ip bits)
                end
          end
      end
  end.

(** ** The syntax tree *)

(** Modelled from the spec: the expression variants of section 3, one
    constructor for each node builder that the parser calls (the
    declarations of [Node] and of its builders are not among the sources).
    [RecordNodes] keeps the entries in the order in which the parser adds
    them. *)
Inductive Node :=
| Long (i : Z)
| String_ (s : string)
| True_
| False_
| Principal
| Action
| Resource
| Context
| Entity (uid : EntityUID)
| IPAddr (p : Prefix)
| Decimal (d : Z)
| SetNodes (elements : list Node)
| RecordNodes (entries : list (string * Node))
| If (condition ifTrue ifFalse : Node)
| Or (lhs rhs : Node)
| And (lhs rhs : Node)
| Not (operand : Node)
| Negate (operand : Node)
| LessThan (lhs rhs : Node)
| LessThanOrEqual (lhs rhs : Node)
| GreaterThan (lhs rhs : Node)
| GreaterThanOrEqual (lhs rhs : Node)
| NotEquals (lhs rhs : Node)
| Equals (lhs rhs : Node)
| In_ (lhs rhs : Node)
| Has (lhs : Node) (attr : string)
| Is (lhs : Node) (entityType : string)
| IsIn (lhs : Node) (entityType : string) (rhs : Node)
| Plus (lhs rhs : Node)
| Minus (lhs rhs : Node)
| Times (lhs rhs : Node)
| Access (lhs : Node) (attr : string)
| Contains (lhs rhs : Node)
| ContainsAll (lhs rhs : Node)
| ContainsAny (lhs rhs : Node)
| ExtMethodCall (lhs : Node) (name : string) (args : list Node).

(** Go's zero value [Node{}]. *)
Definition zeroNode : Node := SetNodes [].

Inductive Effect := EffectPermit | EffectForbid.

(** Modelled from the spec: the scopes of a policy, "one of {All, Eq(uid),
    In(uid), Is(type), IsIn(type, uid)}" and, for the action, "{All,
    Eq(uid), In(uid), InSet([uid])}". *)
Inductive Scope :=
| ScopeAll
| ScopeEq (entity : EntityUID)
| ScopeIn (entity : EntityUID)
| ScopeInSet (entities : list EntityUID)
| ScopeIs (path : string)
| ScopeIsIn (path : string) (entity : EntityUID).

Inductive ConditionKind := ConditionWhen | ConditionUnless.

Definition Annotations := list (string * string).

(** Modelled from the spec: the policy of section 3: effect, annotations
    in order, the three scopes and the conditions in order. *)
Record Policy := mkPolicy {
  pol_Effect : Effect;
  pol_Annotations : Annotations;
  pol_Principal : Scope;
  pol_Action : Scope;
  pol_Resource : Scope;
  pol_Conditions : list (ConditionKind * Node) }.

(** The builders: [a.Permit()], [a.Forbid()] start a policy with every
    scope open, the others set one field. *)
Definition Permit (a : Annotations) : Policy :=
  mkPolicy EffectPermit a ScopeAll ScopeAll ScopeAll [].
Definition Forbid (a : Annotations) : Policy :=
  mkPolicy EffectForbid a ScopeAll ScopeAll ScopeAll [].

Definition setPrincipal (s : Scope) (p : Policy) : Policy :=
  mkPolicy (pol_Effect p) (pol_Annotations p) s (pol_Action p) (pol_Resource p)
           (pol_Conditions p).
Definition setAction (s : Scope) (p : Policy) : Policy :=
  mkPolicy (pol_Effect p) (pol_Annotations p) (pol_Principal p) s (pol_Resource p)
           (pol_Conditions p).
Definition setResource (s : Scope) (p : Policy) : Policy :=
  mkPolicy (pol_Effect p) (pol_Annotations p) (pol_Principal p) (pol_Action p) s
           (pol_Conditions p).
Definition addCondition (k : ConditionKind) (expr : Node) (p : Policy) : Policy :=
  mkPolicy (pol_Effect p) (pol_Annotations p) (pol_Principal p) (pol_Action p)
           (pol_Resource p) (pol_Conditions p ++ [(k, expr)]).

(** ** The parser state and its results *)

Record parser := mkParser { tokens : list Token; pos : nat }.

Definition newParser (tokens : list Token) : parser := mkParser tokens 0.

Inductive error :=
| ParseError (at_ : Position) (text : string) (message : string)
    (* [p.errorf]: parse error at <at_> "<text>": <message> *)
| ValueError (message : string)
    (* an error of [stringValue], [intValue], [netip] or [strconv],
       returned as it is *).

(** How a call of a parser method ends: it returns a value, it returns a
    Go error, it panics on an index out of range, or the fuel of the model
    is used up. *)
Inductive outcome (A : Type) :=
| Return (a : A) (p : parser)
| Failure (e : error) (p : parser)
| IndexOutOfRange
| OutOfFuel.
Arguments Return {A} a p.
Arguments Failure {A} e p.
Arguments IndexOutOfRange {A}.
Arguments OutOfFuel {A}.

Definition M (A : Type) : Type := parser -> outcome A.

Definition ret {A} (a : A) : M A := fun p => Return a p.

Definition bind {A B} (m : M A) (f : A -> M B) : M B :=
  fun p =>
    match m p with
    | Return a p' => f a p'
    | Failure e p' => Failure e p'
    | IndexOutOfRange => IndexOutOfRange
    | OutOfFuel => OutOfFuel
    end.

Notation "x <- m ;; k" := (bind m (fun x => k))
  (at level 100, m at next level, right associativity).
Notation "m ;;; k" := (bind m (fun _ => k))
  (at level 100, right associativity).

(** A Go error that is returned as it is. *)
Definition lift {A} (r : errmsg + A) : M A :=
  match r with
  | inl e => fun p => Failure (ValueError e) p
  | inr a => ret a
  end.

Definition out_of_fuel {A} : M A := fun _ => OutOfFuel.

Definition peek : M Token :=
  fun p =>
    match tokens p !! pos p with
    | Some t => Return t p
    | None => IndexOutOfRange
    end.

Definition advance : M Token :=
  t <- peek ;;
  fun p =>
    if (Z.of_nat (pos p) <? Z.of_nat (length (tokens p)) - 1)%Z
    then Return t (mkParser (tokens p) (S (pos p)))
    else Return t p.

Definition errorf {A} (message : string) : M A :=
  fun p =>
    if (pos p <? length (tokens p))%nat then
      match tokens p !! pos p with
      | Some t => Failure (ParseError (Pos t) (Text t) message) p
      | None => IndexOutOfRange
      end
    else Failure (ParseError (Pos zeroToken) (Text zeroToken) message) p.

Definition exact (tok : string) : M unit :=
  t <- advance ;;
  if negb (String.eqb (Text t) tok)
  then errorf ("exact got " +:+ Text t +:+ " want " +:+ tok)
  else ret tt.

(** ** Annotations, effect and scope *)

Definition annotation (a : Annotations) : M Annotations :=
  t <- advance ;;
  if negb (isIdent t) then errorf "expected ident" else
  let name := Text t in
  exact "(" ;;;
  t <- advance ;;
  if negb (isString t) then errorf "expected string" else
  value <- lift (stringValue t) ;;
  exact ")" ;;;
  ret (a ++ [(name, value)]).

Fixpoint annotations (fuel : nat) (res : Annotations) : M Annotations :=
  match fuel with
  | O => out_of_fuel
  | S fuel =>
      t <- peek ;;
      if String.eqb (Text t) "@" then
        advance ;;;
        res <- annotation res ;;
        annotations fuel res
      else ret res
  end.

Definition effect (a : Annotations) : M Policy :=
  next <- advance ;;
  if String.eqb (Text next) "permit" then ret (Permit a)
  else if String.eqb (Text next) "forbid" then ret (Forbid a)
  else errorf ("unexpected effect: " +:+ Text next).

Fixpoint entityFirstPathPreread_loop (fuel : nat) (res : EntityUID) : M EntityUID :=
  match fuel with
  | O => out_of_fuel
  | S fuel =>
      exact "::" ;;;
      t <- advance ;;
      if isIdent t then
        entityFirstPathPreread_loop fuel
          (mkEntityUID (uid_Type res +:+ "::" +:+ Text t) (uid_ID res))
      else if isString t then
        id <- lift (stringValue t) ;;
        ret (mkEntityUID (uid_Type res) id)
      else errorf "unexpected token"
  end.

Definition entityFirstPathPreread (fuel : nat) (firstPath : string) : M EntityUID :=
  entityFirstPathPreread_loop fuel (mkEntityUID firstPath "").

Definition entity (fuel : nat) : M EntityUID :=
  t <- advance ;;
  if negb (isIdent t) then errorf "expected ident"
  else entityFirstPathPreread fuel (Text t).

Fixpoint path_loop (fuel : nat) (res : string) : M string :=
  match fuel with
  | O => out_of_fuel
  | S fuel =>
      t <- peek ;;
      if negb (String.eqb (Text t) "::") then ret res else
      advance ;;;
      t <- advance ;;
      if isIdent t then path_loop fuel (res +:+ "::" +:+ Text t)
      else errorf "unexpected token"
  end.

Definition path (fuel : nat) : M string :=
  t <- advance ;;
  if negb (isIdent t) then errorf "expected ident"
  else path_loop fuel (Text t).

Definition principal (fuel : nat) (policy : Policy) : M Policy :=
  exact "principal" ;;;
  t <- peek ;;
  if String.eqb (Text t) "==" then
    advance ;;;
    entity <- entity fuel ;;
    ret (setPrincipal (ScopeEq entity) policy)
  else if String.eqb (Text t) "is" then
    advance ;;;
    path <- path fuel ;;
    t <- peek ;;
    if String.eqb (Text t) "in" then
      advance ;;;
      entity <- entity fuel ;;
      ret (setPrincipal (ScopeIsIn path entity) policy)
    else ret (setPrincipal (ScopeIs path) policy)
  else if String.eqb (Text t) "in" then
    advance ;;;
    entity <- entity fuel ;;
    ret (setPrincipal (ScopeIn entity) policy)
  else ret policy.

Fixpoint entlist (fuel : nat) (res : list EntityUID) : M (list EntityUID) :=
  match fuel with
  | O => out_of_fuel
  | S fuel' =>
      t <- peek ;;
      if negb (String.eqb (Text t) "]") then
        (if (0 <? length res)%nat then exact "," else ret tt) ;;;
        e <- entity fuel ;;
        entlist fuel' (res ++ [e])
      else ret res
  end.

Definition action (fuel : nat) (policy : Policy) : M Policy :=
  exact "action" ;;;
  t <- peek ;;
  if String.eqb (Text t) "==" then
    advance ;;;
    entity <- entity fuel ;;
    ret (setAction (ScopeEq entity) policy)
  else if String.eqb (Text t) "in" then
    advance ;;;
    t <- peek ;;
    if String.eqb (Text t) "[" then
      advance ;;;
      entities <- entlist fuel [] ;;
      advance ;;;
      ret (setAction (ScopeInSet entities) policy)
    else
      entity <- entity fuel ;;
      ret (setAction (ScopeIn entity) policy)
  else ret policy.

Definition resource (fuel : nat) (policy : Policy) : M Policy :=
  exact "resource" ;;;
  t <- peek ;;
  if String.eqb (Text t) "==" then
    advance ;;;
    entity <- entity fuel ;;
    ret (setResource (ScopeEq entity) policy)
  else if String.eqb (Text t) "is" then
    advance ;;;
    path <- path fuel ;;
    t <- peek ;;
    if String.eqb (Text t) "in" then
      advance ;;;
      entity <- entity fuel ;;
      ret (setResource (ScopeIsIn path entity) policy)
    else ret (setResource (ScopeIs path) policy)
  else if String.eqb (Text t) "in" then
    advance ;;;
    entity <- entity fuel ;;
    ret (setResource (ScopeIn entity) policy)
  else ret policy.

(** ** Expressions *)

Definition lookup_string {A} (k : string) (m : list (string * A)) : option A :=
  option_map snd (List.find (fun kv => String.eqb (fst kv) k) m).

(** The [operators] map of [relation]. *)
Definition relation_operators : list (string * (Node -> Node -> Node)) :=
  [("<", LessThan); ("<=", LessThanOrEqual); (">", GreaterThan);
   (">=", GreaterThanOrEqual); ("!=", NotEquals); ("==", Equals); ("in", In_)].

(** The [operators] map of [add]. *)
Definition add_operators : list (string * (Node -> Node -> Node)) :=
  [("+", Plus); ("-", Minus)].

(** The [knownMethods] map of [access]. *)
Definition knownMethods : list (string * (Node -> Node -> Node)) :=
  [("contains", Contains); ("containsAll", ContainsAll);
   ("containsAny", ContainsAny)].

Definition newExtMethodCallNode (lhs : Node) (name : string) (args : list Node) : Node :=
  ExtMethodCall lhs name args.

Section WithGoLib.
Context `{GoLib}.

Definition entityOrExtFun (fuel : nat) (ident : string) : M Node :=
  if String.eqb ident "ip" || String.eqb ident "decimal" then
    exact "(" ;;;
    t <- advance ;;
    if negb (isString t) then errorf "expected string" else
    str <- lift (stringValue t) ;;
    exact ")" ;;;
    if String.eqb ident "ip" then
      ipaddr <- lift (ParsePrefix str) ;;
      ret (IPAddr ipaddr)
    else
      dec <- lift (ParseFloat str) ;;
      ret (Decimal (Float_to_int64 dec))
  else
    entity <- entityFirstPathPreread fuel ident ;;
    ret (Entity entity).

(** The methods of the parser that call each other; every call and every
    turn of a loop takes one unit of fuel.  [unary_loop], [member_loop],
    [expressions] and [record_loop] are the [for] loops of [unary],
    [member], [expressions] and [record], with the variables they update. *)
Fixpoint expression (fuel : nat) : M Node :=
  match fuel with
  | O => out_of_fuel
  | S fuel =>
      t <- peek ;;
      if String.eqb (Text t) "if" then
        advance ;;;
        condition <- expression fuel ;;
        exact "then" ;;;
        ifTrue <- expression fuel ;;
        exact "else" ;;;
        ifFalse <- expression fuel ;;
        ret (If condition ifTrue ifFalse)
      else or_ fuel
  end

with or_ (fuel : nat) : M Node :=
  match fuel with
  | O => out_of_fuel
  | S fuel =>
      lhs <- and_ fuel ;;
      t <- peek ;;
      if negb (String.eqb (Text t) "||") then ret lhs else
      advance ;;;
      rhs <- and_ fuel ;;
      ret (Or lhs rhs)
  end

with and_ (fuel : nat) : M Node :=
  match fuel with
  | O => out_of_fuel
  | S fuel =>
      lhs <- relation fuel ;;
      t <- peek ;;
      if negb (String.eqb (Text t) "&&") then ret lhs else
      advance ;;;
      rhs <- relation fuel ;;
      ret (And lhs rhs)
  end

with relation (fuel : nat) : M Node :=
  match fuel with
  | O => out_of_fuel
  | S fuel =>
      lhs <- add fuel ;;
      t <- peek ;;
      match lookup_string (Text t) relation_operators with
      | Some f =>
          advance ;;;
          rhs <- add fuel ;;
          ret (f lhs rhs)
      | None =>
          if String.eqb (Text t) "has" then
            advance ;;;
            t <- advance ;;
            if isIdent t then ret (Has lhs (Text t))
            else if isString t then
              str <- lift (stringValue t) ;;
              ret (Has lhs str)
            else errorf "expected ident or string"
          else if String.eqb (Text t) "like" then
            errorf "unimplemented"
          else if String.eqb (Text t) "is" then
            advance ;;;
            entityType <- path fuel ;;
            t <- peek ;;
            if String.eqb (Text t) "in" then
              advance ;;;
              inEntity <- add fuel ;;
              ret (IsIn lhs entityType inEntity)
            else ret (Is lhs entityType)
          else ret lhs
      end
  end

with add (fuel : nat) : M Node :=
  match fuel with
  | O => out_of_fuel
  | S fuel =>
      lhs <- mult fuel ;;
      t <- peek ;;
      match lookup_string (Text t) add_operators with
      | Some f =>
          advance ;;;
          rhs <- mult fuel ;;
          ret (f lhs rhs)
      | None => ret lhs
      end
  end

with mult (fuel : nat) : M Node :=
  match fuel with
  | O => out_of_fuel
  | S fuel =>
      lhs <- unary_loop fuel [] ;;
      t <- peek ;;
      if negb (String.eqb (Text t) "*") then ret lhs else
      advance ;;;
      rhs <- unary_loop fuel [] ;;
      ret (Times lhs rhs)
  end

with unary_loop (fuel : nat) (ops : list (Node -> Node)) : M Node :=
  match fuel with
  | O => out_of_fuel
  | S fuel =>
      t <- peek ;;
      if String.eqb (Text t) "!" then
        advance ;;;
        unary_loop fuel (ops ++ [Not])
      else if String.eqb (Text t) "-" then
        advance ;;;
        unary_loop fuel (ops ++ [Negate])
      else
        res <- member fuel ;;
        ret (fold_right (fun op res => op res) res ops)
  end

with member (fuel : nat) : M Node :=
  match fuel with
  | O => out_of_fuel
  | S fuel =>
      res <- primary fuel ;;
      member_loop fuel res
  end

with member_loop (fuel : nat) (res : Node) : M Node :=
  match fuel with
  | O => out_of_fuel
  | S fuel =>
      r <- access fuel res ;;
      if snd r then member_loop fuel (fst r) else ret (fst r)
  end

with primary (fuel : nat) : M Node :=
  match fuel with
  | O => out_of_fuel
  | S fuel =>
      t <- advance ;;
      if isInt t then
        i <- lift (intValue t) ;;
        ret (Long i)
      else if isString t then
        str <- lift (stringValue t) ;;
        ret (String_ str)
      else if String.eqb (Text t) "true" then ret True_
      else if String.eqb (Text t) "false" then ret False_
      else if String.eqb (Text t) "principal" then ret Principal
      else if String.eqb (Text t) "action" then ret Action
      else if String.eqb (Text t) "resource" then ret Resource
      else if String.eqb (Text t) "context" then ret Context
      else if isIdent t then entityOrExtFun fuel (Text t)
      else if String.eqb (Text t) "(" then
        expr <- expression fuel ;;
        exact ")" ;;;
        ret expr
      else if String.eqb (Text t) "[" then
        set <- expressions fuel "]" [] ;;
        advance ;;;
        ret (SetNodes set)
      else if String.eqb (Text t) "{" then
        record_loop fuel []
      else errorf "invalid primary"
  end

with expressions (fuel : nat) (endOfListMarker : string) (res : list Node)
  : M (list Node) :=
  match fuel with
  | O => out_of_fuel
  | S fuel =>
      t <- peek ;;
      if negb (String.eqb (Text t) endOfListMarker) then
        (if (0 <? length res)%nat then exact "," else ret tt) ;;;
        e <- expression fuel ;;
        expressions fuel endOfListMarker (res ++ [e])
      else ret res
  end

with record_loop (fuel : nat) (entries : list (string * Node)) : M Node :=
  match fuel with
  | O => out_of_fuel
  | S fuel =>
      t <- peek ;;
      if String.eqb (Text t) "}" then
        advance ;;;
        ret (RecordNodes entries)
      else
        (if (0 <? length entries)%nat then exact "," else ret tt) ;;;
        kv <- recordEntry fuel ;;
        match lookup_string (fst kv) entries with
        | Some _ => errorf ("duplicate key: " +:+ fst kv)
        | None => record_loop fuel (entries ++ [kv])
        end
  end

with recordEntry (fuel : nat) : M (string * Node) :=
  match fuel with
  | O => out_of_fuel
  | S fuel =>
      t <- advance ;;
      key <- (if isIdent t then ret (Text t)
              else if isString t then lift (stringValue t)
              else errorf "unexpected token") ;;
      exact ":" ;;;
      value <- expression fuel ;;
      ret (key, value)
  end

with access (fuel : nat) (lhs : Node) : M (Node * bool) :=
  match fuel with
  | O => out_of_fuel
  | S fuel =>
      t <- peek ;;
      if String.eqb (Text t) "." then
        advance ;;;
        t <- advance ;;
        if negb (isIdent t) then errorf "unexpected token" else
        t' <- peek ;;
        if String.eqb (Text t') "(" then
          let methodName := Text t in
          advance ;;;
          exprs <- expressions fuel ")" [] ;;
          advance ;;;
          match lookup_string methodName knownMethods with
          | Some f =>
              match exprs with
              | [e] => ret (f lhs e, true)
              | _ => errorf (methodName +:+ " expects one argument")
              end
          | None => ret (newExtMethodCallNode lhs methodName exprs, true)
          end
        else ret (Access lhs (Text t), true)
      else if String.eqb (Text t) "[" then
        advance ;;;
        t <- advance ;;
        if negb (isString t) then errorf "unexpected token" else
        name <- lift (stringValue t) ;;
        exact "]" ;;;
        ret (Access lhs name, true)
      else ret (lhs, false)
  end.

Definition unary (fuel : nat) : M Node := unary_loop fuel [].
Definition record (fuel : nat) : M Node := record_loop fuel [].

(** ** Conditions and policies *)

Definition condition (fuel : nat) : M Node :=
  exact "{" ;;;
  res <- expression fuel ;;
  exact "}" ;;;
  ret res.

Fixpoint conditions (fuel : nat) (policy : Policy) : M Policy :=
  match fuel with
  | O => out_of_fuel
  | S fuel' =>
      t <- peek ;;
      if String.eqb (Text t) "when" then
        advance ;;;
        expr <- condition fuel ;;
        conditions fuel' (addCondition ConditionWhen expr policy)
      else if String.eqb (Text t) "unless" then
        advance ;;;
        expr <- condition fuel ;;
        conditions fuel' (addCondition ConditionUnless expr policy)
      else ret policy
  end.

Definition policyFromCedar (fuel : nat) : M Policy :=
  annotations <- annotations fuel [] ;;
  policy <- effect annotations ;;
  exact "(" ;;;
  policy <- principal fuel policy ;;
  exact "," ;;;
  policy <- action fuel policy ;;
  exact "," ;;;
  policy <- resource fuel policy ;;
  exact ")" ;;;
  policy <- conditions fuel policy ;;
  exact ";" ;;;
  ret policy.

End WithGoLib.

(** ** Running the parser *)

(** What a caller sees of a call on a fresh parser: the value and the index
    of the next token, or the error. *)
Inductive answer (A : Type) :=
| Parsed (a : A) (next : nat)
| Rejected (e : error)
| Panicked
| Unfinished.
Arguments Parsed {A} a next.
Arguments Rejected {A} e.
Arguments Panicked {A}.
Arguments Unfinished {A}.

Definition run {A} (m : M A) (tokens : list Token) : answer A :=
  match m (newParser tokens) with
  | Return a p => Parsed a (pos p)
  | Failure e _ => Rejected e
  | IndexOutOfRange => Panicked
  | OutOfFuel => Unfinished
  end.

(** The position is an index into the token slice. *)
Definition in_bounds (p : parser) : Prop := pos p < length (tokens p).

(** A method is safe when, called with the position in bounds, it does
    not index out of range, leaves the position in bounds and the tokens as
    they are. *)
Definition safe {A} (m : M A) : Prop :=
  forall p, in_bounds p ->
    match m p with
    | Return _ p' | Failure _ p' => tokens p' = tokens p /\ in_bounds p'
    | IndexOutOfRange => False
    | OutOfFuel => True
    end.

(** [m'] extends [m]: wherever [m] has the fuel to end, [m'] ends the same
    way. *)
Definition extends {A} (m m' : M A) : Prop :=
  forall p, m p <> OutOfFuel -> m' p = m p.

Section Together.
Context `{GoLib}.

(** The methods for expressions, which call each other, are safe together. *)
Definition expressions_safe (fuel : nat) : Prop :=
  safe (expression fuel) /\ safe (or_ fuel) /\ safe (and_ fuel)
  /\ safe (relation fuel) /\ safe (add fuel) /\ safe (mult fuel)
  /\ (forall ops, safe (unary_loop fuel ops))
  /\ safe (member fuel) /\ (forall res, safe (member_loop fuel res))
  /\ safe (primary fuel)
  /\ (forall marker res, safe (expressions fuel marker res))
  /\ (forall entries, safe (record_loop fuel entries))
  /\ safe (recordEntry fuel)
  /\ (forall lhs, safe (access fuel lhs)).

(** With more fuel they end the same way, together. *)
Definition expressions_extend (fuel fuel' : nat) : Prop :=
  extends (expression fuel) (expression fuel')
  /\ extends (or_ fuel) (or_ fuel')
  /\ extends (and_ fuel) (and_ fuel')
  /\ extends (relation fuel) (relation fuel')
  /\ extends (add fuel) (add fuel')
  /\ extends (mult fuel) (mult fuel')
  /\ (forall ops, extends (unary_loop fuel ops) (unary_loop fuel' ops))
  /\ extends (member fuel) (member fuel')
  /\ (forall res, extends (member_loop fuel res) (member_loop fuel' res))
  /\ extends (primary fuel) (primary fuel')
  /\ (forall marker res,
        extends (expressions fuel marker res) (expressions fuel' marker res))
  /\ (forall entries, extends (record_loop fuel entries) (record_loop fuel' entries))
  /\ extends (recordEntry fuel) (recordEntry fuel')
  /\ (forall lhs, extends (access fuel lhs) (access fuel' lhs)).

End Together.

(** Two methods end the same way from every state. *)
Definition agree {A} (m m' : M A) : Prop := forall p, m p = m' p.

(** Two models of the Go library that give the same results. *)
Definition same_library (G G' : GoLib) : Prop :=
  exists (pa pa' : string -> errmsg + Addr) (F : Type)
         (pf pf' : string -> errmsg + F) (fi fi' : F -> Z),
    G = Build_GoLib F pa pf fi /\ G' = Build_GoLib F pa' pf' fi'
    /\ (forall s, pa s = pa' s) /\ (forall s, pf s = pf' s)
    /\ (forall x, fi x = fi' x).

(** The methods for expressions agree, together, under two such models. *)
Definition expressions_agree (G G' : GoLib) (fuel : nat) : Prop :=
  agree (@expression G fuel) (@expression G' fuel)
  /\ agree (@or_ G fuel) (@or_ G' fuel)
  /\ agree (@and_ G fuel) (@and_ G' fuel)
  /\ agree (@relation G fuel) (@relation G' fuel)
  /\ agree (@add G fuel) (@add G' fuel)
  /\ agree (@mult G fuel) (@mult G' fuel)
  /\ (forall ops, agree (@unary_loop G fuel ops) (@unary_loop G' fuel ops))
  /\ agree (@member G fuel) (@member G' fuel)
  /\ (forall res, agree (@member_loop G fuel res) (@member_loop G' fuel res))
  /\ agree (@primary G fuel) (@primary G' fuel)
  /\ (forall marker res,
        agree (@expressions G fuel marker res) (@expressions G' fuel marker res))
  /\ (forall entries, agree (@record_loop G fuel entries) (@record_loop G' fuel entries))
  /\ agree (@recordEntry G fuel) (@recordEntry G' fuel)
  /\ (forall lhs, agree (@access G fuel lhs) (@access G' fuel lhs)).

(** ** Token literals *)
Definition at_ (off line col : Z) : Position := mkPosition "<input>" off line col.
Definition ident off line col s := mkToken TokenIdent (at_ off line col) s.
Definition int off line col s := mkToken TokenInt (at_ off line col) s.
Definition op off line col s := mkToken TokenOperator (at_ off line col) s.
Definition str off line col s :=
  mkToken TokenString (at_ off line col) (String dquote (s +:+ String dquote EmptyString)).
Definition eof off line col := mkToken TokenEOF (at_ off line col) EmptyString.


(** ** The inputs of the tests, as the lexer hands them to the parser

    Each list ends with the token of the end of the input; a line break of
    the text is shown as a slash, a double quote as a single one. *)

(** TestParsePolicy, "multiple addition":
    permit ( principal, action, resource ) / when { 42 + 2 + 1 }; *)
Definition multiple_addition : list Token :=
  [ident 0 1 1 "permit"; op 7 1 8 "("; ident 9 1 10 "principal";
   op 18 1 19 ","; ident 20 1 21 "action"; op 26 1 27 ",";
   ident 28 1 29 "resource"; op 37 1 38 ")"; ident 39 2 1 "when";
   op 44 2 6 "{"; int 46 2 8 "42"; op 49 2 11 "+"; int 51 2 13 "2";
   op 53 2 15 "+"; int 55 2 17 "1"; op 57 2 19 "}"; op 58 2 20 ";";
   eof 59 2 21].

(** TestParsePolicy, "mixed addition and subtraction":
    permit ( principal, action, resource ) / when { 42 - 2 + 1 }; *)
Definition mixed_addition_and_subtraction : list Token :=
  [ident 0 1 1 "permit"; op 7 1 8 "("; ident 9 1 10 "principal";
   op 18 1 19 ","; ident 20 1 21 "action"; op 26 1 27 ",";
   ident 28 1 29 "resource"; op 37 1 38 ")"; ident 39 2 1 "when";
   op 44 2 6 "{"; int 46 2 8 "42"; op 49 2 11 "-"; int 51 2 13 "2";
   op 53 2 15 "+"; int 55 2 17 "1"; op 57 2 19 "}"; op 58 2 20 ";";
   eof 59 2 21].

(** TestParsePolicy, "multiple or":
    permit ( principal, action, resource ) / when { true || false || true }; *)
Definition multiple_or : list Token :=
  [ident 0 1 1 "permit"; op 7 1 8 "("; ident 9 1 10 "principal";
   op 18 1 19 ","; ident 20 1 21 "action"; op 26 1 27 ",";
   ident 28 1 29 "resource"; op 37 1 38 ")"; ident 39 2 1 "when";
   op 44 2 6 "{"; ident 46 2 8 "true"; op 51 2 13 "||";
   ident 54 2 16 "false"; op 60 2 22 "||"; ident 63 2 25 "true";
   op 68 2 30 "}"; op 69 2 31 ";"; eof 70 2 32].

(** TestParsePolicy, "multiple and":
    permit ( principal, action, resource ) / when { true && false && true }; *)
Definition multiple_and : list Token :=
  [ident 0 1 1 "permit"; op 7 1 8 "("; ident 9 1 10 "principal";
   op 18 1 19 ","; ident 20 1 21 "action"; op 26 1 27 ",";
   ident 28 1 29 "resource"; op 37 1 38 ")"; ident 39 2 1 "when";
   op 44 2 6 "{"; ident 46 2 8 "true"; op 51 2 13 "&&";
   ident 54 2 16 "false"; op 60 2 22 "&&"; ident 63 2 25 "true";
   op 68 2 30 "}"; op 69 2 31 ";"; eof 70 2 32].

(** TestParsePolicy, "multiple multiplication":
    permit ( principal, action, resource ) / when { 42 * 2 * 1 }; *)
Definition multiple_multiplication : list Token :=
  [ident 0 1 1 "permit"; op 7 1 8 "("; ident 9 1 10 "principal";
   op 18 1 19 ","; ident 20 1 21 "action"; op 26 1 27 ",";
   ident 28 1 29 "resource"; op 37 1 38 ")"; ident 39 2 1 "when";
   op 44 2 6 "{"; int 46 2 8 "42"; op 49 2 11 "*"; int 51 2 13 "2";
   op 53 2 15 "*"; int 55 2 17 "1"; op 57 2 19 "}"; op 58 2 20 ";";
   eof 59 2 21].

(** TestParsePolicy, "addition":
    permit ( principal, action, resource ) / when { 42 + 2 }; *)
Definition addition : list Token :=
  [ident 0 1 1 "permit"; op 7 1 8 "("; ident 9 1 10 "principal";
   op 18 1 19 ","; ident 20 1 21 "action"; op 26 1 27 ",";
   ident 28 1 29 "resource"; op 37 1 38 ")"; ident 39 2 1 "when";
   op 44 2 6 "{"; int 46 2 8 "42"; op 49 2 11 "+"; int 51 2 13 "2";
   op 53 2 15 "}"; op 54 2 16 ";"; eof 55 2 17].

(** TestParsePolicy, "mult over add precedence (lhs add)":
    permit ( principal, action, resource ) / when { 2 + 3 * 4 == 14 }; *)
Definition mult_over_add : list Token :=
  [ident 0 1 1 "permit"; op 7 1 8 "("; ident 9 1 10 "principal";
   op 18 1 19 ","; ident 20 1 21 "action"; op 26 1 27 ",";
   ident 28 1 29 "resource"; op 37 1 38 ")"; ident 39 2 1 "when";
   op 44 2 6 "{"; int 46 2 8 "2"; op 48 2 10 "+"; int 50 2 12 "3";
   op 52 2 14 "*"; int 54 2 16 "4"; op 56 2 18 "=="; int 59 2 21 "14";
   op 62 2 24 "}"; op 63 2 25 ";"; eof 64 2 26].

(** TestParsePolicy, "scope in":
    permit ( /     principal in Group::'folkHeroes', /     action in ActionType::'farming', /     resource in Genus::'malus' / ); *)
Definition scope_in : list Token :=
  [ident 0 1 1 "permit"; op 7 1 8 "("; ident 13 2 5 "principal";
   ident 23 2 15 "in"; ident 26 2 18 "Group"; op 31 2 23 "::";
   str 33 2 25 "folkHeroes"; op 45 2 37 ","; ident 51 3 5 "action";
   ident 58 3 12 "in"; ident 61 3 15 "ActionType"; op 71 3 25 "::";
   str 73 3 27 "farming"; op 82 3 36 ","; ident 88 4 5 "resource";
   ident 97 4 14 "in"; ident 100 4 17 "Genus"; op 105 4 22 "::";
   str 107 4 24 "malus"; op 115 5 1 ")"; op 116 5 2 ";"; eof 117 5 3].

(** TestParsePolicySetErrors, "not-extension-function":
    permit ( principal, action, resource ) when { not_an_extension_fn() }; *)
Definition not_extension_function : list Token :=
  [ident 0 1 1 "permit"; op 7 1 8 "("; ident 9 1 10 "principal";
   op 18 1 19 ","; ident 20 1 21 "action"; op 26 1 27 ",";
   ident 28 1 29 "resource"; op 37 1 38 ")"; ident 39 1 40 "when";
   op 44 1 45 "{"; ident 46 1 47 "not_an_extension_fn"; op 65 1 66 "(";
   op 66 1 67 ")"; op 68 1 69 "}"; op 69 1 70 ";"; eof 70 1 71].

(** TestParsePolicySetErrors, "not-extension-method":
    permit ( principal, action, resource ) when { context.not_an_extension_method() }; *)
Definition not_extension_method : list Token :=
  [ident 0 1 1 "permit"; op 7 1 8 "("; ident 9 1 10 "principal";
   op 18 1 19 ","; ident 20 1 21 "action"; op 26 1 27 ",";
   ident 28 1 29 "resource"; op 37 1 38 ")"; ident 39 1 40 "when";
   op 44 1 45 "{"; ident 46 1 47 "context"; op 53 1 54 ".";
   ident 54 1 55 "not_an_extension_method"; op 77 1 78 "("; op 78 1 79 ")";
   op 80 1 81 "}"; op 81 1 82 ";"; eof 82 1 83].

(** TestParsePolicySetErrors, "extension-method-is-function":
    permit ( principal, action, resource ) when { context.ip() }; *)
Definition extension_method_is_function : list Token :=
  [ident 0 1 1 "permit"; op 7 1 8 "("; ident 9 1 10 "principal";
   op 18 1 19 ","; ident 20 1 21 "action"; op 26 1 27 ",";
   ident 28 1 29 "resource"; op 37 1 38 ")"; ident 39 1 40 "when";
   op 44 1 45 "{"; ident 46 1 47 "context"; op 53 1 54 ".";
   ident 54 1 55 "ip"; op 56 1 57 "("; op 57 1 58 ")"; op 59 1 60 "}";
   op 60 1 61 ";"; eof 61 1 62].

(** TestParsePolicy, "ip extension function":
    permit ( principal, action, resource ) / when { ip('1.2.3.4') == ip('2.3.4.5') }; *)
Definition ip_extension_function : list Token :=
  [ident 0 1 1 "permit"; op 7 1 8 "("; ident 9 1 10 "principal";
   op 18 1 19 ","; ident 20 1 21 "action"; op 26 1 27 ",";
   ident 28 1 29 "resource"; op 37 1 38 ")"; ident 39 2 1 "when";
   op 44 2 6 "{"; ident 46 2 8 "ip"; op 48 2 10 "("; str 49 2 11 "1.2.3.4";
   op 58 2 20 ")"; op 60 2 22 "=="; ident 63 2 25 "ip"; op 65 2 27 "(";
   str 66 2 28 "2.3.4.5"; op 75 2 37 ")"; op 77 2 39 "}"; op 78 2 40 ";";
   eof 79 2 41].

(** a decimal literal with five fractional digits:
    permit ( principal, action, resource ) / when { decimal('1.23456') == decimal('23.45') }; *)
Definition decimal_five_digits : list Token :=
  [ident 0 1 1 "permit"; op 7 1 8 "("; ident 9 1 10 "principal";
   op 18 1 19 ","; ident 20 1 21 "action"; op 26 1 27 ",";
   ident 28 1 29 "resource"; op 37 1 38 ")"; ident 39 2 1 "when";
   op 44 2 6 "{"; ident 46 2 8 "decimal"; op 53 2 15 "(";
   str 54 2 16 "1.23456"; op 63 2 25 ")"; op 65 2 27 "==";
   ident 68 2 30 "decimal"; op 75 2 37 "("; str 76 2 38 "23.45";
   op 83 2 45 ")"; op 85 2 47 "}"; op 86 2 48 ";"; eof 87 2 49].

(** TestParsePolicy, "like no wildcards":
    permit ( principal, action, resource ) / when { principal.firstName like 'johnny' }; *)
Definition like_no_wildcards : list Token :=
  [ident 0 1 1 "permit"; op 7 1 8 "("; ident 9 1 10 "principal";
   op 18 1 19 ","; ident 20 1 21 "action"; op 26 1 27 ",";
   ident 28 1 29 "resource"; op 37 1 38 ")"; ident 39 2 1 "when";
   op 44 2 6 "{"; ident 46 2 8 "principal"; op 55 2 17 ".";
   ident 56 2 18 "firstName"; ident 66 2 28 "like"; str 71 2 33 "johnny";
   op 80 2 42 "}"; op 81 2 43 ";"; eof 82 2 44].

(** the expression of "multiple addition":
    42 + 2 + 1 *)
Definition expr_multiple_addition : list Token :=
  [int 0 1 1 "42"; op 3 1 4 "+"; int 5 1 6 "2"; op 7 1 8 "+"; int 9 1 10 "1";
   eof 10 1 11].

(** the expression of "mixed addition and subtraction":
    42 - 2 + 1 *)
Definition expr_mixed_addition_and_subtraction : list Token :=
  [int 0 1 1 "42"; op 3 1 4 "-"; int 5 1 6 "2"; op 7 1 8 "+"; int 9 1 10 "1";
   eof 10 1 11].

(** the expression of "multiple or":
    true || false || true *)
Definition expr_multiple_or : list Token :=
  [ident 0 1 1 "true"; op 5 1 6 "||"; ident 8 1 9 "false"; op 14 1 15 "||";
   ident 17 1 18 "true"; eof 21 1 22].

(** ** What holds of every method *)

(** An error made by [errorf] cites the token at the position of the
    parser. *)
Definition cites (e : error) (p : parser) : Prop :=
  match e with
  | ParseError at_ text _ =>
      exists t, tokens p !! pos p = Some t /\ Pos t = at_ /\ Text t = text
  | ValueError _ => True
  end.

(** A method is orderly when, called with the position in bounds, it
    does not index out of range, leaves the tokens as they are, moves the
    position forwards only and keeps it in bounds, and cites in its parse
    errors the token it stands on. *)
Definition orderly {A} (m : M A) : Prop :=
  forall p, in_bounds p ->
    match m p with
    | Return _ p' => tokens p' = tokens p /\ pos p <= pos p' /\ in_bounds p'
    | Failure e p' =>
        tokens p' = tokens p /\ pos p <= pos p' /\ in_bounds p' /\ cites e p'
    | IndexOutOfRange => False
    | OutOfFuel => True
    end.

Section Together.
Context `{GoLib}.
Variable I : forall A, M A -> Prop.

(** The methods for expressions have the property [I] together. *)
Definition expressions_have (fuel : nat) : Prop :=
  I _ (expression fuel) /\ I _ (or_ fuel) /\ I _ (and_ fuel)
  /\ I _ (relation fuel) /\ I _ (add fuel) /\ I _ (mult fuel)
  /\ (forall ops, I _ (unary_loop fuel ops))
  /\ I _ (member fuel) /\ (forall res, I _ (member_loop fuel res))
  /\ I _ (primary fuel)
  /\ (forall marker res, I _ (expressions fuel marker res))
  /\ (forall entries, I _ (record_loop fuel entries))
  /\ I _ (recordEntry fuel)
  /\ (forall lhs, I _ (access fuel lhs)).

End Together.

(** ** Records without duplicate keys *)

Fixpoint distinct_strings (l : list string) : bool :=
  match l with
  | [] => true
  | k :: rest => negb (existsb (String.eqb k) rest) && distinct_strings rest
  end.

(** In a node and in all the nodes below it, the keys of every record are
    pairwise different. *)
Fixpoint keys_distinct (n : Node) : bool :=
  match n with
  | Long _ | String_ _ | True_ | False_ | Principal | Action | Resource
  | Context | Entity _ | IPAddr _ | Decimal _ => true
  | SetNodes elements => forallb keys_distinct elements
  | RecordNodes entries =>
      distinct_strings (map fst entries)
      && forallb (fun kv => keys_distinct (snd kv)) entries
  | If c t e => keys_distinct c && keys_distinct t && keys_distinct e
  | Or l r | And l r | LessThan l r | LessThanOrEqual l r | GreaterThan l r
  | GreaterThanOrEqual l r | NotEquals l r | Equals l r | In_ l r
  | Plus l r | Minus l r | Times l r | Contains l r | ContainsAll l r
  | ContainsAny l r | IsIn l _ r => keys_distinct l && keys_distinct r
  | Not o | Negate o | Has o _ | Is o _ | Access o _ => keys_distinct o
  | ExtMethodCall l _ args => keys_distinct l && forallb keys_distinct args
  end.

(** Whatever [m] returns satisfies [Q]. *)
Definition ensures {A} (Q : A -> Prop) (m : M A) : Prop :=
  forall p a p', m p = Return a p' -> Q a.

(** An operator of a table keeps the property. *)
Definition binary_keeps (f : Node -> Node -> Node) : Prop :=
  forall l r, keys_distinct l = true -> keys_distinct r = true ->
              keys_distinct (f l r) = true.

Definition unary_keeps (f : Node -> Node) : Prop :=
  forall o, keys_distinct o = true -> keys_distinct (f o) = true.

Definition entries_distinct (entries : list (string * Node)) : Prop :=
  distinct_strings (map fst entries) = true
  /\ forallb (fun kv => keys_distinct (snd kv)) entries = true.

Section Together.
Context `{GoLib}.

(** The methods for expressions return nodes without duplicate keys,
    together, when what they are given has none. *)
Definition expressions_keys_distinct (fuel : nat) : Prop :=
  let good := fun n => keys_distinct n = true in
  ensures good (expression fuel) /\ ensures good (or_ fuel)
  /\ ensures good (and_ fuel) /\ ensures good (relation fuel)
  /\ ensures good (add fuel) /\ ensures good (mult fuel)
  /\ (forall ops, Forall unary_keeps ops -> ensures good (unary_loop fuel ops))
  /\ ensures good (member fuel)
  /\ (forall res, good res -> ensures good (member_loop fuel res))
  /\ ensures good (primary fuel)
  /\ (forall marker res, forallb keys_distinct res = true ->
        ensures (fun l => forallb keys_distinct l = true)
                (expressions fuel marker res))
  /\ (forall entries, entries_distinct entries ->
        ensures good (record_loop fuel entries))
  /\ ensures (fun kv => good (snd kv)) (recordEntry fuel)
  /\ (forall lhs, good lhs -> ensures (fun r => good (fst r)) (access fuel lhs)).

End Together.

(** ** More inputs *)

(** a record literal in a record literal:
    permit ( principal, action, resource ) / when { {k: 42, j: [{a: 1}]} == context }; *)
Definition record_literal : list Token :=
  [ident 0 1 1 "permit"; op 7 1 8 "("; ident 9 1 10 "principal";
   op 18 1 19 ","; ident 20 1 21 "action"; op 26 1 27 ",";
   ident 28 1 29 "resource"; op 37 1 38 ")"; ident 39 2 1 "when";
   op 44 2 6 "{"; op 46 2 8 "{"; ident 47 2 9 "k"; op 48 2 10 ":";
   int 50 2 12 "42"; op 52 2 14 ","; ident 54 2 16 "j"; op 55 2 17 ":";
   op 57 2 19 "["; op 58 2 20 "{"; ident 59 2 21 "a"; op 60 2 22 ":";
   int 62 2 24 "1"; op 63 2 25 "}"; op 64 2 26 "]"; op 65 2 27 "}";
   op 67 2 29 "=="; ident 70 2 32 "context"; op 78 2 40 "}"; op 79 2 41 ";";
   eof 80 2 42].

(** TestParseApproximateErrors, "dupeKey":
    permit (principal, action, resource) when { {k:42,k:43} *)
Definition duplicate_key : list Token :=
  [ident 0 1 1 "permit"; op 7 1 8 "("; ident 8 1 9 "principal";
   op 17 1 18 ","; ident 19 1 20 "action"; op 25 1 26 ",";
   ident 27 1 28 "resource"; op 35 1 36 ")"; ident 37 1 38 "when";
   op 42 1 43 "{"; op 44 1 45 "{"; ident 45 1 46 "k"; op 46 1 47 ":";
   int 47 1 48 "42"; op 49 1 50 ","; ident 50 1 51 "k"; op 51 1 52 ":";
   int 52 1 53 "43"; op 54 1 55 "}"; eof 55 1 56].

(** A model of the Go library that parses nothing, for inputs that do not
    call it. *)
Definition no_library : GoLib :=
  Build_GoLib unit (fun _ => inl "not modelled") (fun _ => inl "not modelled")
              (fun _ => 0%Z).

(** ** Reading a run of tokens *)

(** The tokens at the position of the parser are [seg], and at least one
    more token follows them. *)
Definition reads (seg : list Token) (p : parser) : Prop :=
  (forall i t, seg !! i = Some t -> tokens p !! (pos p + i) = Some t)
  /\ pos p + length seg < length (tokens p).

(** The parser [n] tokens further. *)
Definition skip (n : nat) (p : parser) : parser :=
  mkParser (tokens p) (pos p + n).

(** The node builder of a prefix operator, [!] or [-]. *)
Definition prefix_operator (t : Token) : Node -> Node :=
  if String.eqb (Text t) "!" then Not else Negate.

Definition is_prefix_operator (t : Token) : bool :=
  String.eqb (Text t) "!" || String.eqb (Text t) "-".

(** The tokens of an entity: a type path, [::] and a string. *)
Definition entity_tokens (first : Token) (more : list (Token * Token))
  (sep id : Token) : list Token :=
  first :: flat_map (fun ct => [fst ct; snd ct]) more ++ [sep; id].

(** The type path that they spell. *)
Definition type_path (first : Token) (more : list (Token * Token)) : string :=
  fold_left (fun acc ct => acc +:+ "::" +:+ Text (snd ct)) more (Text first).

(** TestParsePolicy, "mutliple negate operators", the expression:
    !--1 *)
Definition expr_multiple_negate : list Token :=
  [op 0 1 1 "!"; op 1 1 2 "-"; op 2 1 3 "-"; int 3 1 4 "1"; eof 4 1 5].

(** an entity with a type path of three names:
    A::B::C::'x' *)
Definition expr_entity_path : list Token :=
  [ident 0 1 1 "A"; op 1 1 2 "::"; ident 3 1 4 "B"; op 4 1 5 "::";
   ident 6 1 7 "C"; op 7 1 8 "::"; str 9 1 10 "x"; eof 12 1 13].

(** ** Termination *)

(** A token that no test of the parser accepts: its text is empty and it
    is no identifier, integer or string, as the token of the end of the
    input. *)
Definition eoflike (t : Token) : bool :=
  String.eqb (Text t) "" && negb (isIdent t) && negb (isInt t) && negb (isString t).

(** A token list that ends with such a token. *)
Definition closed (toks : list Token) : Prop :=
  exists t, last toks = Some t /\ eoflike t = true.

Definition current (p : parser) : option Token := tokens p !! pos p.

(** The tokens from the position on, the current one included. *)
Definition remaining (p : parser) : nat := length (tokens p) - pos p.

(** Fuel that suffices for each token that remains. *)
Definition fuel_rate : nat := 20.

(** With fuel [k], of which [fuel_rate] units for each remaining token and
    [d] more are enough, the method [m] ends, from a position in bounds of
    a closed token list; when it returns, the tokens are the same and the
    position is in bounds and has not decreased; it has increased when the
    value returned satisfies [s]. *)
Definition fine {A} (d : nat) (s : A -> bool) (k : nat) (m : M A) : Prop :=
  forall p, in_bounds p -> closed (tokens p) ->
    fuel_rate * remaining p + d <= k ->
    match m p with
    | Return a p' =>
        tokens p' = tokens p /\ in_bounds p'
        /\ (if s a then pos p < pos p' else pos p <= pos p')
    | Failure _ _ => True
    | IndexOutOfRange => True
    | OutOfFuel => False
    end.

(** The same, from the positions at which the token is [t]. *)
Definition fine_at {A} (t : Token) (d : nat) (s : A -> bool) (k : nat) (m : M A)
  : Prop :=
  forall p, in_bounds p -> closed (tokens p) -> current p = Some t ->
    fuel_rate * remaining p + d <= k ->
    match m p with
    | Return a p' =>
        tokens p' = tokens p /\ in_bounds p'
        /\ (if s a then pos p < pos p' else pos p <= pos p')
    | Failure _ _ => True
    | IndexOutOfRange => True
    | OutOfFuel => False
    end.

Definition always {A} (a : A) : bool := true.
Definition never {A} (a : A) : bool := false.

Section Together.
Context `{GoLib}.

(** The methods for expressions end, together. *)
Definition expressions_fine (k : nat) : Prop :=
  fine 10 always k (expression k) /\ fine 9 always k (or_ k)
  /\ fine 8 always k (and_ k) /\ fine 7 always k (relation k)
  /\ fine 6 always k (add k) /\ fine 5 always k (mult k)
  /\ (forall ops, fine 4 always k (unary_loop k ops))
  /\ fine 3 always k (member k)
  /\ (forall res, fine 2 never k (member_loop k res))
  /\ fine 1 always k (primary k)
  /\ (forall marker res, fine 11 never k (expressions k marker res))
  /\ (forall entries, fine 2 never k (record_loop k entries))
  /\ fine 1 always k (recordEntry k)
  /\ (forall lhs, fine 1 snd k (access k lhs)).

End Together.

(** ** Chains of accesses and type paths *)

(** One access behind an expression: a dot and a name, or a string in
    square brackets. *)
Inductive access_step :=
| Dot (dot name : Token)
| Index (open key close : Token).

Definition step_tokens (s : access_step) : list Token :=
  match s with
  | Dot dot name => [dot; name]
  | Index open key close => [open; key; close]
  end.

(** The attribute that a step names, when its tokens are those that
    [access] accepts. *)
Definition step_name (s : access_step) : option string :=
  match s with
  | Dot dot name =>
      if String.eqb (Text dot) "." && isIdent name then Some (Text name)
      else None
  | Index open key close =>
      if String.eqb (Text open) "[" && isString key
         && String.eqb (Text close) "]"
      then match stringValue key with inr v => Some v | inl _ => None end
      else None
  end.

Definition chain_tokens (steps : list access_step) : list Token :=
  flat_map step_tokens steps.

(** A token behind which [member] goes on: it opens an access or the
    arguments of a method. *)
Definition continues_member (t : Token) : bool :=
  String.eqb (Text t) "." || String.eqb (Text t) "[" || String.eqb (Text t) "(".

(** The tokens of a type path: a name, then pairs of [::] and a name. *)
Definition path_tokens (first : Token) (more : list (Token * Token)) : list Token :=
  first :: flat_map (fun ct => [fst ct; snd ct]) more.

(** The token at the position of the parser has the text [text]. *)
Definition stands_on (text : string) (p : parser) : Prop :=
  exists t, tokens p !! pos p = Some t /\ Text t = text.

(** an attribute of an attribute of an attribute, compared:
    context.a["b"].c == 1 *)
Definition expr_access_chain : list Token :=
  [ident 0 1 1 "context"; op 7 1 8 "."; ident 8 1 9 "a"; op 9 1 10 "[";
   str 10 1 11 "b"; op 13 1 14 "]"; op 14 1 15 "."; ident 15 1 16 "c";
   op 17 1 18 "=="; int 20 1 21 "1"; eof 21 1 22].

(** the elements of a set literal, behind its bracket:
    1, 2] *)
Definition expr_set_elements : list Token :=
  [int 0 1 1 "1"; op 1 1 2 ","; int 3 1 4 "2"; op 4 1 5 "]"; eof 5 1 6].

(** the entities of an action list, behind its bracket:
    A::'x', B::'y'] *)
Definition action_list_elements : list Token :=
  [ident 0 1 1 "A"; op 1 1 2 "::"; str 3 1 4 "x"; op 6 1 7 ",";
   ident 8 1 9 "B"; op 9 1 10 "::"; str 11 1 12 "y"; op 14 1 15 "]";
   eof 15 1 16].

(** a type path:
    A::B::C *)
Definition expr_type_path : list Token :=
  [ident 0 1 1 "A"; op 1 1 2 "::"; ident 3 1 4 "B"; op 4 1 5 "::";
   ident 6 1 7 "C"; eof 7 1 8].

End ast.

(** * Properties of the authorizer *)
Section Authorizer.
Import types cedar.
Variable c : evalContext.

Lemma indexed_cons n po rest :
  indexed n (po :: rest) = (n, po) :: indexed (S n) rest.
Proof. reflexivity. Qed.

Lemma fired_cons eff n po rest :
  fired c eff n (po :: rest) =
  (if fires c eff po then [mkReason n (po_Position po)] else [])
  ++ fired c eff (S n) rest.
Proof.
  unfold fired. rewrite indexed_cons. simpl.
  destruct (fires c eff po); reflexivity.
Qed.

Lemma errored_cons n po rest :
  errored c n (po :: rest) =
  match verdict_of c po with
  | Errored m => [mkError n (po_Position po) m]
  | _ => []
  end ++ errored c (S n) rest.
Proof. unfold errored. rewrite indexed_cons. reflexivity. Qed.


Lemma nonempty_app {A} (l1 l2 : list A) :
  nonempty (l1 ++ l2) = nonempty l1 || nonempty l2.
Proof. destruct l1; reflexivity. Qed.

(** The loop computes the three lists of the specification. *)
Lemma range_spec p : forall n l,
  range c n p l =
  mkLocals (diag_Errors l ++ errored c n p)
           (gotForbid l || nonempty (fired c Forbid n p))
           (forbidReasons l ++ fired c Forbid n p)
           (gotPermit l || nonempty (fired c Permit n p))
           (permitReasons l ++ fired c Permit n p).
Proof.
  induction p as [|po rest IH]; intros n l.
  - simpl. unfold errored, fired. simpl.
    rewrite ?app_nil_r, ?orb_false_r. destruct l; reflexivity.
  - simpl. rewrite IH. rewrite !fired_cons, errored_cons.
    unfold iteration, fires, verdict_of.
    destruct (po_eval po c) as [err|v]; simpl.
    + rewrite ?andb_false_r. simpl. rewrite <- ?app_assoc. reflexivity.
    + destruct (ValueToBool v) as [err|[|]]; simpl.
      * rewrite ?andb_false_r. simpl. rewrite <- ?app_assoc. reflexivity.
      * destruct (po_Effect po); simpl;
          rewrite <- ?app_assoc; simpl; rewrite ?orb_true_r, ?app_nil_r; reflexivity.
      * rewrite ?andb_false_r. simpl. rewrite ?app_nil_r. reflexivity.
Qed.

Lemma indexed_lookup p : forall n i po,
  In (i, po) (indexed n p) <-> (n <= i /\ p !! (i - n) = Some po).
Proof.
  induction p as [|q rest IH]; intros n i po.
  - simpl. split; [tauto|]. intros [_ H]. discriminate.
  - rewrite indexed_cons. simpl. rewrite IH. split.
    + intros [H|[Hle H]].
      * inversion H; subst. split; [lia|]. replace (i - i) with 0 by lia. reflexivity.
      * split; [lia|]. replace (i - n) with (S (i - S n)) by lia. exact H.
    + intros [Hle H]. destruct (Nat.eq_dec n i) as [->|Hne].
      * left. replace (i - i) with 0 in H by lia. simpl in H. congruence.
      * right. split; [lia|]. replace (i - n) with (S (i - S n)) in H by lia. exact H.
Qed.

Lemma fired_In eff p n r :
  In r (fired c eff n p) <->
  exists po, n <= rsn_Policy r /\ p !! (rsn_Policy r - n) = Some po
             /\ rsn_Position r = po_Position po /\ fires c eff po = true.
Proof.
  unfold fired. rewrite in_map_iff. split.
  - intros [[i po] [<- H]]. apply filter_In in H as [H Hf]. simpl in *.
    apply indexed_lookup in H as [Hle H]. exists po. auto.
  - intros (po & Hle & H & Hpos & Hf). exists (rsn_Policy r, po). split.
    + simpl. rewrite <- Hpos. destruct r; reflexivity.
    + apply filter_In. split; [|exact Hf]. apply indexed_lookup. auto.
Qed.

Lemma nonempty_fired eff p :
  nonempty (fired c eff 0 p) = true <->
  exists n po, p !! n = Some po /\ po_Effect po = eff /\ verdict_of c po = Satisfied.
Proof.
  assert (Hf : forall po, fires c eff po = true <->
             po_Effect po = eff /\ verdict_of c po = Satisfied).
  { intros po. unfold fires. rewrite andb_true_iff. split.
    - intros [He Hv]. split.
      + destruct (po_Effect po), eff; simpl in He; congruence.
      + destruct (verdict_of c po); congruence.
    - intros [<- ->]. split; [destruct (po_Effect po)|]; reflexivity. }
  split.
  - destruct (fired c eff 0 p) as [|r rs] eqn:E; [discriminate|]. intros _.
    assert (H : In r (fired c eff 0 p)) by (rewrite E; left; reflexivity).
    apply fired_In in H as (po & _ & H & _ & Hfi).
    rewrite Nat.sub_0_r in H. apply Hf in Hfi. eauto.
  - intros (n & po & H & He & Hv).
    assert (Hin : In (mkReason n (po_Position po)) (fired c eff 0 p)).
    { apply fired_In. exists po. simpl. rewrite Nat.sub_0_r.
      repeat split; [lia|assumption|]. apply Hf. auto. }
    destruct (fired c eff 0 p); [destruct Hin|reflexivity].
Qed.

Lemma fired_app eff l1 : forall n l2,
  fired c eff n (l1 ++ l2) = fired c eff n l1 ++ fired c eff (n + length l1) l2.
Proof.
  induction l1 as [|po rest IH]; intros n l2; simpl.
  - rewrite Nat.add_0_r. reflexivity.
  - rewrite !fired_cons, IH, <- app_assoc.
    replace (S n + length rest) with (n + S (length rest)) by lia. reflexivity.
Qed.

Lemma errored_app l1 : forall n l2,
  errored c n (l1 ++ l2) = errored c n l1 ++ errored c (n + length l1) l2.
Proof.
  induction l1 as [|po rest IH]; intros n l2; simpl.
  - rewrite Nat.add_0_r. reflexivity.
  - rewrite !errored_cons, IH, <- app_assoc.
    replace (S n + length rest) with (n + S (length rest)) by lia. reflexivity.
Qed.

Lemma fired_below eff l : forall n k,
  n + length l <= k -> map (skip_reason k) (fired c eff n l) = fired c eff n l.
Proof.
  induction l as [|po rest IH]; intros n k Hk; [reflexivity|].
  simpl in Hk. rewrite fired_cons, map_app, IH by lia. f_equal.
  destruct (fires c eff po); [|reflexivity]. simpl. unfold skip_reason. simpl.
  destruct (Nat.leb_spec k n); [lia|reflexivity].
Qed.

Lemma fired_above eff l : forall n k,
  k <= n -> fired c eff (S n) l = map (skip_reason k) (fired c eff n l).
Proof.
  induction l as [|po rest IH]; intros n k Hk; [reflexivity|].
  rewrite !fired_cons, map_app, <- IH by lia. f_equal.
  destruct (fires c eff po); [|reflexivity]. simpl. unfold skip_reason. simpl.
  destruct (Nat.leb_spec k n); [reflexivity|lia].
Qed.

Lemma errored_above l : forall n k,
  k <= n -> errored c (S n) l = map (skip_error k) (errored c n l).
Proof.
  induction l as [|po rest IH]; intros n k Hk; [reflexivity|].
  rewrite !errored_cons, map_app, <- IH by lia. f_equal.
  destruct (verdict_of c po); [|reflexivity..]. simpl. unfold skip_error. simpl.
  destruct (Nat.leb_spec k n); [reflexivity|lia].
Qed.

(** Inserting a policy that errors changes no list of reasons, up to the
    renumbering of the policies behind it. *)
Lemma fired_insert_errored eff l1 po l2 msg :
  verdict_of c po = Errored msg ->
  fired c eff 0 (l1 ++ po :: l2) =
  map (skip_reason (length l1)) (fired c eff 0 (l1 ++ l2)).
Proof.
  intros Hv. rewrite !fired_app, fired_cons, map_app. simpl.
  unfold fires at 1. rewrite Hv, andb_false_r. simpl.
  rewrite fired_below by (simpl; lia). f_equal. apply fired_above. lia.
Qed.

Lemma nonempty_map {A B} (f : A -> B) (l : list A) :
  nonempty (map f l) = nonempty l.
Proof. destruct l; reflexivity. Qed.

Lemma errored_In l : forall n i po m,
  n <= i -> l !! (i - n) = Some po -> verdict_of c po = Errored m ->
  In (mkError i (po_Position po) m) (errored c n l).
Proof.
  intros n i po m Hle Hl Hv. unfold errored. apply in_flat_map.
  exists (i, po). split; [apply indexed_lookup; auto|]. simpl. rewrite Hv.
  left. reflexivity.
Qed.

End Authorizer.

(** After [IsAuthorized]'s loop, decision and diagnostic in terms of the
    three lists. *)
Lemma IsAuthorized_unfold p es req :
  let c := cedar.context_of es req in
  cedar.IsAuthorized p es req =
  (cedar.nonempty (cedar.fired c cedar.Permit 0 p)
   && negb (cedar.nonempty (cedar.fired c cedar.Forbid 0 p)),
   cedar.mkDiagnostic
     (match cedar.fired c cedar.Forbid 0 p with
      | [] => cedar.fired c cedar.Permit 0 p
      | fr => fr
      end)
     (cedar.errored c 0 p)).
Proof.
  intros c. unfold cedar.IsAuthorized. fold (cedar.context_of es req). fold c.
  rewrite range_spec. simpl.
  destruct (cedar.fired c cedar.Forbid 0 p), (cedar.fired c cedar.Permit 0 p);
    reflexivity.
Qed.

(** C1. [IsAuthorized] returns [Allow] exactly when some Permit policy is
    satisfied and no Forbid policy is; the reasons are those of the
    satisfied Forbid policies if there is one and of the satisfied Permit
    policies otherwise, as (index, position) pairs; the errors are those of
    every policy that errored, in policy order. *)
Theorem IsAuthorized_decision_rule (p : cedar.PolicySet) (es : cedar.Entities)
  (req : cedar.Request) :
  let c := cedar.context_of es req in
  let satisfied eff :=
    exists n po, p !! n = Some po /\ cedar.po_Effect po = eff
                 /\ cedar.verdict_of c po = cedar.Satisfied in
  (fst (cedar.IsAuthorized p es req) = cedar.Allow
     <-> satisfied cedar.Permit /\ ~ satisfied cedar.Forbid)
  /\ cedar.Reasons (snd (cedar.IsAuthorized p es req)) =
     (if cedar.nonempty (cedar.fired c cedar.Forbid 0 p)
      then cedar.fired c cedar.Forbid 0 p else cedar.fired c cedar.Permit 0 p)
  /\ (forall eff r, In r (cedar.fired c eff 0 p) <->
        exists po, p !! cedar.rsn_Policy r = Some po
                   /\ cedar.rsn_Position r = cedar.po_Position po
                   /\ cedar.po_Effect po = eff
                   /\ cedar.verdict_of c po = cedar.Satisfied)
  /\ cedar.Errors (snd (cedar.IsAuthorized p es req)) = cedar.errored c 0 p.
Proof.
  intros c satisfied. rewrite IsAuthorized_unfold. fold c. simpl.
  split; [|split; [|split]].
  - split.
    + intros Ha. apply andb_true_iff in Ha as [Hp Hf]. split.
      * apply nonempty_fired in Hp. exact Hp.
      * intros Hs. apply nonempty_fired in Hs. rewrite Hs in Hf. discriminate.
    + intros [Hp Hf]. unfold cedar.Allow. apply andb_true_iff. split.
      * apply nonempty_fired. exact Hp.
      * destruct (cedar.nonempty (cedar.fired c cedar.Forbid 0 p)) eqn:E; [|reflexivity].
        exfalso. apply Hf. apply nonempty_fired in E. exact E.
  - destruct (cedar.fired c cedar.Forbid 0 p); reflexivity.
  - intros eff r. split.
    + intros Hr. apply fired_In in Hr as (po & _ & Hl & Hpos & Hf).
      rewrite Nat.sub_0_r in Hl. exists po.
      unfold cedar.fires in Hf. apply andb_true_iff in Hf as [He Hv].
      repeat split; try assumption.
      * destruct (cedar.po_Effect po), eff; simpl in He; congruence.
      * destruct (cedar.verdict_of c po); congruence.
    + intros (po & Hl & Hpos & He & Hv). apply fired_In. exists po.
      rewrite Nat.sub_0_r. repeat split; [lia|assumption..|].
      unfold cedar.fires. rewrite He, Hv. destruct eff; reflexivity.
  - reflexivity.
Qed.

(** C2. Every policy is evaluated.  A policy whose evaluation errors adds
    exactly one entry, with its index, position and message, to the errors,
    gives no reason, and leaves decision, reasons and the other errors as
    they are without it (the policies behind it being renumbered). *)
Theorem IsAuthorized_error_isolated (es : cedar.Entities) (req : cedar.Request)
  (l1 l2 : cedar.PolicySet) (po : cedar.Policy) (msg : string) :
  let c := cedar.context_of es req in
  let k := length l1 in
  let full := cedar.IsAuthorized (l1 ++ po :: l2) es req in
  let without := cedar.IsAuthorized (l1 ++ l2) es req in
  cedar.verdict_of c po = cedar.Errored msg ->
  fst full = fst without
  /\ cedar.Reasons (snd full) = map (cedar.skip_reason k) (cedar.Reasons (snd without))
  /\ (forall r, In r (cedar.Reasons (snd full)) -> cedar.rsn_Policy r <> k)
  /\ cedar.Errors (snd full) =
     cedar.errored c 0 l1
       ++ cedar.mkError k (cedar.po_Position po) msg
       :: map (cedar.skip_error k) (cedar.errored c k l2)
  /\ cedar.Errors (snd without) = cedar.errored c 0 l1 ++ cedar.errored c k l2
  /\ (forall n q m, (l1 ++ po :: l2) !! n = Some q ->
        cedar.verdict_of c q = cedar.Errored m ->
        In (cedar.mkError n (cedar.po_Position q) m) (cedar.Errors (snd full))).
Proof.
  intros c k full without Hv. subst full without.
  rewrite !IsAuthorized_unfold. fold c. simpl.
  rewrite !(fired_insert_errored c _ l1 po l2 msg Hv). fold k.
  rewrite !nonempty_map.
  split; [reflexivity|]. split.
  { destruct (cedar.fired c cedar.Forbid 0 (l1 ++ l2)); reflexivity. }
  split.
  { intros r Hr.
    assert (H : exists eff, In r (map (cedar.skip_reason k) (cedar.fired c eff 0 (l1 ++ l2)))).
    { destruct (cedar.fired c cedar.Forbid 0 (l1 ++ l2)) eqn:E.
      - exists cedar.Permit. exact Hr.
      - exists cedar.Forbid. rewrite E. exact Hr. }
    destruct H as [eff H]. apply in_map_iff in H as (r0 & <- & _).
    unfold cedar.skip_reason. destruct (Nat.leb_spec k (cedar.rsn_Policy r0)); simpl; lia. }
  split.
  { rewrite errored_app, errored_cons, Hv. simpl. fold k.
    rewrite (errored_above c l2 k k) by lia. reflexivity. }
  split.
  { rewrite errored_app. reflexivity. }
  intros n q m Hl Hq. apply errored_In; [lia| |exact Hq].
  rewrite Nat.sub_0_r. exact Hl.
Qed.

(** A permit that is satisfied, a policy that errors, a forbid that is not
    satisfied: the decision is [Allow] with and without the second, and the
    only error is that of policy 1. *)
Lemma IsAuthorized_error_isolated_witness :
  let ok := cedar.constant_policy cedar.Permit (inr (types.Boolean true)) in
  let bad := cedar.constant_policy cedar.Permit (inl "attribute not found") in
  let no := cedar.constant_policy cedar.Forbid (inr (types.Boolean false)) in
  cedar.verdict_of (cedar.context_of [] cedar.no_request) bad
  = cedar.Errored "attribute not found"
  /\ fst (cedar.IsAuthorized [ok; bad; no] [] cedar.no_request)
     = fst (cedar.IsAuthorized [ok; no] [] cedar.no_request)
  /\ cedar.IsAuthorized [ok; bad; no] [] cedar.no_request
     = (cedar.Allow,
        cedar.mkDiagnostic [cedar.mkReason 0 cedar.no_position]
          [cedar.mkError 1 cedar.no_position "attribute not found"]).
Proof.
  intros ok bad no.
  assert (Hv : cedar.verdict_of (cedar.context_of [] cedar.no_request) bad
               = cedar.Errored "attribute not found") by reflexivity.
  split; [exact Hv|]. split.
  - exact (proj1 (IsAuthorized_error_isolated [] cedar.no_request [ok] [no] bad
                    "attribute not found" Hv)).
  - reflexivity.
Defined.

(** * More on the authorizer *)
Section AuthorizerMore.
Import types cedar.
Variable c : evalContext.

Lemma nonempty_fired_existsb eff p : forall n,
  nonempty (fired c eff n p) = existsb (fires c eff) p.
Proof.
  induction p as [|po rest IH]; intros n; [reflexivity|].
  rewrite fired_cons, nonempty_app, IH. simpl.
  destruct (fires c eff po); reflexivity.
Qed.

Lemma existsb_Permutation {A} (f : A -> bool) (l l' : list A) :
  Permutation l l' -> existsb f l = existsb f l'.
Proof.
  induction 1 as [|x l l' _ IH|x y l|l l' l'' _ IH1 _ IH2]; simpl.
  - reflexivity.
  - rewrite IH. reflexivity.
  - destruct (f x), (f y); reflexivity.
  - congruence.
Qed.

Lemma fired_range eff p : forall n r,
  In r (fired c eff n p) -> n <= rsn_Policy r < n + length p.
Proof.
  intros n r Hr. apply fired_In in Hr as (po & Hle & Hl & _).
  apply lookup_lt_Some in Hl. lia.
Qed.

Lemma errored_range p : forall n e,
  In e (errored c n p) -> n <= err_Policy e < n + length p.
Proof.
  induction p as [|po rest IH]; intros n e He.
  - destruct He.
  - rewrite errored_cons in He. apply in_app_iff in He as [He|He].
    + destruct (verdict_of c po); try destruct He as [<-|[]]; try destruct He.
      simpl. lia.
    + apply IH in He. simpl. lia.
Qed.

Lemma fired_sorted eff p : forall n,
  StronglySorted lt (map rsn_Policy (fired c eff n p)).
Proof.
  induction p as [|po rest IH]; intros n; [constructor|].
  rewrite fired_cons. destruct (fires c eff po); simpl; [|apply IH].
  constructor; [apply IH|].
  apply Forall_forall. intros i Hi. apply list_elem_of_In, in_map_iff in Hi.
  destruct Hi as (r & <- & Hr). apply fired_range in Hr. lia.
Qed.

Lemma errored_sorted p : forall n,
  StronglySorted lt (map err_Policy (errored c n p)).
Proof.
  induction p as [|po rest IH]; intros n; [constructor|].
  rewrite errored_cons. destruct (verdict_of c po); simpl; try apply IH.
  constructor; [apply IH|].
  apply Forall_forall. intros i Hi. apply list_elem_of_In, in_map_iff in Hi.
  destruct Hi as (r & <- & Hr). apply errored_range in Hr. lia.
Qed.

Lemma fired_shift eff p : forall n k,
  fired c eff (k + n) p = map (shift_reason k) (fired c eff n p).
Proof.
  induction p as [|po rest IH]; intros n k; [reflexivity|].
  rewrite !fired_cons, map_app. replace (S (k + n)) with (k + S n) by lia.
  rewrite IH. destruct (fires c eff po); reflexivity.
Qed.

Lemma errored_shift p : forall n k,
  errored c (k + n) p = map (shift_error k) (errored c n p).
Proof.
  induction p as [|po rest IH]; intros n k; [reflexivity|].
  rewrite !errored_cons, map_app. replace (S (k + n)) with (k + S n) by lia.
  rewrite IH. destruct (verdict_of c po); reflexivity.
Qed.

Lemma fired_from eff p k :
  fired c eff k p = map (shift_reason k) (fired c eff 0 p).
Proof. rewrite <- fired_shift. f_equal. lia. Qed.

Lemma errored_from p k :
  errored c k p = map (shift_error k) (errored c 0 p).
Proof. rewrite <- errored_shift. f_equal. lia. Qed.

End AuthorizerMore.

(** X1. [Decision.UnmarshalJSON] gives back what [Decision.MarshalJSON]
    wrote; it never fails, and it reads [Allow] from the seven bytes of
    "allow" in quotes only: any other input, malformed or not, is [Deny]. *)
Theorem Decision_JSON_round_trip (a : cedar.Decision) (b : string) :
  (exists s, cedar.Decision_MarshalJSON a = inr s
             /\ cedar.Decision_UnmarshalJSON s = inr a)
  /\ (exists d, cedar.Decision_UnmarshalJSON b = inr d
                /\ (d = cedar.Allow <-> cedar.Decision_MarshalJSON cedar.Allow = inr b)).
Proof.
  split.
  - eexists. split; [reflexivity|]. destruct a; reflexivity.
  - eexists. split; [reflexivity|]. unfold cedar.Allow, cedar.Decision_MarshalJSON.
    simpl. split.
    + intros E. apply String.eqb_eq in E. subst b. reflexivity.
    + intros E. inversion E. reflexivity.
Qed.

(** X2. The decision does not depend on the order of the policies. *)
Theorem IsAuthorized_order_irrelevant (p p' : cedar.PolicySet)
  (es : cedar.Entities) (req : cedar.Request) :
  Permutation p p' ->
  fst (cedar.IsAuthorized p es req) = fst (cedar.IsAuthorized p' es req).
Proof.
  intros Hp. rewrite !IsAuthorized_unfold. simpl.
  rewrite !nonempty_fired_existsb.
  rewrite (existsb_Permutation _ _ _ Hp).
  rewrite (existsb_Permutation (cedar.fires _ cedar.Forbid) _ _ Hp). reflexivity.
Qed.

(** A forbid in front or behind: the decision is the same. *)
Lemma IsAuthorized_order_irrelevant_witness :
  let permit := cedar.constant_policy cedar.Permit (inr (types.Boolean true)) in
  let forbid := cedar.constant_policy cedar.Forbid (inr (types.Boolean true)) in
  Permutation [permit; forbid] [forbid; permit]
  /\ fst (cedar.IsAuthorized [permit; forbid] [] cedar.no_request)
     = fst (cedar.IsAuthorized [forbid; permit] [] cedar.no_request).
Proof.
  intros permit forbid.
  assert (Hp : Permutation [permit; forbid] [forbid; permit]) by apply perm_swap.
  split; [exact Hp|].
  exact (IsAuthorized_order_irrelevant _ _ [] cedar.no_request Hp).
Defined.

(** X3. The reasons and the errors of a diagnostic are in strictly
    increasing order of policy index, and every index is that of a policy
    of the set. *)
Theorem Diagnostic_in_policy_order (p : cedar.PolicySet) (es : cedar.Entities)
  (req : cedar.Request) :
  let diag := snd (cedar.IsAuthorized p es req) in
  StronglySorted lt (map cedar.rsn_Policy (cedar.Reasons diag))
  /\ StronglySorted lt (map cedar.err_Policy (cedar.Errors diag))
  /\ Forall (fun r => cedar.rsn_Policy r < length p) (cedar.Reasons diag)
  /\ Forall (fun e => cedar.err_Policy e < length p) (cedar.Errors diag).
Proof.
  intros diag. subst diag. rewrite IsAuthorized_unfold. simpl.
  set (c := cedar.context_of es req).
  assert (Hr : cedar.Reasons
                 (cedar.mkDiagnostic
                    match cedar.fired c cedar.Forbid 0 p with
                    | [] => cedar.fired c cedar.Permit 0 p
                    | fr => fr
                    end (cedar.errored c 0 p))
               = cedar.fired c cedar.Forbid 0 p
               \/ cedar.Reasons
                    (cedar.mkDiagnostic
                       match cedar.fired c cedar.Forbid 0 p with
                       | [] => cedar.fired c cedar.Permit 0 p
                       | fr => fr
                       end (cedar.errored c 0 p))
                  = cedar.fired c cedar.Permit 0 p).
  { simpl. destruct (cedar.fired c cedar.Forbid 0 p); auto. }
  simpl in Hr. repeat split.
  - destruct Hr as [-> | ->]; apply fired_sorted.
  - apply errored_sorted.
  - apply Forall_forall. intros r Hin. apply list_elem_of_In in Hin.
    destruct Hr as [E | E]; rewrite E in Hin; apply fired_range in Hin; lia.
  - apply Forall_forall. intros e Hin. apply list_elem_of_In in Hin.
    apply errored_range in Hin. lia.
Qed.

(** X4. The result for two policy sets put one behind the other follows
    from the results for each: the decision is [Allow] when one of them
    allows and neither forbids; the errors are those of both; the reasons
    are those of both, without those of a set that permits where the other
    forbids.  The indices of the second set are moved by the length of the
    first. *)
Theorem IsAuthorized_app (p1 p2 : cedar.PolicySet) (es : cedar.Entities)
  (req : cedar.Request) :
  let r := cedar.IsAuthorized (p1 ++ p2) es req in
  let r1 := cedar.IsAuthorized p1 es req in
  let r2 := cedar.IsAuthorized p2 es req in
  let k := length p1 in
  fst r = (fst r1 || fst r2) && negb (cedar.forbids r1) && negb (cedar.forbids r2)
  /\ cedar.Errors (snd r)
     = cedar.Errors (snd r1) ++ map (cedar.shift_error k) (cedar.Errors (snd r2))
  /\ cedar.Reasons (snd r)
     = (if cedar.forbids r1 || negb (cedar.forbids r2)
        then cedar.Reasons (snd r1) else [])
       ++ (if cedar.forbids r2 || negb (cedar.forbids r1)
           then map (cedar.shift_reason k) (cedar.Reasons (snd r2)) else []).
Proof.
  intros r r1 r2 k. subst r r1 r2.
  rewrite !IsAuthorized_unfold. unfold cedar.forbids. simpl.
  set (c := cedar.context_of es req).
  rewrite !fired_app, errored_app. simpl. fold k.
  rewrite (fired_from c cedar.Forbid p2 k), (fired_from c cedar.Permit p2 k),
    (errored_from c p2 k).
  destruct (cedar.fired c cedar.Forbid 0 p1) as [|f1 fs1],
           (cedar.fired c cedar.Forbid 0 p2) as [|f2 fs2],
           (cedar.fired c cedar.Permit 0 p1) as [|a1 as1],
           (cedar.fired c cedar.Permit 0 p2) as [|a2 as2];
    simpl; rewrite ?app_nil_r; auto.
Qed.

(** * Properties of the set value *)
Section SetValue.
Import types.

Lemma EntityUID_eqb_refl a : EntityUID_eqb a a = true.
Proof. unfold EntityUID_eqb. rewrite !String.eqb_refl. reflexivity. Qed.

Lemma EntityUID_eqb_eq a b : EntityUID_eqb a b = true <-> a = b.
Proof.
  unfold EntityUID_eqb. rewrite andb_true_iff, !String.eqb_eq.
  destruct a, b; simpl. split; [intros [-> ->]; reflexivity|].
  intros E; inversion E; auto.
Qed.

Lemma zone_eqb_eq a b : zone_eqb a b = true <-> a = b.
Proof.
  destruct a, b; simpl; split; try congruence; try reflexivity.
  - intros E. apply String.eqb_eq in E. congruence.
  - intros E. inversion E. apply String.eqb_refl.
Qed.

Lemma Prefix_eqb_eq a b : Prefix_eqb a b = true <-> a = b.
Proof.
  unfold Prefix_eqb. rewrite !andb_true_iff, !Z.eqb_eq, zone_eqb_eq.
  destruct a as [[ab az] al], b as [[bb bz] bl]; simpl. split.
  - intros [[-> ->] ->]. reflexivity.
  - intros E; inversion E; auto.
Qed.

(** Membership up to [Equal], as a proposition. *)
Lemma Contains_true s v :
  Contains s v = true <-> exists x, In x s /\ Equal x v = true.
Proof. unfold Contains. apply existsb_exists. Qed.

Lemma Equal_Set xs ys :
  Equal (Set_ xs) (Set_ ys) = true <->
  (forall x, In x xs -> exists y, In y ys /\ Equal x y = true)
  /\ (forall y, In y ys -> exists x, In x xs /\ Equal x y = true).
Proof.
  simpl. rewrite andb_true_iff, !forallb_forall.
  split; intros [H1 H2]; split; intros z Hz.
  - apply existsb_exists. apply H1. exact Hz.
  - apply existsb_exists. apply H2. exact Hz.
  - apply existsb_exists. apply H1. exact Hz.
  - apply existsb_exists. apply H2. exact Hz.
Qed.

Lemma Equal_Record xs ys :
  Equal (Record_ xs) (Record_ ys) = true <->
  (forall kx, In kx xs ->
     exists ky, In ky ys /\ fst kx = fst ky /\ Equal (snd kx) (snd ky) = true)
  /\ (forall ky, In ky ys ->
     exists kx, In kx xs /\ fst kx = fst ky /\ Equal (snd kx) (snd ky) = true).
Proof.
  simpl. rewrite andb_true_iff, !forallb_forall.
  split; intros [H1 H2]; split; intros z Hz.
  - apply H1, existsb_exists in Hz as (w & Hw & E).
    apply andb_true_iff in E as [E1 E2]. apply String.eqb_eq in E1. eauto.
  - apply H2, existsb_exists in Hz as (w & Hw & E).
    apply andb_true_iff in E as [E1 E2]. apply String.eqb_eq in E1. eauto.
  - apply existsb_exists. destruct (H1 z Hz) as (w & Hw & E1 & E2).
    exists w. split; [exact Hw|]. apply andb_true_iff. split; [|exact E2].
    apply String.eqb_eq. exact E1.
  - apply existsb_exists. destruct (H2 z Hz) as (w & Hw & E1 & E2).
    exists w. split; [exact Hw|]. apply andb_true_iff. split; [|exact E2].
    apply String.eqb_eq. exact E1.
Qed.

Lemma Equal_refl : forall v, Equal v v = true.
Proof.
  induction v using Value_nested_ind.
  - simpl. destruct b; reflexivity.
  - simpl. apply Z.eqb_refl.
  - simpl. apply String.eqb_refl.
  - apply Equal_Set. rewrite Forall_forall in H.
    split; intros x Hx; exists x; split; auto; apply H; apply list_elem_of_In; exact Hx.
  - apply Equal_Record. rewrite Forall_forall in H.
    split; intros x Hx; exists x; repeat split; auto; apply H;
      apply list_elem_of_In; exact Hx.
  - simpl. apply EntityUID_eqb_refl.
  - simpl. apply Prefix_eqb_eq. reflexivity.
  - simpl. apply Z.eqb_refl.
Qed.

Lemma Equal_sym : forall a b, Equal a b = true -> Equal b a = true.
Proof.
  induction a using Value_nested_ind; intros [] E; try discriminate E.
  - simpl in *. destruct b, b0; auto.
  - simpl in *. rewrite Z.eqb_sym. exact E.
  - simpl in *. rewrite String.eqb_sym. exact E.
  - rewrite Forall_forall in H.
    apply Equal_Set in E as [E1 E2]. apply Equal_Set. split.
    + intros y Hy. destruct (E2 y Hy) as (x & Hx & E). exists x. split; [exact Hx|].
      apply H; [apply list_elem_of_In; exact Hx|exact E].
    + intros x Hx. destruct (E1 x Hx) as (y & Hy & E). exists y. split; [exact Hy|].
      apply H; [apply list_elem_of_In; exact Hx|exact E].
  - rewrite Forall_forall in H.
    apply Equal_Record in E as [E1 E2]. apply Equal_Record. split.
    + intros y Hy. destruct (E2 y Hy) as (x & Hx & Ek & E). exists x.
      repeat split; [exact Hx|congruence|].
      apply H; [apply list_elem_of_In; exact Hx|exact E].
    + intros x Hx. destruct (E1 x Hx) as (y & Hy & Ek & E). exists y.
      repeat split; [exact Hy|congruence|].
      apply H; [apply list_elem_of_In; exact Hx|exact E].
  - simpl in *. apply EntityUID_eqb_eq in E. subst. apply EntityUID_eqb_refl.
  - simpl in *. apply Prefix_eqb_eq in E. subst. apply Prefix_eqb_eq. reflexivity.
  - simpl in *. rewrite Z.eqb_sym. exact E.
Qed.

Lemma Equal_trans : forall a b c,
  Equal a b = true -> Equal b c = true -> Equal a c = true.
Proof.
  induction a using Value_nested_ind; intros [] [] E1 E2;
    try discriminate E1; try discriminate E2.
  - simpl in *. destruct b, b0, b1; auto.
  - simpl in *. apply Z.eqb_eq in E1, E2. apply Z.eqb_eq. congruence.
  - simpl in *. apply String.eqb_eq in E1, E2. apply String.eqb_eq. congruence.
  - rewrite Forall_forall in H.
    apply Equal_Set in E1 as [A1 A2]. apply Equal_Set in E2 as [B1 B2].
    apply Equal_Set. split.
    + intros x Hx. destruct (A1 x Hx) as (y & Hy & Exy).
      destruct (B1 y Hy) as (z & Hz & Eyz). exists z. split; [exact Hz|].
      apply (H x) with (b := y); [apply list_elem_of_In; exact Hx|assumption..].
    + intros z Hz. destruct (B2 z Hz) as (y & Hy & Eyz).
      destruct (A2 y Hy) as (x & Hx & Exy). exists x. split; [exact Hx|].
      apply (H x) with (b := y); [apply list_elem_of_In; exact Hx|assumption..].
  - rewrite Forall_forall in H.
    apply Equal_Record in E1 as [A1 A2]. apply Equal_Record in E2 as [B1 B2].
    apply Equal_Record. split.
    + intros x Hx. destruct (A1 x Hx) as (y & Hy & Kxy & Exy).
      destruct (B1 y Hy) as (z & Hz & Kyz & Eyz). exists z.
      repeat split; [exact Hz|congruence|].
      apply (H x) with (b := snd y); [apply list_elem_of_In; exact Hx|assumption..].
    + intros z Hz. destruct (B2 z Hz) as (y & Hy & Kyz & Eyz).
      destruct (A2 y Hy) as (x & Hx & Kxy & Exy). exists x.
      repeat split; [exact Hx|congruence|].
      apply (H x) with (b := snd y); [apply list_elem_of_In; exact Hx|assumption..].
  - simpl in *. apply EntityUID_eqb_eq in E1, E2. subst. apply EntityUID_eqb_refl.
  - simpl in *. apply Prefix_eqb_eq in E1, E2. subst. apply Prefix_eqb_eq. reflexivity.
  - simpl in *. apply Z.eqb_eq in E1, E2. apply Z.eqb_eq. congruence.
Qed.

(** What [absorb] keeps is taken from what it has seen and what it is given. *)
Lemma absorb_In v : forall seen x,
  In x (absorb seen v) -> In x seen \/ In x v.
Proof.
  induction v as [|y rest IH]; intros seen x Hx; simpl in *; [auto|].
  destruct (Contains seen y).
  - apply IH in Hx. tauto.
  - apply IH in Hx. rewrite in_app_iff in Hx. simpl in Hx. tauto.
Qed.

Lemma absorb_seen v : forall seen x, In x seen -> In x (absorb seen v).
Proof.
  induction v as [|y rest IH]; intros seen x Hx; simpl; [exact Hx|].
  destruct (Contains seen y); apply IH; [exact Hx|].
  apply in_app_iff. auto.
Qed.

(** Every element given is kept, up to [Equal]. *)
Lemma absorb_Contains v : forall seen x,
  In x v -> Contains (absorb seen v) x = true.
Proof.
  induction v as [|y rest IH]; intros seen x Hx; simpl in *; [destruct Hx|].
  destruct Hx as [->|Hx].
  - destruct (Contains seen x) eqn:E.
    + apply Contains_true in E as (w & Hw & Ew). apply Contains_true.
      exists w. split; [apply absorb_seen; exact Hw|exact Ew].
    + apply Contains_true. exists x. split; [|apply Equal_refl].
      apply absorb_seen. apply in_app_iff. simpl. auto.
  - destruct (Contains seen y); apply IH; exact Hx.
Qed.

Lemma distinct_app_one seen x :
  distinct seen = true -> Contains seen x = false -> distinct (seen ++ [x]) = true.
Proof.
  induction seen as [|y rest IH]; intros Hd Hc; simpl in *; [reflexivity|].
  apply andb_true_iff in Hd as [Hy Hd]. apply orb_false_iff in Hc as [Hyx Hc].
  apply andb_true_iff. split; [|apply IH; assumption].
  rewrite existsb_app. simpl. rewrite Hyx. simpl.
  rewrite ?orb_false_r. exact Hy.
Qed.

Lemma absorb_distinct v : forall seen,
  distinct seen = true -> distinct (absorb seen v) = true.
Proof.
  induction v as [|y rest IH]; intros seen Hd; simpl; [exact Hd|].
  destruct (Contains seen y) eqn:E; apply IH; [exact Hd|].
  apply distinct_app_one; assumption.
Qed.

(** Two constructed sets are equal exactly when each of the two sequences
    given contains, up to [Equal], every element of the other. *)
Lemma NewSet_Equal xs ys :
  Equal (NewSet xs) (NewSet ys)
  = forallb (Contains ys) xs && forallb (Contains xs) ys.
Proof.
  assert (Hhalf : forall us vs,
             (forall x, In x (absorb [] us) ->
                exists y, In y (absorb [] vs) /\ Equal x y = true)
             <-> forallb (Contains vs) us = true).
  { intros us vs. rewrite forallb_forall. split.
    - intros Hc x Hx.
      pose proof (absorb_Contains us [] x Hx) as Hk.
      apply Contains_true in Hk as (d & Hd & Edx).
      destruct (Hc d Hd) as (e & He & Ede).
      apply Contains_true. exists e. split.
      + apply absorb_In in He as [[]|He]. exact He.
      + apply Equal_trans with (b := d); [apply Equal_sym; exact Ede|exact Edx].
    - intros Hc d Hd. apply absorb_In in Hd as [[]|Hd].
      specialize (Hc d Hd). apply Contains_true in Hc as (y & Hy & Eyd).
      pose proof (absorb_Contains vs [] y Hy) as Hk.
      apply Contains_true in Hk as (e & He & Eey).
      exists e. split; [exact He|].
      apply Equal_sym. apply Equal_trans with (b := y); assumption. }
  apply eq_true_iff_eq. unfold NewSet. rewrite Equal_Set, andb_true_iff.
  rewrite <- !Hhalf. split; intros [H1 H2]; split; try exact H1.
  - intros y Hy. destruct (H2 y Hy) as (x & Hx & E). exists x. split; [exact Hx|].
    apply Equal_sym. exact E.
  - intros y Hy. destruct (H2 y Hy) as (x & Hx & E). exists x. split; [exact Hx|].
    apply Equal_sym. exact E.
Qed.

End SetValue.

Section SetClaims.
Import types.

Lemma assign_other h a i x h1 b :
  assign h a i x = Some h1 -> b <> a -> h1 !! b = h !! b.
Proof.
  unfold assign. destruct (_ <? _)%nat; [|discriminate].
  intros E Hne. inversion E; subst. apply lookup_insert_ne. congruence.
Qed.

Lemma assign_all_other a ws : forall h h2 b,
  assign_all h a ws = Some h2 -> b <> a -> h2 !! b = h !! b.
Proof.
  induction ws as [|[i x] rest IH]; intros h h2 b E Hne; simpl in E.
  - inversion E. reflexivity.
  - destruct (assign h a i x) as [h1|] eqn:E1; [|discriminate].
    rewrite (IH _ _ _ E Hne). eapply assign_other; eassumption.
Qed.

Lemma assign_all_empty a ws : forall h h2,
  elements_at h a = [] -> assign_all h a ws = Some h2 -> h2 = h.
Proof.
  destruct ws as [|[i x] rest]; intros h h2 Hnil E; simpl in E.
  - inversion E. reflexivity.
  - unfold assign in E. rewrite Hnil in E. simpl in E. discriminate.
Qed.

Lemma NewSetAt_fresh (h : store) v : h !! s (fst (NewSetAt h v)) = None.
Proof. simpl. apply not_elem_of_dom. apply is_fresh. Qed.

End SetClaims.

(** C4. Equality of sets ignores order and multiplicity, and construction
    absorbs duplicates: [NewSet [a;b;c]] equals [NewSet [c;b;a;b]], and
    [NewSet [a;a]] has length 1, for all values; in general two constructed
    sets are equal exactly when each of the two sequences given contains
    every element of the other, and no two elements of a constructed set
    are equal.  The same holds of sets of sets. *)
Theorem NewSet_semantics (a b c : types.Value) (xs ys : list types.Value) :
  types.Equal (types.NewSet [a; b; c]) (types.NewSet [c; b; a; b]) = true
  /\ types.Len (types.NewSet [a; a]) = 1
  /\ types.Equal (types.NewSet xs) (types.NewSet ys)
     = forallb (types.Contains ys) xs && forallb (types.Contains xs) ys
  /\ types.distinct (types.Slice (types.NewSet xs)) = true
  /\ types.Equal
       (types.NewSet [types.NewSet [a; b]; c])
       (types.NewSet [c; types.NewSet [b; a; a]; c; types.NewSet [a; b]]) = true.
Proof.
  assert (Hin : types.Equal (types.NewSet [a; b]) (types.NewSet [b; a; a]) = true).
  { rewrite NewSet_Equal. unfold types.Contains. simpl.
    rewrite !Equal_refl, ?orb_true_r. reflexivity. }
  split; [|split; [|split; [|split]]].
  - rewrite NewSet_Equal. unfold types.Contains. simpl.
    rewrite !Equal_refl, ?orb_true_r. reflexivity.
  - unfold types.Len, types.NewSet. simpl. unfold types.Contains. simpl.
    rewrite Equal_refl. reflexivity.
  - apply NewSet_Equal.
  - unfold types.NewSet. simpl. apply absorb_distinct. reflexivity.
  - rewrite NewSet_Equal. unfold types.Contains.
    cbn [forallb existsb].
    rewrite !Equal_refl, (Equal_sym _ _ Hin), Hin, ?orb_true_r. reflexivity.
Qed.

(** C8. [NewSet] copies what it is given: after [set := NewSet(s)], no
    sequence of assignments to the elements of [s] changes the length or
    the elements of [set]. *)
Theorem NewSet_defensive_copy (h : types.store) (v : types.address)
  (ws : list (nat * types.Value)) (h2 : types.store) :
  let set := fst (types.NewSetAt h v) in
  let h1 := snd (types.NewSetAt h v) in
  types.assign_all h1 v ws = Some h2 ->
  types.value_at h1 set = types.NewSet (types.elements_at h v)
  /\ types.LenAt h2 set = types.LenAt h1 set
  /\ types.IterateAt h2 set = types.IterateAt h1 set
  /\ types.value_at h2 set = types.NewSet (types.elements_at h v).
Proof.
  intros set h1 E.
  assert (H1 : h1 !! types.s set = Some (types.absorb [] (types.elements_at h v))).
  { subst set h1. simpl. apply lookup_insert_eq. }
  assert (H2 : h2 !! types.s set = h1 !! types.s set).
  { destruct (decide (types.s set = v)) as [Heq|Hne].
    - (* only a nil slice can have the address that the set gets *)
      assert (Hnil : types.elements_at h v = []).
      { unfold types.elements_at. rewrite <- Heq.
        subst set. rewrite NewSetAt_fresh. reflexivity. }
      rewrite (assign_all_empty v ws h1 h2); [reflexivity| |exact E].
      unfold types.elements_at. rewrite <- Heq, H1, Hnil. reflexivity.
    - eapply assign_all_other; eassumption. }
  unfold types.value_at, types.LenAt, types.IterateAt, types.elements_at.
  rewrite H2, H1. simpl. auto.
Qed.

(** The scenario of [TestSet/immutable]: the slice holds 42, the set is
    made, 1337 is written through the pointer into the slice; the set still
    has length 1 and holds 42. *)
Lemma NewSet_defensive_copy_witness :
  let h : types.store := {[ 0 := [types.Long 42] ]} in
  let set := fst (types.NewSetAt h 0) in
  let h1 := snd (types.NewSetAt h 0) in
  let h2 : types.store := <[0 := [types.Long 1337]]> h1 in
  types.assign_all h1 0 [(0, types.Long 1337)] = Some h2
  /\ types.elements_at h2 0 = [types.Long 1337]
  /\ (types.value_at h1 set = types.NewSet [types.Long 42]
      /\ types.LenAt h2 set = types.LenAt h1 set
      /\ types.IterateAt h2 set = types.IterateAt h1 set
      /\ types.value_at h2 set = types.NewSet [types.Long 42])
  /\ types.LenAt h2 set = 1
  /\ types.IterateAt h2 set = [types.Long 42].
Proof.
  intros h set h1 h2.
  assert (E : types.assign_all h1 0 [(0, types.Long 1337)] = Some h2)
    by (vm_compute; reflexivity).
  split; [exact E|]. split; [vm_compute; reflexivity|]. split.
  - exact (NewSet_defensive_copy h 0 [(0, types.Long 1337)] h2 E).
  - split; vm_compute; reflexivity.
Defined.

(** * Properties of the parser *)
Section ParserBounds.
Import ast.

Lemma safe_ret {A} (a : A) : safe (ret a).
Proof. intros p Hp. simpl. auto. Qed.

Lemma safe_out_of_fuel {A} : safe (@out_of_fuel A).
Proof. intros p Hp. exact I. Qed.

Lemma safe_bind {A B} (m : M A) (f : A -> M B) :
  safe m -> (forall a, safe (f a)) -> safe (bind m f).
Proof.
  intros Hm Hf p Hp. unfold bind. specialize (Hm p Hp).
  destruct (m p) as [a p'|e p'| |]; try assumption.
  destruct Hm as [Ht Hb]. specialize (Hf a p' Hb).
  destruct (f a p') as [b p''|e p''| |]; try assumption.
  - destruct Hf as [Ht' Hb']. split; [congruence|assumption].
  - destruct Hf as [Ht' Hb']. split; [congruence|assumption].
Qed.

Lemma safe_lift {A} (r : errmsg + A) : safe (lift r).
Proof. destruct r; intros p Hp; simpl; auto. Qed.

Lemma safe_peek : safe peek.
Proof.
  intros p Hp. unfold peek.
  destruct (tokens p !! pos p) eqn:E; [auto|].
  apply lookup_ge_None in E. unfold in_bounds in Hp. lia.
Qed.

Lemma safe_advance : safe advance.
Proof.
  unfold advance. apply safe_bind; [apply safe_peek|].
  intros t p Hp. unfold in_bounds in *.
  destruct (Z.ltb_spec (Z.of_nat (pos p)) (Z.of_nat (length (tokens p)) - 1));
    simpl; split; auto; lia.
Qed.

Lemma safe_errorf {A} (message : string) : safe (@errorf A message).
Proof.
  intros p Hp. unfold errorf.
  destruct (Nat.ltb_spec (pos p) (length (tokens p))) as [Hlt|Hge]; [|simpl; auto].
  destruct (tokens p !! pos p) eqn:E; [auto|].
  apply lookup_ge_None in E. lia.
Qed.

Lemma safe_exact (tok : string) : safe (exact tok).
Proof.
  unfold exact. apply safe_bind; [apply safe_advance|]. intros t.
  destruct (negb _); [apply safe_errorf|apply safe_ret].
Qed.

End ParserBounds.

Create HintDb safe.
#[local] Hint Resolve safe_ret safe_out_of_fuel safe_lift safe_peek safe_advance
  safe_errorf safe_exact : safe.

(** One step of a safety proof: split a sequence, decide a branch, or close
    the goal with what is known to be safe. *)
Ltac safe_step :=
  first
    [ assumption
    | solve [auto with safe]
    | apply safe_bind; [|intro]
    | match goal with
      | |- ast.safe (if ?b then _ else _) => destruct b
      | |- ast.safe (match ?x with _ => _ end) => destruct x
      end ].

Ltac safe_auto := repeat safe_step.

Section ParserSafe.
Import types ast.
Context `{GoLib}.

Lemma safe_annotation a : safe (annotation a).
Proof. unfold annotation. safe_auto. Qed.

Lemma safe_annotations fuel : forall res, safe (annotations fuel res).
Proof.
  induction fuel as [|fuel IH]; intros res; simpl; [auto with safe|].
  pose proof safe_annotation. safe_auto.
Qed.

Lemma safe_effect a : safe (effect a).
Proof. unfold effect. safe_auto. Qed.

Lemma safe_entityFirstPathPreread fuel firstPath :
  safe (entityFirstPathPreread fuel firstPath).
Proof.
  unfold entityFirstPathPreread. generalize (mkEntityUID firstPath "").
  induction fuel as [|fuel IH]; intros res; simpl; safe_auto.
Qed.

Lemma safe_entity fuel : safe (entity fuel).
Proof. unfold entity. pose proof safe_entityFirstPathPreread. safe_auto. Qed.

Lemma safe_path fuel : safe (path fuel).
Proof.
  unfold path.
  assert (Hl : forall res, safe (path_loop fuel res)).
  { induction fuel as [|fuel IH]; intros res; simpl; safe_auto. }
  safe_auto.
Qed.

Lemma safe_principal fuel policy : safe (principal fuel policy).
Proof.
  unfold principal. pose proof safe_entity. pose proof safe_path. safe_auto.
Qed.

Lemma safe_entlist fuel : forall res, safe (entlist fuel res).
Proof.
  pose proof safe_entity.
  induction fuel as [|fuel IH]; intros res; simpl; safe_auto.
Qed.

Lemma safe_action fuel policy : safe (action fuel policy).
Proof.
  unfold action. pose proof safe_entity. pose proof safe_entlist. safe_auto.
Qed.

Lemma safe_resource fuel policy : safe (resource fuel policy).
Proof.
  unfold resource. pose proof safe_entity. pose proof safe_path. safe_auto.
Qed.

Lemma safe_entityOrExtFun fuel ident : safe (entityOrExtFun fuel ident).
Proof.
  unfold entityOrExtFun. pose proof safe_entityFirstPathPreread. safe_auto.
Qed.

Lemma safe_expressions fuel : expressions_safe fuel.
Proof.
  pose proof safe_path. pose proof safe_entityOrExtFun.
  induction fuel as [|fuel IH].
  - unfold expressions_safe. repeat split; intros; simpl; auto with safe.
  - destruct IH as (? & ? & ? & ? & ? & ? & ? & ? & ? & ? & ? & ? & ? & ?).
    unfold expressions_safe. repeat split; intros; simpl; safe_auto.
Qed.

Lemma safe_expression fuel : safe (expression fuel).
Proof. apply safe_expressions. Qed.

Lemma safe_condition fuel : safe (condition fuel).
Proof. unfold condition. pose proof safe_expression. safe_auto. Qed.

Lemma safe_conditions : forall n policy, safe (conditions n policy).
Proof.
  pose proof safe_condition.
  induction n as [|n IH]; intros policy; simpl; safe_auto.
Qed.

Lemma safe_policyFromCedar fuel : safe (policyFromCedar fuel).
Proof.
  unfold policyFromCedar.
  pose proof safe_annotations. pose proof safe_effect. pose proof safe_principal.
  pose proof safe_action. pose proof safe_resource. pose proof safe_conditions.
  safe_auto.
Qed.

End ParserSafe.

(** ** Fuel: more of it changes no result *)
Section ParserFuel.
Import ast.

Lemma extends_refl {A} (m : M A) : extends m m.
Proof. intros p _. reflexivity. Qed.

Lemma extends_out_of_fuel {A} (m : M A) : extends out_of_fuel m.
Proof. intros p Hp. exfalso. apply Hp. reflexivity. Qed.

Lemma extends_bind {A B} (m m' : M A) (f f' : A -> M B) :
  extends m m' -> (forall a, extends (f a) (f' a)) ->
  extends (bind m f) (bind m' f').
Proof.
  intros Hm Hf p Hp. unfold bind in *.
  destruct (m p) as [a p1|e p1| |] eqn:E.
  - rewrite (Hm p) by congruence. rewrite E. apply Hf. exact Hp.
  - rewrite (Hm p) by congruence. rewrite E. reflexivity.
  - rewrite (Hm p) by congruence. rewrite E. reflexivity.
  - exfalso. apply Hp. reflexivity.
Qed.

Lemma run_extends {A} (m m' : M A) toks :
  extends m m' -> run m toks <> Unfinished -> run m' toks = run m toks.
Proof.
  intros He Hr. unfold run in *. rewrite He; [reflexivity|].
  intros E. rewrite E in Hr. apply Hr. reflexivity.
Qed.

End ParserFuel.

Create HintDb fuel.
#[local] Hint Resolve extends_refl extends_out_of_fuel : fuel.

Ltac fuel_step :=
  first
    [ assumption
    | solve [auto with fuel]
    | apply extends_bind; [|intro]
    | match goal with
      | |- ast.extends (if ?b then _ else _) (if ?b then _ else _) => destruct b
      | |- ast.extends (match ?x with _ => _ end) (match ?x with _ => _ end) =>
          destruct x
      | H : forall a b, a <= b -> _ |- ast.extends (?f ?a _) (?f ?b _) =>
          apply H; lia
      | H : forall a b, a <= b -> _ |- ast.extends (?f ?a) (?f ?b) =>
          apply H; lia
      | H : forall a b, a <= b -> _ |- ast.extends (?f ?a _ _) (?f ?b _ _) =>
          apply H; lia
      end ].

Ltac fuel_auto := repeat fuel_step.

Section ParserFuelMethods.
Import types ast.
Context `{GoLib}.

Lemma extends_annotations : forall a b, a <= b ->
  forall res, extends (annotations a res) (annotations b res).
Proof.
  induction a as [|a IH]; intros b Hab res; [apply extends_out_of_fuel|].
  destruct b as [|b]; [lia|]. simpl.
  assert (Hr : forall res, extends (annotations a res) (annotations b res))
    by (apply IH; lia).
  fuel_auto.
Qed.

Lemma extends_entityFirstPathPreread_loop : forall a b, a <= b ->
  forall res, extends (entityFirstPathPreread_loop a res)
                      (entityFirstPathPreread_loop b res).
Proof.
  induction a as [|a IH]; intros b Hab res; [apply extends_out_of_fuel|].
  destruct b as [|b]; [lia|]. simpl.
  assert (Hr : forall res, extends (entityFirstPathPreread_loop a res)
                                   (entityFirstPathPreread_loop b res))
    by (apply IH; lia).
  fuel_auto.
Qed.

Lemma extends_entityFirstPathPreread : forall a b, a <= b ->
  forall firstPath,
    extends (entityFirstPathPreread a firstPath) (entityFirstPathPreread b firstPath).
Proof.
  intros a b Hab firstPath. unfold entityFirstPathPreread.
  apply extends_entityFirstPathPreread_loop. exact Hab.
Qed.

Lemma extends_entity : forall a b, a <= b -> extends (entity a) (entity b).
Proof.
  intros a b Hab. unfold entity.
  pose proof (extends_entityFirstPathPreread a b Hab). fuel_auto.
Qed.

Lemma extends_path_loop : forall a b, a <= b ->
  forall res, extends (path_loop a res) (path_loop b res).
Proof.
  induction a as [|a IH]; intros b Hab res; [apply extends_out_of_fuel|].
  destruct b as [|b]; [lia|]. simpl.
  assert (Hr : forall res, extends (path_loop a res) (path_loop b res))
    by (apply IH; lia).
  fuel_auto.
Qed.

Lemma extends_path : forall a b, a <= b -> extends (path a) (path b).
Proof.
  intros a b Hab. unfold path. pose proof (extends_path_loop a b Hab). fuel_auto.
Qed.

Lemma extends_principal : forall a b, a <= b ->
  forall policy, extends (principal a policy) (principal b policy).
Proof.
  intros a b Hab policy. unfold principal.
  pose proof (extends_entity a b Hab). pose proof (extends_path a b Hab).
  fuel_auto.
Qed.

Lemma extends_entlist : forall a b, a <= b ->
  forall res, extends (entlist a res) (entlist b res).
Proof.
  induction a as [|a IH]; intros b Hab res; [apply extends_out_of_fuel|].
  destruct b as [|b]; [lia|]. simpl.
  assert (Hr : forall res, extends (entlist a res) (entlist b res))
    by (apply IH; lia).
  pose proof (extends_entity (S a) (S b) Hab). fuel_auto.
Qed.

Lemma extends_action : forall a b, a <= b ->
  forall policy, extends (action a policy) (action b policy).
Proof.
  intros a b Hab policy. unfold action.
  pose proof (extends_entity a b Hab). pose proof (extends_entlist a b Hab).
  fuel_auto.
Qed.

Lemma extends_resource : forall a b, a <= b ->
  forall policy, extends (resource a policy) (resource b policy).
Proof.
  intros a b Hab policy. unfold resource.
  pose proof (extends_entity a b Hab). pose proof (extends_path a b Hab).
  fuel_auto.
Qed.

Lemma extends_entityOrExtFun : forall a b, a <= b ->
  forall ident, extends (entityOrExtFun a ident) (entityOrExtFun b ident).
Proof.
  intros a b Hab ident. unfold entityOrExtFun.
  pose proof (extends_entityFirstPathPreread a b Hab). fuel_auto.
Qed.

Lemma extends_expressions : forall a b, a <= b -> expressions_extend a b.
Proof.
  induction a as [|a IH]; intros b Hab.
  - unfold expressions_extend. repeat split; intros; apply extends_out_of_fuel.
  - destruct b as [|b]; [lia|].
    destruct (IH b ltac:(lia)) as (? & ? & ? & ? & ? & ? & ? & ? & ? & ? & ? & ? & ? & ?).
    pose proof (extends_path a b ltac:(lia)).
    pose proof (extends_entityOrExtFun a b ltac:(lia)).
    unfold expressions_extend. repeat split; intros; simpl; fuel_auto.
Qed.

Lemma extends_expression : forall a b, a <= b ->
  extends (expression a) (expression b).
Proof. intros a b Hab. apply extends_expressions. exact Hab. Qed.

Lemma extends_condition : forall a b, a <= b ->
  extends (condition a) (condition b).
Proof.
  intros a b Hab. unfold condition. pose proof (extends_expression a b Hab).
  fuel_auto.
Qed.

Lemma extends_conditions : forall a b, a <= b ->
  forall policy, extends (conditions a policy) (conditions b policy).
Proof.
  induction a as [|a IH]; intros b Hab policy; [apply extends_out_of_fuel|].
  destruct b as [|b]; [lia|]. simpl.
  assert (Hr : forall policy, extends (conditions a policy) (conditions b policy))
    by (apply IH; lia).
  pose proof (extends_condition (S a) (S b) Hab). fuel_auto.
Qed.

Lemma extends_policyFromCedar : forall a b, a <= b ->
  extends (policyFromCedar a) (policyFromCedar b).
Proof.
  intros a b Hab. unfold policyFromCedar.
  pose proof (extends_annotations a b Hab).
  pose proof (extends_principal a b Hab).
  pose proof (extends_action a b Hab).
  pose proof (extends_resource a b Hab).
  pose proof (extends_conditions a b Hab).
  fuel_auto.
Qed.

End ParserFuelMethods.

(** ** The Go library: only its results matter *)
Section ParserLibrary.
Import ast.

Lemma agree_refl {A} (m : M A) : agree m m.
Proof. intros p. reflexivity. Qed.

Lemma agree_bind {A B} (m m' : M A) (f f' : A -> M B) :
  agree m m' -> (forall a, agree (f a) (f' a)) -> agree (bind m f) (bind m' f').
Proof.
  intros Hm Hf p. unfold bind. rewrite (Hm p).
  destruct (m' p); try reflexivity. apply Hf.
Qed.

Lemma run_agree {A} (m m' : M A) toks : agree m m' -> run m toks = run m' toks.
Proof. intros Ha. unfold run. rewrite Ha. reflexivity. Qed.

End ParserLibrary.

Ltac library_step :=
  first
    [ match goal with
      | |- ast.agree ?m ?m' => constr_eq m m'; apply agree_refl
      | H : ast.agree ?m ?m' |- ast.agree ?m ?m' => exact H
      | H : forall x, ast.agree _ _ |- ast.agree (_ _ ?x) (_ _ ?x) => exact (H x)
      | H : forall x y, ast.agree _ _ |- ast.agree (_ _ ?x ?y) (_ _ ?x ?y) =>
          exact (H x y)
      end
    | apply agree_bind; [|intro]
    | match goal with
      | |- ast.agree (if ?b then _ else _) (if ?b then _ else _) => destruct b
      | |- ast.agree (match ?x with _ => _ end) (match ?x with _ => _ end) =>
          destruct x
      end ].

Ltac library_auto := repeat library_step.

Section ParserLibraryMethods.
Import types ast.
Variables (pa pa' : string -> errmsg + Addr) (F : Type).
Variables (pf pf' : string -> errmsg + F) (fi fi' : F -> Z).
Hypothesis Hpa : forall s, pa s = pa' s.
Hypothesis Hpf : forall s, pf s = pf' s.
Hypothesis Hfi : forall x, fi x = fi' x.
Let G := Build_GoLib F pa pf fi.
Let G' := Build_GoLib F pa' pf' fi'.

Lemma agree_entityOrExtFun fuel ident :
  agree (@entityOrExtFun G fuel ident) (@entityOrExtFun G' fuel ident).
Proof using Hpa Hpf Hfi.
  unfold entityOrExtFun.
  assert (Hp : forall s, @ParsePrefix G s = @ParsePrefix G' s).
  { intros s. unfold ParsePrefix. simpl. destruct (LastIndexByte s _); [|reflexivity].
    rewrite Hpa. reflexivity. }
  destruct (_ || _); [|apply agree_refl].
  apply agree_bind; [apply agree_refl|intro].
  apply agree_bind; [apply agree_refl|intro].
  destruct (negb _); [apply agree_refl|].
  apply agree_bind; [apply agree_refl|intro].
  apply agree_bind; [apply agree_refl|intro].
  destruct (String.eqb ident "ip").
  - rewrite Hp. apply agree_refl.
  - simpl. rewrite Hpf. apply agree_bind; [apply agree_refl|intro].
    rewrite Hfi. apply agree_refl.
Qed.

Lemma agree_expressions fuel : expressions_agree G G' fuel.
Proof using Hpa Hpf Hfi.
  pose proof agree_entityOrExtFun.
  induction fuel as [|fuel IH].
  - unfold expressions_agree.
    repeat match goal with |- _ /\ _ => split end; intros; apply agree_refl.
  - destruct IH as (? & ? & ? & ? & ? & ? & ? & ? & ? & ? & ? & ? & ? & ?).
    unfold expressions_agree.
    repeat match goal with |- _ /\ _ => split end; intros; simpl; library_auto.
Qed.

Lemma agree_policyFromCedar fuel :
  agree (@policyFromCedar G fuel) (@policyFromCedar G' fuel).
Proof using Hpa Hpf Hfi.
  assert (He : forall n, agree (@expression G n) (@expression G' n))
    by (intros n; apply agree_expressions).
  assert (Hc : forall n, agree (@condition G n) (@condition G' n)).
  { intros n. unfold condition. library_auto. }
  assert (Hcs : forall n policy,
             agree (@conditions G n policy) (@conditions G' n policy)).
  { induction n as [|n IH]; intros policy; simpl; [apply agree_refl|].
    library_auto. }
  unfold policyFromCedar. library_auto.
Qed.

End ParserLibraryMethods.

(** ** Properties that pass from the primitives to every method

    Every method of the parser is made of [peek], [advance], [errorf] and
    returned Go errors, put in sequence and under case distinctions; a
    property of methods that these have and that sequencing keeps holds of
    every method. *)
Section Every.
Import types ast.
Context `{GoLib}.
Variable I : forall A, M A -> Prop.
Hypothesis I_ret : forall A (a : A), I A (ret a).
Hypothesis I_bind : forall A B (m : M A) (f : A -> M B),
  I A m -> (forall a, I B (f a)) -> I B (bind m f).
Hypothesis I_out_of_fuel : forall A, I A out_of_fuel.
Hypothesis I_errorf : forall A (message : string), I A (errorf message).
Hypothesis I_lift : forall A (r : errmsg + A), I A (lift r).
Hypothesis I_peek : I _ peek.
Hypothesis I_advance : I _ advance.

Ltac every_step :=
  first
    [ assumption
    | match goal with
      | |- I _ (bind _ _) => apply I_bind; [|intro]
      | |- I _ (ret _) => apply I_ret
      | |- I _ out_of_fuel => apply I_out_of_fuel
      | |- I _ (errorf _) => apply I_errorf
      | |- I _ (lift _) => apply I_lift
      | |- I _ peek => apply I_peek
      | |- I _ advance => apply I_advance
      | |- I _ (if ?b then _ else _) => destruct b
      | |- I _ (match ?x with _ => _ end) => destruct x
      end
    | solve [auto 1] ].

Ltac every_auto := repeat every_step.

Lemma every_exact tok : I _ (exact tok).
Proof using All. unfold exact. every_auto. Qed.

Lemma every_annotations fuel : forall res, I _ (annotations fuel res).
Proof using All.
  pose proof every_exact.
  induction fuel as [|fuel IH]; intros res; simpl; [apply I_out_of_fuel|].
  unfold annotation. every_auto.
Qed.

Lemma every_effect a : I _ (effect a).
Proof using All. unfold effect. every_auto. Qed.

Lemma every_entityFirstPathPreread fuel firstPath :
  I _ (entityFirstPathPreread fuel firstPath).
Proof using All.
  pose proof every_exact.
  unfold entityFirstPathPreread. generalize (mkEntityUID firstPath "").
  induction fuel as [|fuel IH]; intros res; simpl; every_auto.
Qed.

Lemma every_entity fuel : I _ (entity fuel).
Proof using All.
  unfold entity. pose proof every_entityFirstPathPreread. every_auto.
Qed.

Lemma every_path fuel : I _ (path fuel).
Proof using All.
  unfold path.
  assert (Hl : forall res, I _ (path_loop fuel res)).
  { induction fuel as [|fuel IH]; intros res; simpl; every_auto. }
  every_auto.
Qed.

Lemma every_principal fuel policy : I _ (principal fuel policy).
Proof using All.
  unfold principal. pose proof every_exact. pose proof (every_entity fuel).
  pose proof (every_path fuel). every_auto.
Qed.

Lemma every_entlist fuel : forall res, I _ (entlist fuel res).
Proof using All.
  pose proof every_exact.
  induction fuel as [|fuel IH]; intros res; simpl; [apply I_out_of_fuel|].
  pose proof (every_entity (S fuel)). every_auto.
Qed.

Lemma every_action fuel policy : I _ (action fuel policy).
Proof using All.
  unfold action. pose proof every_exact. pose proof (every_entity fuel).
  pose proof (every_entlist fuel). every_auto.
Qed.

Lemma every_resource fuel policy : I _ (resource fuel policy).
Proof using All.
  unfold resource. pose proof every_exact. pose proof (every_entity fuel).
  pose proof (every_path fuel). every_auto.
Qed.

Lemma every_entityOrExtFun fuel ident : I _ (entityOrExtFun fuel ident).
Proof using All.
  unfold entityOrExtFun. pose proof every_exact.
  pose proof (every_entityFirstPathPreread fuel). every_auto.
Qed.

Lemma every_expressions fuel : expressions_have I fuel.
Proof using All.
  pose proof every_exact.
  induction fuel as [|fuel IH].
  - unfold expressions_have.
    repeat match goal with |- _ /\ _ => split end; intros; apply I_out_of_fuel.
  - destruct IH as (? & ? & ? & ? & ? & ? & ? & ? & ? & ? & ? & ? & ? & ?).
    pose proof (every_path fuel). pose proof (every_entityOrExtFun fuel).
    unfold expressions_have.
    repeat match goal with |- _ /\ _ => split end; intros; simpl; every_auto.
Qed.

Lemma every_expression fuel : I _ (expression fuel).
Proof using All. apply every_expressions. Qed.

Lemma every_condition fuel : I _ (condition fuel).
Proof using All.
  unfold condition. pose proof every_exact. pose proof (every_expression fuel).
  every_auto.
Qed.

Lemma every_conditions : forall fuel policy, I _ (conditions fuel policy).
Proof using All.
  induction fuel as [|fuel IH]; intros policy; simpl; [apply I_out_of_fuel|].
  pose proof (every_condition (S fuel)). every_auto.
Qed.

Lemma every_policyFromCedar fuel : I _ (policyFromCedar fuel).
Proof using All.
  unfold policyFromCedar. pose proof every_exact.
  pose proof (every_annotations fuel). pose proof every_effect.
  pose proof (every_principal fuel). pose proof (every_action fuel).
  pose proof (every_resource fuel). pose proof every_conditions.
  every_auto.
Qed.

End Every.

(** ** The parser goes forwards and cites its tokens *)
Section Orderly.
Import ast.

Lemma orderly_ret A (a : A) : orderly (ret a).
Proof. intros p Hp. simpl. auto. Qed.

Lemma orderly_out_of_fuel A : orderly (@out_of_fuel A).
Proof. intros p Hp. exact I. Qed.

Lemma orderly_bind A B (m : M A) (f : A -> M B) :
  orderly m -> (forall a, orderly (f a)) -> orderly (bind m f).
Proof.
  intros Hm Hf p Hp. unfold bind. specialize (Hm p Hp).
  destruct (m p) as [a p1|e p1| |]; try assumption.
  destruct Hm as (Ht & Hle & Hb). specialize (Hf a p1 Hb).
  destruct (f a p1) as [b p2|e p2| |]; try assumption.
  - destruct Hf as (Ht' & Hle' & Hb'). repeat split; [congruence|lia|assumption].
  - destruct Hf as (Ht' & Hle' & Hb' & Hc).
    repeat split; [congruence|lia|assumption..].
Qed.

Lemma orderly_lift A (r : errmsg + A) : orderly (lift r).
Proof. destruct r; intros p Hp; simpl; auto. Qed.

Lemma orderly_peek : orderly peek.
Proof.
  intros p Hp. unfold peek.
  destruct (tokens p !! pos p) eqn:E; [auto|].
  apply lookup_ge_None in E. unfold in_bounds in Hp. lia.
Qed.

Lemma orderly_advance : orderly advance.
Proof.
  unfold advance. apply orderly_bind; [apply orderly_peek|].
  intros t p Hp. unfold in_bounds in *.
  destruct (Z.ltb_spec (Z.of_nat (pos p)) (Z.of_nat (length (tokens p)) - 1));
    simpl; repeat split; auto; lia.
Qed.

Lemma orderly_errorf A (message : string) : orderly (@errorf A message).
Proof.
  intros p Hp. unfold errorf.
  destruct (Nat.ltb_spec (pos p) (length (tokens p))) as [Hlt|Hge].
  - destruct (tokens p !! pos p) as [t|] eqn:E.
    + repeat split; auto. simpl. rewrite E. eauto.
    + apply lookup_ge_None in E. lia.
  - unfold in_bounds in Hp. lia.
Qed.

Lemma orderly_policyFromCedar `{GoLib} fuel : orderly (policyFromCedar fuel).
Proof.
  apply (every_policyFromCedar (@orderly)); auto using orderly_ret, orderly_bind,
    orderly_out_of_fuel, orderly_errorf, orderly_lift, orderly_peek, orderly_advance.
Qed.

Lemma orderly_expression `{GoLib} fuel : orderly (expression fuel).
Proof.
  apply (every_expression (@orderly)); auto using orderly_ret, orderly_bind,
    orderly_out_of_fuel, orderly_errorf, orderly_lift, orderly_peek, orderly_advance.
Qed.

End Orderly.

(** X5. No method of the parser goes back or changes its input: from a
    position in bounds, whether [policyFromCedar] or [expression] returns or
    fails, the tokens are the same and the position has not decreased and is
    in bounds. *)
Theorem parser_goes_forwards (G : ast.GoLib) (fuel : nat) (p : ast.parser) :
  ast.in_bounds p ->
  match ast.policyFromCedar fuel p with
  | ast.Return _ p' | ast.Failure _ p' =>
      ast.tokens p' = ast.tokens p
      /\ ast.pos p <= ast.pos p' < length (ast.tokens p)
  | ast.IndexOutOfRange => False
  | ast.OutOfFuel => True
  end
  /\ match ast.expression fuel p with
     | ast.Return _ p' | ast.Failure _ p' =>
         ast.tokens p' = ast.tokens p
         /\ ast.pos p <= ast.pos p' < length (ast.tokens p)
     | ast.IndexOutOfRange => False
     | ast.OutOfFuel => True
     end.
Proof.
  intros Hp. split.
  - pose proof (orderly_policyFromCedar fuel p Hp) as Ho.
    destruct (ast.policyFromCedar fuel p); try exact Ho.
    + destruct Ho as (Ht & Hle & Hb). unfold ast.in_bounds in Hb.
      rewrite Ht in Hb. auto.
    + destruct Ho as (Ht & Hle & Hb & _). unfold ast.in_bounds in Hb.
      rewrite Ht in Hb. auto.
  - pose proof (orderly_expression fuel p Hp) as Ho.
    destruct (ast.expression fuel p); try exact Ho.
    + destruct Ho as (Ht & Hle & Hb). unfold ast.in_bounds in Hb.
      rewrite Ht in Hb. auto.
    + destruct Ho as (Ht & Hle & Hb & _). unfold ast.in_bounds in Hb.
      rewrite Ht in Hb. auto.
Qed.

(** X6. A parse error cites a token of the input: the position and the
    text that [errorf] reports are those of one of the tokens given, never
    those of the zero [Token]. *)
Theorem parse_error_cites_a_token (G : ast.GoLib) (fuel : nat)
  (toks : list ast.Token) (at_ : ast.Position) (text message : string) :
  toks <> [] ->
  ast.run (ast.policyFromCedar fuel) toks
  = ast.Rejected (ast.ParseError at_ text message) ->
  exists i t, toks !! i = Some t /\ ast.Pos t = at_ /\ ast.Text t = text.
Proof.
  intros Hne Hr. unfold ast.run in Hr.
  assert (Hb : ast.in_bounds (ast.newParser toks)).
  { unfold ast.in_bounds. simpl. destruct toks; [congruence|simpl; lia]. }
  pose proof (orderly_policyFromCedar fuel _ Hb) as Ho.
  destruct (ast.policyFromCedar fuel (ast.newParser toks)) as [a p'|e p'| |];
    try discriminate Hr.
  inversion Hr; subst e. destruct Ho as (Ht & _ & _ & t & Hl & Hpos & Htext).
  simpl in Ht. rewrite Ht in Hl. eauto.
Qed.

(** The policy of the test "like no wildcards": the parser stops on [like],
    the token of index 13, without having touched the tokens. *)
Lemma parser_goes_forwards_witness :
  let p := ast.newParser ast.like_no_wildcards in
  ast.in_bounds p
  /\ match @ast.policyFromCedar ast.no_library 40 p with
     | ast.Return _ p' | ast.Failure _ p' =>
         ast.tokens p' = ast.tokens p
         /\ ast.pos p <= ast.pos p' < length (ast.tokens p)
     | ast.IndexOutOfRange => False
     | ast.OutOfFuel => True
     end
  /\ (exists e, @ast.policyFromCedar ast.no_library 40 p
                = ast.Failure e (ast.mkParser ast.like_no_wildcards 13)).
Proof.
  intros p.
  assert (Hb : ast.in_bounds p) by (unfold ast.in_bounds; simpl; lia).
  split; [exact Hb|]. split.
  - exact (proj1 (parser_goes_forwards ast.no_library 40 p Hb)).
  - eexists. vm_compute. reflexivity.
Defined.

(** The error of the test "like no wildcards" cites the token [like]. *)
Lemma parse_error_cites_a_token_witness :
  ast.like_no_wildcards <> []
  /\ ast.run (@ast.policyFromCedar ast.no_library 40) ast.like_no_wildcards
     = ast.Rejected (ast.ParseError (ast.at_ 66 2 28) "like" "unimplemented")
  /\ exists i t, ast.like_no_wildcards !! i = Some t
                 /\ ast.Pos t = ast.at_ 66 2 28 /\ ast.Text t = "like".
Proof.
  assert (Hne : ast.like_no_wildcards <> []) by discriminate.
  assert (Hr : ast.run (@ast.policyFromCedar ast.no_library 40) ast.like_no_wildcards
               = ast.Rejected (ast.ParseError (ast.at_ 66 2 28) "like" "unimplemented"))
    by (vm_compute; reflexivity).
  split; [exact Hne|]. split; [exact Hr|].
  exact (parse_error_cites_a_token ast.no_library 40 _ _ _ _ Hne Hr).
Defined.

(** ** Records have no duplicate keys *)
Section Ensures.
Import ast.

Lemma ensures_ret {A} (Q : A -> Prop) (a : A) : Q a -> ensures Q (ret a).
Proof. intros Ha p b p' E. inversion E; subst. exact Ha. Qed.

Lemma ensures_bind {A B} (Q1 : A -> Prop) (Q : B -> Prop) (m : M A) (f : A -> M B) :
  ensures Q1 m -> (forall a, Q1 a -> ensures Q (f a)) -> ensures Q (bind m f).
Proof.
  intros Hm Hf p b p' E. unfold bind in E.
  destruct (m p) as [a p1|e p1| |] eqn:Em; try discriminate E.
  eapply Hf; [eapply Hm; exact Em|exact E].
Qed.

Lemma ensures_bind_any {A B} (Q : B -> Prop) (m : M A) (f : A -> M B) :
  (forall a, ensures Q (f a)) -> ensures Q (bind m f).
Proof.
  intros Hf. apply ensures_bind with (Q1 := fun _ => True).
  - intros p a p' _. exact I.
  - intros a _. apply Hf.
Qed.

Lemma ensures_errorf {A} (Q : A -> Prop) message : ensures Q (errorf message).
Proof.
  intros p a p' E. unfold errorf in E.
  destruct (_ <? _)%nat; [destruct (tokens p !! pos p)|]; discriminate E.
Qed.

Lemma ensures_out_of_fuel {A} (Q : A -> Prop) : ensures Q out_of_fuel.
Proof. intros p a p' E. discriminate E. Qed.

Lemma distinct_strings_app_one l k :
  distinct_strings l = true -> existsb (String.eqb k) l = false ->
  distinct_strings (l ++ [k]) = true.
Proof.
  induction l as [|x rest IH]; intros Hd Hk; simpl in *; [reflexivity|].
  apply andb_true_iff in Hd as [Hx Hd]. apply orb_false_iff in Hk as [Hkx Hk].
  apply andb_true_iff. split; [|apply IH; assumption].
  rewrite existsb_app. simpl. rewrite String.eqb_sym, Hkx. simpl.
  rewrite orb_false_r. exact Hx.
Qed.

Lemma lookup_string_None {A} k (m : list (string * A)) :
  lookup_string k m = None -> existsb (String.eqb k) (map fst m) = false.
Proof.
  unfold lookup_string. induction m as [|[k' v] rest IH]; simpl; [reflexivity|].
  rewrite (String.eqb_sym k k'). destruct (String.eqb k' k); [discriminate|].
  exact IH.
Qed.

Lemma entries_distinct_add entries kv :
  entries_distinct entries -> lookup_string (fst kv) entries = None ->
  keys_distinct (snd kv) = true -> entries_distinct (entries ++ [kv]).
Proof.
  intros [Hd Hv] Hl Hkv. split.
  - rewrite map_app. simpl. apply distinct_strings_app_one; [exact Hd|].
    apply lookup_string_None. exact Hl.
  - rewrite forallb_app. simpl. rewrite Hv, Hkv. reflexivity.
Qed.

Lemma relation_operators_keep k f :
  lookup_string k relation_operators = Some f -> binary_keeps f.
Proof.
  unfold lookup_string, relation_operators. cbn [List.find fst].
  repeat (destruct (String.eqb _ k);
          [cbn [option_map snd]; intros E; inversion E; intros l r Hl Hr;
           simpl; rewrite Hl, Hr; reflexivity|]).
  discriminate.
Qed.

Lemma add_operators_keep k f :
  lookup_string k add_operators = Some f -> binary_keeps f.
Proof.
  unfold lookup_string, add_operators. cbn [List.find fst].
  repeat (destruct (String.eqb _ k);
          [cbn [option_map snd]; intros E; inversion E; intros l r Hl Hr;
           simpl; rewrite Hl, Hr; reflexivity|]).
  discriminate.
Qed.

Lemma knownMethods_keep k f :
  lookup_string k knownMethods = Some f -> binary_keeps f.
Proof.
  unfold lookup_string, knownMethods. cbn [List.find fst].
  repeat (destruct (String.eqb _ k);
          [cbn [option_map snd]; intros E; inversion E; intros l r Hl Hr;
           simpl; rewrite Hl, Hr; reflexivity|]).
  discriminate.
Qed.

Lemma fold_right_keeps ops : Forall unary_keeps ops ->
  forall res, keys_distinct res = true ->
  keys_distinct (fold_right (fun op res => op res) res ops) = true.
Proof.
  induction 1 as [|op ops Hop _ IH]; intros res Hres; simpl; [exact Hres|].
  apply Hop. apply IH. exact Hres.
Qed.

End Ensures.

Lemma unary_keeps_snoc ops op :
  Forall ast.unary_keeps ops -> ast.unary_keeps op -> Forall ast.unary_keeps (ops ++ [op]).
Proof. intros Ho Hop. apply Forall_app. split; [exact Ho|]. repeat constructor. exact Hop. Qed.

Lemma unary_keeps_Not : ast.unary_keeps ast.Not.
Proof. intros o Ho. exact Ho. Qed.

Lemma unary_keeps_Negate : ast.unary_keeps ast.Negate.
Proof. intros o Ho. exact Ho. Qed.

Lemma forallb_snoc (res : list ast.Node) e :
  forallb ast.keys_distinct res = true -> ast.keys_distinct e = true ->
  forallb ast.keys_distinct (res ++ [e]) = true.
Proof. intros Hr He. rewrite forallb_app. simpl. rewrite Hr, He. reflexivity. Qed.

Lemma entries_distinct_nil : ast.entries_distinct [].
Proof. split; reflexivity. Qed.

Create HintDb keys.
#[local] Hint Resolve unary_keeps_snoc unary_keeps_Not unary_keeps_Negate
  forallb_snoc entries_distinct_add entries_distinct_nil : keys.


Ltac keys_leaf :=
  unfold ast.newExtMethodCallNode; cbv beta in *; cbn [fst snd] in *;
  repeat match goal with
    | H : ast.entries_distinct _ |- _ => destruct H
    | H : forallb _ (_ :: _) = true |- _ =>
        simpl in H; apply andb_true_iff in H; destruct H
    | E : ast.lookup_string _ ast.relation_operators = Some _ |- _ =>
        apply relation_operators_keep in E
    | E : ast.lookup_string _ ast.add_operators = Some _ |- _ =>
        apply add_operators_keep in E
    | E : ast.lookup_string _ ast.knownMethods = Some _ |- _ =>
        apply knownMethods_keep in E
    end;
  first
    [ assumption
    | match goal with
      | H : ast.binary_keeps ?f |- ast.keys_distinct (?f _ _) = true =>
          apply H; assumption
      | |- ast.keys_distinct (fold_right _ _ _) = true =>
          apply fold_right_keeps; assumption
      end
    | simpl;
      repeat match goal with
        | H : ast.keys_distinct _ = true |- _ => rewrite H
        | H : forallb _ _ = true |- _ => rewrite H
        | H : ast.distinct_strings _ = true |- _ => rewrite H
        end; reflexivity ].

Ltac keys_step :=
  first
    [ apply ensures_errorf
    | apply ensures_out_of_fuel
    | match goal with
      | |- ast.ensures _ (ast.ret _) => apply ensures_ret; cbv beta; solve [keys_leaf]
      | |- ast.ensures _ (ast.bind _ _) =>
          first [ eapply ensures_bind; [solve [eauto 2]|intros ? ?]
                | apply ensures_bind_any; intro ]
      | |- ast.ensures _ (match ?x with _ => _ end) => destruct x eqn:?
      end
    | solve [cbv beta in *; cbn [fst snd] in *; eauto 6 with keys] ].

Ltac keys_auto := repeat keys_step.

Section RecordKeys.
Import types ast.
Context `{GoLib}.

Lemma ensures_entityOrExtFun fuel ident :
  ensures (fun n => keys_distinct n = true) (entityOrExtFun fuel ident).
Proof. unfold entityOrExtFun. keys_auto. Qed.

Lemma ensures_expressions fuel : expressions_keys_distinct fuel.
Proof.
  induction fuel as [|fuel IH].
  - unfold expressions_keys_distinct. cbv zeta.
    repeat match goal with |- _ /\ _ => split end; intros; apply ensures_out_of_fuel.
  - unfold expressions_keys_distinct in IH. cbv zeta in IH.
    destruct IH as (? & ? & ? & ? & ? & ? & Hun & ? & Hml & ? & Hes & Hrl & ? & Hac).
    pose proof (ensures_entityOrExtFun fuel).
    unfold expressions_keys_distinct. cbv zeta.
    repeat match goal with |- _ /\ _ => split end; intros; simpl.
    all: keys_auto.
Qed.

End RecordKeys.

Section RecordKeysPolicy.
Import types ast.
Context `{GoLib}.

Lemma ensures_expression fuel :
  ensures (fun n => keys_distinct n = true) (expression fuel).
Proof. apply ensures_expressions. Qed.

Lemma ensures_condition fuel :
  ensures (fun n => keys_distinct n = true) (condition fuel).
Proof. unfold condition. pose proof (ensures_expression fuel). keys_auto. Qed.

Lemma ensures_conditions : forall fuel policy,
  forallb (fun c => keys_distinct (snd c)) (pol_Conditions policy) = true ->
  ensures (fun pol => forallb (fun c => keys_distinct (snd c)) (pol_Conditions pol) = true)
          (conditions fuel policy).
Proof.
  induction fuel as [|fuel IH]; intros policy Hp; simpl; [apply ensures_out_of_fuel|].
  pose proof (ensures_condition (S fuel)) as Hc.
  apply ensures_bind_any; intros t.
  destruct (String.eqb (Text t) "when").
  { apply ensures_bind_any; intros _.
    eapply ensures_bind; [exact Hc|]. intros expr He. apply IH.
    simpl. rewrite forallb_app. simpl. rewrite Hp, He. reflexivity. }
  destruct (String.eqb (Text t) "unless").
  { apply ensures_bind_any; intros _.
    eapply ensures_bind; [exact Hc|]. intros expr He. apply IH.
    simpl. rewrite forallb_app. simpl. rewrite Hp, He. reflexivity. }
  apply ensures_ret. exact Hp.
Qed.

(** The scopes leave the conditions as they are. *)
Ltac scope_auto :=
  repeat first
    [ apply ensures_errorf
    | apply ensures_ret; solve [assumption | reflexivity]
    | apply ensures_bind_any; intro
    | match goal with
      | |- ensures _ (match ?x with _ => _ end) => destruct x
      end ].

Lemma ensures_principal fuel policy :
  pol_Conditions policy = [] ->
  ensures (fun pol => pol_Conditions pol = []) (principal fuel policy).
Proof. intros Hp. unfold principal. scope_auto. Qed.

Lemma ensures_action fuel policy :
  pol_Conditions policy = [] ->
  ensures (fun pol => pol_Conditions pol = []) (action fuel policy).
Proof. intros Hp. unfold action. scope_auto. Qed.

Lemma ensures_resource fuel policy :
  pol_Conditions policy = [] ->
  ensures (fun pol => pol_Conditions pol = []) (resource fuel policy).
Proof. intros Hp. unfold resource. scope_auto. Qed.

Lemma ensures_effect a : ensures (fun pol => pol_Conditions pol = []) (effect a).
Proof. unfold effect. scope_auto. Qed.

Lemma ensures_policyFromCedar fuel :
  ensures (fun pol => forallb (fun c => keys_distinct (snd c)) (pol_Conditions pol) = true)
          (policyFromCedar fuel).
Proof.
  unfold policyFromCedar.
  apply ensures_bind_any; intros a.
  eapply ensures_bind; [apply ensures_effect|]. intros pol0 H0. cbv beta in H0.
  apply ensures_bind_any; intros _.
  eapply ensures_bind; [apply ensures_principal; exact H0|]. intros pol1 H1.
  apply ensures_bind_any; intros _.
  eapply ensures_bind; [apply ensures_action; exact H1|]. intros pol2 H2.
  apply ensures_bind_any; intros _.
  eapply ensures_bind; [apply ensures_resource; exact H2|]. intros pol3 H3.
  apply ensures_bind_any; intros _.
  eapply ensures_bind; [apply ensures_conditions; cbv beta in H3; rewrite H3; reflexivity|].
  intros pol4 H4. apply ensures_bind_any; intros _. apply ensures_ret. exact H4.
Qed.

End RecordKeysPolicy.

(** X7. The parser never returns a record with a key twice: in every
    condition of a policy that [policyFromCedar] returns, and in every node
    that [expression] returns, the keys of each record literal, at any
    depth, are pairwise different. *)
Theorem parsed_records_have_distinct_keys (G : ast.GoLib) (fuel : nat)
  (p p' : ast.parser) (policy : ast.Policy) :
  ast.policyFromCedar fuel p = ast.Return policy p' ->
  forallb (fun c => ast.keys_distinct (snd c)) (ast.pol_Conditions policy) = true
  /\ (forall q q' n, ast.expression fuel q = ast.Return n q' ->
                     ast.keys_distinct n = true).
Proof.
  intros E. split.
  - exact (ensures_policyFromCedar fuel p policy p' E).
  - intros q q' n En. exact (ensures_expression fuel q n q' En).
Qed.

(** A policy with a record in a set in a record is parsed, and the same
    record with the key [k] twice is rejected. *)
Lemma parsed_records_have_distinct_keys_witness :
  exists policy p',
    @ast.policyFromCedar ast.no_library 60 (ast.newParser ast.record_literal)
    = ast.Return policy p'
    /\ ast.pol_Conditions policy
       = [(ast.ConditionWhen,
           ast.Equals
             (ast.RecordNodes
                [("k", ast.Long 42);
                 ("j", ast.SetNodes [ast.RecordNodes [("a", ast.Long 1)]])])
             ast.Context)]
    /\ forallb (fun c => ast.keys_distinct (snd c)) (ast.pol_Conditions policy) = true
    /\ ast.run (@ast.policyFromCedar ast.no_library 60) ast.duplicate_key
       = ast.Rejected (ast.ParseError (ast.at_ 54 1 55) "}" "duplicate key: k").
Proof.
  eexists. eexists.
  assert (E : @ast.policyFromCedar ast.no_library 60 (ast.newParser ast.record_literal)
              = ast.Return
                  (ast.addCondition ast.ConditionWhen
                     (ast.Equals
                        (ast.RecordNodes
                           [("k", ast.Long 42);
                            ("j", ast.SetNodes [ast.RecordNodes [("a", ast.Long 1)]])])
                        ast.Context) (ast.Permit []))
                  (ast.mkParser ast.record_literal 29))
    by (vm_compute; reflexivity).
  split; [exact E|]. split; [reflexivity|]. split.
  - exact (proj1 (parsed_records_have_distinct_keys ast.no_library 60 _ _ _ E)).
  - vm_compute. reflexivity.
Defined.

(** ** Runs of tokens: prefix operators and entity paths *)
Section Runs.
Import types ast.

Lemma peek_at p t : tokens p !! pos p = Some t -> peek p = Return t p.
Proof. intros E. unfold peek. rewrite E. reflexivity. Qed.

Lemma advance_at p t :
  tokens p !! pos p = Some t -> S (pos p) < length (tokens p) ->
  advance p = Return t (skip 1 p).
Proof.
  intros E Hlt. unfold advance, bind. rewrite (peek_at p t E).
  destruct (Z.ltb_spec (Z.of_nat (pos p)) (Z.of_nat (length (tokens p)) - 1)); [|lia].
  unfold skip. repeat f_equal. lia.
Qed.

Lemma advance_last p t :
  tokens p !! pos p = Some t -> S (pos p) = length (tokens p) ->
  advance p = Return t p.
Proof.
  intros E Hlt. unfold advance, bind. rewrite (peek_at p t E).
  destruct (Z.ltb_spec (Z.of_nat (pos p)) (Z.of_nat (length (tokens p)) - 1)); [lia|].
  reflexivity.
Qed.

Lemma reads_head t seg p : reads (t :: seg) p -> tokens p !! pos p = Some t.
Proof.
  intros [Hl _]. specialize (Hl 0 t eq_refl). rewrite Nat.add_0_r in Hl. exact Hl.
Qed.

Lemma reads_tail t seg p : reads (t :: seg) p -> reads seg (skip 1 p).
Proof.
  intros [Hl Hlen]. split; simpl in *.
  - intros i x Hx. replace (pos p + 1 + i) with (pos p + S i) by lia.
    apply Hl. exact Hx.
  - lia.
Qed.

Lemma reads_advance t seg p :
  reads (t :: seg) p -> advance p = Return t (skip 1 p).
Proof.
  intros Hr. apply advance_at; [eapply reads_head; exact Hr|].
  destruct Hr as [_ Hlen]. simpl in Hlen. lia.
Qed.

Lemma reads_peek t seg p : reads (t :: seg) p -> peek p = Return t p.
Proof. intros Hr. apply peek_at. eapply reads_head. exact Hr. Qed.

Lemma skip_skip n m p : skip n (skip m p) = skip (m + n) p.
Proof. unfold skip. simpl. f_equal. lia. Qed.

Lemma skip_0 p : skip 0 p = p.
Proof. unfold skip. destruct p. simpl. f_equal. lia. Qed.

Lemma exact_reads t seg p tok :
  reads (t :: seg) p -> Text t = tok -> exact tok p = Return tt (skip 1 p).
Proof.
  intros Hr Ht. unfold exact, bind. rewrite (reads_advance _ _ _ Hr).
  rewrite Ht, String.eqb_refl. reflexivity.
Qed.

Section WithLibrary.
Context `{GoLib}.

Lemma unary_loop_last p t :
  tokens p !! pos p = Some t -> S (pos p) = length (tokens p) ->
  is_prefix_operator t = true ->
  forall fuel ops, unary_loop fuel ops p = OutOfFuel.
Proof.
  intros E Hlast Hop. induction fuel as [|fuel IH]; intros ops; [reflexivity|].
  simpl. unfold bind. rewrite (peek_at p t E).
  unfold is_prefix_operator in Hop.
  destruct (String.eqb (Text t) "!").
  - rewrite (advance_last p t E Hlast). apply IH.
  - simpl in Hop. rewrite Hop. rewrite (advance_last p t E Hlast). apply IH.
Qed.

Lemma unary_loop_run ts : forall fuel ops p next,
  forallb is_prefix_operator ts = true ->
  is_prefix_operator next = false ->
  reads (ts ++ [next]) p ->
  unary_loop (length ts + S fuel) ops p
  = bind (member fuel)
         (fun res => ret (fold_right (fun op res => op res) res
                            (ops ++ map prefix_operator ts)))
         (skip (length ts) p).
Proof.
  induction ts as [|t ts IH]; intros fuel ops p next Hts Hnext Hr.
  - simpl in *. rewrite skip_0, app_nil_r. unfold bind at 1.
    rewrite (reads_peek _ _ _ Hr).
    unfold is_prefix_operator in Hnext. apply orb_false_iff in Hnext as [-> ->].
    reflexivity.
  - simpl in Hts. apply andb_true_iff in Hts as [Ht Hts].
    change (length (t :: ts) + S fuel) with (S (length ts + S fuel)).
    simpl. unfold bind at 1. rewrite (reads_peek _ _ _ Hr).
    pose proof (reads_advance _ _ _ Hr) as Ha.
    pose proof (reads_tail _ _ _ Hr) as Hr'.
    unfold is_prefix_operator in Ht. unfold prefix_operator at 1.
    destruct (String.eqb (Text t) "!").
    + unfold bind at 1. rewrite Ha.
      rewrite (IH fuel (ops ++ [Not]) (skip 1 p) next Hts Hnext Hr').
      rewrite skip_skip, <- app_assoc. reflexivity.
    + simpl in Ht. rewrite Ht. unfold bind at 1. rewrite Ha.
      rewrite (IH fuel (ops ++ [Negate]) (skip 1 p) next Hts Hnext Hr').
      rewrite skip_skip, <- app_assoc. reflexivity.
Qed.

End WithLibrary.

Lemma entity_loop_run more : forall fuel res p sep id,
  forallb (fun ct => String.eqb (Text (fst ct)) "::" && isIdent (snd ct)) more = true ->
  Text sep = "::" -> isIdent id = false -> isString id = true ->
  reads (flat_map (fun ct => [fst ct; snd ct]) more ++ [sep; id]) p ->
  entityFirstPathPreread_loop (length more + S fuel) res p
  = let p' := skip (2 * length more + 2) p in
    let type := fold_left (fun acc ct => acc +:+ "::" +:+ Text (snd ct)) more
                          (uid_Type res) in
    match stringValue id with
    | inr v => Return (mkEntityUID type v) p'
    | inl e => Failure (ValueError e) p'
    end.
Proof.
  induction more as [|[c t] more IH]; intros fuel res p sep id Hm Hsep Hid Hstr Hr.
  - simpl in *. unfold bind at 1. rewrite (exact_reads _ _ _ _ Hr Hsep).
    pose proof (reads_tail _ _ _ Hr) as Hr1.
    unfold bind at 1. rewrite (reads_advance _ _ _ Hr1). rewrite Hid, Hstr.
    rewrite skip_skip. simpl. unfold bind, lift.
    destruct (stringValue id); reflexivity.
  - simpl in Hm. apply andb_true_iff in Hm as [Hct Hm].
    apply andb_true_iff in Hct as [Hc Ht]. apply String.eqb_eq in Hc.
    change (length ((c, t) :: more) + S fuel) with (S (length more + S fuel)).
    simpl in Hr |- *.
    unfold bind at 1. rewrite (exact_reads _ _ _ _ Hr Hc).
    pose proof (reads_tail _ _ _ Hr) as Hr1.
    unfold bind at 1. rewrite (reads_advance _ _ _ Hr1). rewrite Ht.
    pose proof (reads_tail _ _ _ Hr1) as Hr2.
    rewrite (IH fuel _ _ sep id Hm Hsep Hid Hstr Hr2). cbv zeta.
    rewrite !skip_skip. simpl uid_Type.
    destruct (stringValue id); f_equal; unfold skip; f_equal; simpl; lia.
Qed.

End Runs.

(** X8. A run of prefix operators is applied from the inside out: on
    [k] tokens [!] or [-] followed by a token that is neither, [unary]
    returns what [member] returns behind them, under the [k] operators in
    the order in which they are written, and fails as [member] fails. *)
Theorem unary_applies_prefix_run (G : ast.GoLib) (ts : list ast.Token)
  (next : ast.Token) (fuel : nat) (p : ast.parser) :
  forallb ast.is_prefix_operator ts = true ->
  ast.is_prefix_operator next = false ->
  ast.reads (ts ++ [next]) p ->
  ast.unary (length ts + S fuel) p
  = match ast.member fuel (ast.skip (length ts) p) with
    | ast.Return res p' =>
        ast.Return (fold_right ast.prefix_operator res ts) p'
    | ast.Failure e p' => ast.Failure e p'
    | ast.IndexOutOfRange => ast.IndexOutOfRange
    | ast.OutOfFuel => ast.OutOfFuel
    end.
Proof.
  intros Hts Hnext Hr. unfold ast.unary.
  rewrite (unary_loop_run ts fuel [] p next Hts Hnext Hr). unfold ast.bind.
  destruct (ast.member fuel (ast.skip (length ts) p)); try reflexivity.
  simpl. unfold ast.ret. f_equal. clear.
  induction ts as [|t ts IH]; simpl; [reflexivity|]. rewrite IH. reflexivity.
Qed.

(** The expression of the test "mutliple negate operators". *)
Lemma unary_applies_prefix_run_witness :
  let ts := [ast.op 0 1 1 "!"; ast.op 1 1 2 "-"; ast.op 2 1 3 "-"] in
  let p := ast.newParser ast.expr_multiple_negate in
  forallb ast.is_prefix_operator ts = true
  /\ ast.is_prefix_operator (ast.int 3 1 4 "1") = false
  /\ ast.reads (ts ++ [ast.int 3 1 4 "1"]) p
  /\ @ast.unary ast.no_library (3 + 11) p
     = ast.Return (ast.Not (ast.Negate (ast.Negate (ast.Long 1))))
                  (ast.mkParser ast.expr_multiple_negate 4).
Proof.
  intros ts p.
  assert (H1 : forallb ast.is_prefix_operator ts = true) by reflexivity.
  assert (H2 : ast.is_prefix_operator (ast.int 3 1 4 "1") = false) by reflexivity.
  assert (H3 : ast.reads (ts ++ [ast.int 3 1 4 "1"]) p).
  { split; [|simpl; lia].
    intros [|[|[|[|i]]]] t E; simpl in E; inversion E; subst; reflexivity. }
  split; [exact H1|]. split; [exact H2|]. split; [exact H3|].
  etransitivity;
    [exact (unary_applies_prefix_run ast.no_library ts _ 10 p H1 H2 H3)|].
  reflexivity.
Defined.

(** X9. With [!] or [-] as the last token (a token list without the token
    of the end of the input), [unary] does not return: [advance] stays on
    the last token, so that the loop reads the same operator again and
    again; no amount of fuel lets [unary], or [expression] above it, end. *)
Theorem unary_never_returns_on_last_operator (G : ast.GoLib) (p : ast.parser)
  (t : ast.Token) :
  ast.tokens p !! ast.pos p = Some t ->
  S (ast.pos p) = length (ast.tokens p) ->
  ast.is_prefix_operator t = true ->
  forall fuel,
    ast.unary fuel p = ast.OutOfFuel /\ ast.expression fuel p = ast.OutOfFuel.
Proof.
  intros E Hlast Hop fuel.
  assert (Hu : forall fuel ops, ast.unary_loop fuel ops p = ast.OutOfFuel)
    by (apply (unary_loop_last p t E Hlast Hop)).
  split; [apply Hu|].
  assert (Hm : forall fuel, ast.mult fuel p = ast.OutOfFuel).
  { intros [|n]; [reflexivity|]. simpl. unfold ast.bind. rewrite Hu. reflexivity. }
  assert (Ha : forall fuel, ast.add fuel p = ast.OutOfFuel).
  { intros [|n]; [reflexivity|]. simpl. unfold ast.bind. rewrite Hm. reflexivity. }
  assert (Hr : forall fuel, ast.relation fuel p = ast.OutOfFuel).
  { intros [|n]; [reflexivity|]. simpl. unfold ast.bind. rewrite Ha. reflexivity. }
  assert (Hand : forall fuel, ast.and_ fuel p = ast.OutOfFuel).
  { intros [|n]; [reflexivity|]. simpl. unfold ast.bind. rewrite Hr. reflexivity. }
  assert (Hor : forall fuel, ast.or_ fuel p = ast.OutOfFuel).
  { intros [|n]; [reflexivity|]. simpl. unfold ast.bind. rewrite Hand. reflexivity. }
  destruct fuel as [|n]; [reflexivity|]. simpl. unfold ast.bind at 1.
  rewrite (peek_at p t E).
  assert (Hif : String.eqb (ast.Text t) "if" = false).
  { unfold ast.is_prefix_operator in Hop. apply orb_true_iff in Hop as [Ho|Ho];
      apply String.eqb_eq in Ho; rewrite Ho; reflexivity. }
  rewrite Hif. apply Hor.
Qed.

(** A lone [!]. *)
Lemma unary_never_returns_on_last_operator_witness :
  let p := ast.newParser [ast.op 0 1 1 "!"] in
  ast.tokens p !! ast.pos p = Some (ast.op 0 1 1 "!")
  /\ S (ast.pos p) = length (ast.tokens p)
  /\ ast.is_prefix_operator (ast.op 0 1 1 "!") = true
  /\ forall fuel, @ast.expression ast.no_library fuel p = ast.OutOfFuel.
Proof.
  intros p.
  assert (H1 : ast.tokens p !! ast.pos p = Some (ast.op 0 1 1 "!")) by reflexivity.
  assert (H2 : S (ast.pos p) = length (ast.tokens p)) by reflexivity.
  assert (H3 : ast.is_prefix_operator (ast.op 0 1 1 "!") = true) by reflexivity.
  split; [exact H1|]. split; [exact H2|]. split; [exact H3|].
  intros fuel.
  exact (proj2 (unary_never_returns_on_last_operator ast.no_library p _ H1 H2 H3 fuel)).
Defined.

(** X10. [entity] reads a type path of any length: on an identifier,
    any number of [::] and identifier, then [::] and a string, it returns
    the entity whose type is the identifiers joined by [::] and whose id
    is the value of the string, and stands behind the string; it fails
    (there) when the string has no value. *)
Theorem entity_reads_type_path (first : ast.Token)
  (more : list (ast.Token * ast.Token)) (sep id : ast.Token) (fuel : nat)
  (p : ast.parser) :
  ast.isIdent first = true ->
  forallb (fun ct => String.eqb (ast.Text (fst ct)) "::" && ast.isIdent (snd ct))
          more = true ->
  ast.Text sep = "::" ->
  ast.isString id = true ->
  ast.reads (ast.entity_tokens first more sep id) p ->
  ast.entity (length more + S fuel) p
  = match ast.stringValue id with
    | inr v =>
        ast.Return (types.mkEntityUID (ast.type_path first more) v)
                   (ast.skip (2 * length more + 3) p)
    | inl e => ast.Failure (ast.ValueError e) (ast.skip (2 * length more + 3) p)
    end.
Proof.
  intros Hfirst Hmore Hsep Hstr Hr. unfold ast.entity_tokens in Hr.
  assert (Hid : ast.isIdent id = false).
  { unfold ast.isString in Hstr. unfold ast.isIdent.
    destruct (ast.Type_ id); try discriminate Hstr; reflexivity. }
  unfold ast.entity, ast.bind at 1. rewrite (reads_advance _ _ _ Hr), Hfirst.
  cbn [negb]. unfold ast.entityFirstPathPreread.
  rewrite (entity_loop_run more fuel _ _ sep id Hmore Hsep Hid Hstr
             (reads_tail _ _ _ Hr)).
  cbv zeta. rewrite skip_skip. unfold ast.type_path. simpl types.uid_Type.
  replace (1 + (2 * length more + 2)) with (2 * length more + 3) by lia.
  reflexivity.
Qed.

(** The entity [A::B::C::'x']. *)
Lemma entity_reads_type_path_witness :
  let more := [(ast.op 1 1 2 "::", ast.ident 3 1 4 "B");
               (ast.op 4 1 5 "::", ast.ident 6 1 7 "C")] in
  let p := ast.newParser ast.expr_entity_path in
  ast.isIdent (ast.ident 0 1 1 "A") = true
  /\ ast.reads (ast.entity_tokens (ast.ident 0 1 1 "A") more (ast.op 7 1 8 "::")
                                  (ast.str 9 1 10 "x")) p
  /\ ast.entity (2 + 1) p
     = ast.Return (types.mkEntityUID "A::B::C" "x")
                  (ast.mkParser ast.expr_entity_path 7).
Proof.
  intros more p.
  assert (H1 : ast.isIdent (ast.ident 0 1 1 "A") = true) by reflexivity.
  assert (H2 : forallb (fun ct => String.eqb (ast.Text (fst ct)) "::"
                                  && ast.isIdent (snd ct)) more = true) by reflexivity.
  assert (H3 : ast.Text (ast.op 7 1 8 "::") = "::") by reflexivity.
  assert (H4 : ast.isString (ast.str 9 1 10 "x") = true) by reflexivity.
  assert (H5 : ast.reads (ast.entity_tokens (ast.ident 0 1 1 "A") more
                            (ast.op 7 1 8 "::") (ast.str 9 1 10 "x")) p).
  { split; [|simpl; lia].
    intros [|[|[|[|[|[|[|i]]]]]]] t E; simpl in E; inversion E; subst; reflexivity. }
  split; [exact H1|]. split; [exact H5|].
  etransitivity; [exact (entity_reads_type_path _ more _ _ 0 p H1 H2 H3 H4 H5)|].
  reflexivity.
Defined.

(** ** The parser ends on every closed token list *)
Section Ends.
Import types ast.

Lemma eoflike_facts t :
  eoflike t = true ->
  Text t = "" /\ isIdent t = false /\ isInt t = false /\ isString t = false.
Proof.
  unfold eoflike. rewrite !andb_true_iff, !negb_true_iff, String.eqb_eq. tauto.
Qed.

Lemma closed_last p t :
  closed (tokens p) -> current p = Some t -> S (pos p) = length (tokens p) ->
  eoflike t = true.
Proof.
  intros (l & Hl & He) Hc Hlast. rewrite last_lookup in Hl. unfold current in Hc.
  replace (Nat.pred (length (tokens p))) with (pos p) in Hl by lia. congruence.
Qed.

Lemma remaining_pos p : in_bounds p -> 1 <= remaining p.
Proof. unfold in_bounds, remaining. lia. Qed.

Lemma fine_zero {A} d (s : A -> bool) (m : M A) : fine d s 0 m.
Proof.
  intros p Hb _ Hk. apply remaining_pos in Hb. unfold fuel_rate in Hk. lia.
Qed.

Lemma fine_S {A} d (s : A -> bool) k (m : M A) :
  fine d s k m -> fine (S d) s (S k) m.
Proof. intros Hm p Hb Hc Hk. apply Hm; [assumption..|lia]. Qed.

Lemma fine_weaken {A} d d' (s s' : A -> bool) k (m : M A) :
  fine d' s' k m -> d' <= d -> (forall a, s a = true -> s' a = true) ->
  fine d s k m.
Proof.
  intros Hm Hd Hs p Hb Hc Hk. specialize (Hm p Hb Hc ltac:(lia)).
  destruct (m p) as [a p'| | |]; try exact Hm.
  destruct Hm as (Ht & Hb' & Hp). repeat split; try assumption.
  destruct (s a) eqn:Es; [rewrite (Hs a Es) in Hp; exact Hp|].
  destruct (s' a); lia.
Qed.

Lemma fine_ret {A} d (s : A -> bool) k (a : A) : s a = false -> fine d s k (ret a).
Proof. intros Hs p Hb Hc Hk. simpl. rewrite Hs. auto. Qed.

Lemma fine_errorf {A} d (s : A -> bool) k message : fine d s k (@errorf A message).
Proof.
  intros p Hb Hc Hk. unfold errorf.
  destruct (_ <? _)%nat; [destruct (tokens p !! pos p)|]; exact I.
Qed.

Lemma fine_lift {A} d k (r : errmsg + A) : fine d never k (lift r).
Proof. intros p Hb Hc Hk. destruct r; simpl; auto. Qed.

Lemma fine_bind {A B} d d1 (s1 : A -> bool) (s : B -> bool) k (m : M A)
  (f : A -> M B) :
  fine d1 s1 k m -> d1 <= d ->
  (forall a, s1 a = true -> fine (d + fuel_rate) never k (f a)) ->
  (forall a, s1 a = false -> fine d s k (f a)) ->
  fine d s k (bind m f).
Proof.
  intros Hm Hd Hstrict Hsame p Hb Hc Hk. unfold bind.
  specialize (Hm p Hb Hc ltac:(lia)).
  destruct (m p) as [a p1| | |]; try exact Hm.
  destruct Hm as (Ht & Hb1 & Hp).
  assert (Hc1 : closed (tokens p1)) by (rewrite Ht; exact Hc).
  destruct (s1 a) eqn:Es.
  - assert (Hk1 : fuel_rate * remaining p1 + (d + fuel_rate) <= k).
    { unfold remaining, in_bounds, fuel_rate in *. rewrite Ht. lia. }
    specialize (Hstrict a Es p1 Hb1 Hc1 Hk1).
    destruct (f a p1) as [b p2| | |]; try exact Hstrict.
    destruct Hstrict as (Ht2 & Hb2 & Hp2). unfold never in Hp2.
    repeat split; [congruence|assumption|]. destruct (s b); lia.
  - assert (Hk1 : fuel_rate * remaining p1 + d <= k).
    { unfold remaining, in_bounds, fuel_rate in *. rewrite Ht. lia. }
    specialize (Hsame a Es p1 Hb1 Hc1 Hk1).
    destruct (f a p1) as [b p2| | |]; try exact Hsame.
    destruct Hsame as (Ht2 & Hb2 & Hp2).
    repeat split; [congruence|assumption|]. destruct (s b); lia.
Qed.

Lemma fine_at_drop {A} t d (s : A -> bool) k (m : M A) :
  fine d s k m -> fine_at t d s k m.
Proof. intros Hm p Hb Hc _ Hk. apply Hm; assumption. Qed.

Lemma fine_bind_peek {B} d (s : B -> bool) k (f : Token -> M B) :
  (forall t, fine_at t d s k (f t)) -> fine d s k (bind peek f).
Proof.
  intros Hf p Hb Hc Hk. unfold bind, peek.
  destruct (tokens p !! pos p) as [t|] eqn:E; [|exact I].
  apply Hf; assumption.
Qed.

(** [advance] from a position in bounds. *)
Lemma advance_cases p :
  in_bounds p ->
  exists t, current p = Some t
    /\ ((S (pos p) < length (tokens p) /\ advance p = Return t (skip 1 p))
        \/ (S (pos p) = length (tokens p) /\ advance p = Return t p)).
Proof.
  intros Hb. unfold in_bounds in Hb. unfold current.
  destruct (tokens p !! pos p) as [t|] eqn:E.
  - exists t. split; [reflexivity|].
    destruct (Nat.eq_dec (S (pos p)) (length (tokens p))) as [He|Hne].
    + right. split; [exact He|]. apply advance_last; assumption.
    + left. split; [lia|]. apply advance_at; [assumption|lia].
  - apply lookup_ge_None in E. lia.
Qed.

Lemma fine_after_move {B} d (s s' : B -> bool) k (m : M B) p :
  fine (d + fuel_rate) s' k m ->
  in_bounds p -> closed (tokens p) -> S (pos p) < length (tokens p) ->
  fuel_rate * remaining p + d <= k ->
  match m (skip 1 p) with
  | Return a p' =>
      tokens p' = tokens p /\ in_bounds p'
      /\ (if s a then pos p < pos p' else pos p <= pos p')
  | Failure _ _ => True
  | IndexOutOfRange => True
  | OutOfFuel => False
  end.
Proof.
  intros Hm Hb Hc Hlt Hk.
  assert (Hb1 : in_bounds (skip 1 p)) by (unfold in_bounds, skip; simpl; lia).
  assert (Hk1 : fuel_rate * remaining (skip 1 p) + (d + fuel_rate) <= k).
  { unfold remaining, skip, fuel_rate in *. simpl. lia. }
  specialize (Hm (skip 1 p) Hb1 Hc Hk1).
  destruct (m (skip 1 p)) as [a p'| | |]; try exact Hm.
  destruct Hm as (Ht & Hb' & Hp). simpl in *.
  repeat split; [assumption..|]. destruct (s a), (s' a); lia.
Qed.

Lemma fine_at_advance {B} t d (s : B -> bool) k (f : Token -> M B) :
  eoflike t = false ->
  (forall t', fine (d + fuel_rate) never k (f t')) ->
  fine_at t d s k (bind advance f).
Proof.
  intros Ht Hf p Hb Hc Hcur Hk. unfold bind.
  destruct (advance_cases p Hb) as (t' & Hcur' & [[Hlt Ha]|[Hlast Ha]]); rewrite Ha.
  - eapply fine_after_move; eauto.
  - rewrite Hcur in Hcur'. inversion Hcur'; subst t'.
    rewrite (closed_last p t Hc Hcur Hlast) in Ht. discriminate.
Qed.

Lemma fine_bind_advance {B} d (s : B -> bool) k (f : Token -> M B) :
  (forall t, eoflike t = true -> fine d s k (f t)) ->
  (forall t, eoflike t = false -> fine (d + fuel_rate) never k (f t)) ->
  fine d s k (bind advance f).
Proof.
  intros Heof Hmove p Hb Hc Hk. unfold bind.
  destruct (advance_cases p Hb) as (t & Hcur & [[Hlt Ha]|[Hlast Ha]]); rewrite Ha.
  - destruct (eoflike t) eqn:Et.
    + eapply fine_after_move; eauto.
      eapply fine_weaken; [apply (Heof t Et)|lia|]. intros a Hs. exact Hs.
    + eapply fine_after_move; eauto.
  - apply (Heof t (closed_last p t Hc Hcur Hlast)); assumption.
Qed.

Lemma fine_exact d k tok : tok <> "" -> fine d always k (exact tok).
Proof.
  intros Htok. unfold exact. apply fine_bind_advance.
  - intros t Ht. apply eoflike_facts in Ht as (Htext & _). rewrite Htext.
    destruct (String.eqb_spec "" tok) as [E|_]; [congruence|]. apply fine_errorf.
  - intros t _. destruct (negb _); [apply fine_errorf|].
    apply fine_ret. reflexivity.
Qed.

End Ends.

(** Under [eoflike t] every test of the token is decided. *)
Ltac eof_simpl H :=
  let Ht := fresh "Ht" in
  let Hi := fresh "Hi" in
  let Hn := fresh "Hn" in
  let Hs := fresh "Hs" in
  apply eoflike_facts in H as (Ht & Hi & Hn & Hs);
  rewrite ?Ht, ?Hi, ?Hn, ?Hs;
  repeat match goal with
    | |- context [String.eqb "" ?x] =>
        let b := eval vm_compute in (String.eqb "" x) in
        change (String.eqb "" x) with b
    | |- context [@ast.lookup_string ?A "" ?tbl] =>
        let b := eval vm_compute in (@ast.lookup_string A "" tbl) in
        change (@ast.lookup_string A "" tbl) with b
    end;
  cbn [negb orb andb]; cbv iota.

Ltac not_eoflike :=
  match goal with
  | H : String.eqb (ast.Text ?t) _ = true |- ast.eoflike ?t = false =>
      apply String.eqb_eq in H; unfold ast.eoflike; rewrite H; reflexivity
  end.

Ltac fine_flag H :=
  cbv [ast.always ast.never] in H; try discriminate H;
  try (rewrite H; cbv iota).

Ltac fine_leaf :=
  first
    [ apply (fine_exact 0); discriminate
    | apply (fine_lift 0)
    | apply (fine_errorf 0 ast.never)
    | apply (fine_ret 0 ast.never); reflexivity
    | solve [eauto 2] ].

Ltac fine_step :=
  match goal with
  | |- ast.fine_at _ _ _ _ (ast.bind ast.advance _) =>
      first [ apply fine_at_advance; [solve [not_eoflike]|intro]
            | apply fine_at_drop ]
  | |- ast.fine_at _ _ _ _ (match ?x with _ => _ end) => destruct x eqn:?
  | |- ast.fine_at _ _ _ _ _ => apply fine_at_drop
  | |- ast.fine _ _ _ (ast.bind ast.peek _) => apply fine_bind_peek; intro
  | |- ast.fine _ _ _ (ast.bind ast.advance _) =>
      apply fine_bind_advance;
      [ let H := fresh "Heof" in intros ? H; eof_simpl H | intros ? _ ]
  | |- ast.fine _ _ _ (ast.bind (match ?x with _ => _ end) _) => destruct x eqn:?
  | |- ast.fine _ _ _ (ast.bind _ _) =>
      eapply fine_bind;
      [ fine_leaf
      | unfold ast.fuel_rate; lia
      | let H := fresh "Hflag" in intros ? H; fine_flag H
      | let H := fresh "Hflag" in intros ? H; fine_flag H ]
  | |- ast.fine _ _ _ (ast.ret _) => apply fine_ret; reflexivity
  | |- ast.fine _ _ _ (ast.errorf _) => apply fine_errorf
  | |- ast.fine _ _ _ (ast.lift _) =>
      eapply fine_weaken;
      [apply fine_lift|lia|let H := fresh "Hflag" in intros ? H; exact H]
  | |- ast.fine _ _ _ (match ?x with _ => _ end) => destruct x eqn:?
  | |- ast.fine _ _ _ _ =>
      eapply fine_weaken;
      [ solve [eauto 2]
      | unfold ast.fuel_rate; lia
      | let H := fresh "Hflag" in
        intros ? H; cbv [ast.always ast.never] in *;
        first [reflexivity | discriminate H | exact H] ]
  end.

Ltac fine_auto := repeat fine_step.

Section EndsMethods.
Import types ast.

Lemma fine_annotation k a : fine 0 never k (annotation a).
Proof. unfold annotation. fine_auto. Qed.

Lemma fine_annotations : forall k res, fine 1 never k (annotations k res).
Proof.
  induction k as [|k IH]; intros res; [apply fine_zero|].
  simpl. apply fine_S. pose proof (fine_annotation k). fine_auto.
Qed.

Lemma fine_effect k a : fine 0 never k (effect a).
Proof. unfold effect. fine_auto. Qed.

Lemma fine_entityFirstPathPreread_loop :
  forall k res, fine 1 always k (entityFirstPathPreread_loop k res).
Proof.
  induction k as [|k IH]; intros res; [apply fine_zero|].
  simpl. apply fine_S. fine_auto.
Qed.

Lemma fine_entityFirstPathPreread k firstPath :
  fine 1 always k (entityFirstPathPreread k firstPath).
Proof. unfold entityFirstPathPreread. apply fine_entityFirstPathPreread_loop. Qed.

Lemma fine_entity k : fine 1 always k (entity k).
Proof. unfold entity. pose proof (fine_entityFirstPathPreread k). fine_auto. Qed.

Lemma fine_path_loop : forall k res, fine 1 never k (path_loop k res).
Proof.
  induction k as [|k IH]; intros res; [apply fine_zero|].
  simpl. apply fine_S. fine_auto.
Qed.

Lemma fine_path k : fine 1 always k (path k).
Proof. unfold path. pose proof (fine_path_loop k). fine_auto. Qed.

Lemma fine_principal k policy : fine 1 always k (principal k policy).
Proof.
  unfold principal. pose proof (fine_entity k). pose proof (fine_path k). fine_auto.
Qed.

Lemma fine_entlist : forall k res, fine 2 never k (entlist k res).
Proof.
  induction k as [|k IH]; intros res; [apply fine_zero|].
  cbn [entlist]. pose proof (fine_entity (S k)).
  pose proof (fun res => fine_S _ _ _ _ (IH res)). fine_auto.
Qed.

Lemma fine_action k policy : fine 1 always k (action k policy).
Proof.
  unfold action. pose proof (fine_entity k). pose proof (fine_entlist k). fine_auto.
Qed.

Lemma fine_resource k policy : fine 1 always k (resource k policy).
Proof.
  unfold resource. pose proof (fine_entity k). pose proof (fine_path k). fine_auto.
Qed.

Section WithLibrary.
Context `{GoLib}.

Lemma fine_entityOrExtFun k ident : fine 1 always k (entityOrExtFun k ident).
Proof.
  unfold entityOrExtFun. pose proof (fine_entityFirstPathPreread k). fine_auto.
Qed.

Lemma fine_expressions : forall k, expressions_fine k.
Proof.
  induction k as [|k IH].
  - unfold expressions_fine.
    repeat match goal with |- _ /\ _ => split end; intros; apply fine_zero.
  - destruct IH as (? & ? & ? & ? & ? & ? & ? & ? & ? & ? & ? & ? & ? & ?).
    pose proof (fine_path k). pose proof (fine_entityOrExtFun k).
    unfold expressions_fine.
    repeat match goal with |- _ /\ _ => split end; intros; simpl; apply fine_S.
    all: fine_auto.
Qed.

Lemma fine_expression k : fine 10 always k (expression k).
Proof. apply fine_expressions. Qed.

Lemma fine_condition k : fine 1 always k (condition k).
Proof. unfold condition. pose proof (fine_expression k). fine_auto. Qed.

Lemma fine_conditions : forall k policy, fine 2 never k (conditions k policy).
Proof.
  induction k as [|k IH]; intros policy; [apply fine_zero|].
  cbn [conditions]. pose proof (fine_condition (S k)).
  pose proof (fun policy => fine_S _ _ _ _ (IH policy)). fine_auto.
Qed.

Lemma fine_policyFromCedar k : fine 2 never k (policyFromCedar k).
Proof.
  unfold policyFromCedar.
  pose proof (fine_annotations k). pose proof (fine_effect k).
  pose proof (fine_principal k). pose proof (fine_action k).
  pose proof (fine_resource k). pose proof (fine_conditions k).
  fine_auto.
Qed.

End WithLibrary.

End EndsMethods.

(** X11. The parser ends on every token list that the token of the end
    of the input closes (a token with no text that is no identifier, integer
    or string): with fuel of 20 units for each token and 2 more,
    [policyFromCedar] returns a policy or an error. *)
Theorem parser_ends_on_closed_input (G : ast.GoLib) (toks : list ast.Token)
  (fuel : nat) :
  ast.closed toks ->
  ast.fuel_rate * length toks + 2 <= fuel ->
  (exists policy next, ast.run (ast.policyFromCedar fuel) toks = ast.Parsed policy next)
  \/ (exists e, ast.run (ast.policyFromCedar fuel) toks = ast.Rejected e).
Proof.
  intros Hc Hk.
  assert (Hb : ast.in_bounds (ast.newParser toks)).
  { destruct Hc as (t & Hl & _). unfold ast.in_bounds. simpl.
    destruct toks; [discriminate Hl|simpl; lia]. }
  pose proof (fine_policyFromCedar fuel (ast.newParser toks) Hb Hc) as Hf.
  pose proof (safe_policyFromCedar fuel (ast.newParser toks) Hb) as Hs.
  unfold ast.run.
  destruct (ast.policyFromCedar fuel (ast.newParser toks)) as [a p'|e p'| |].
  - left. eauto.
  - right. eauto.
  - destruct Hs.
  - exfalso. apply Hf. unfold ast.remaining, ast.fuel_rate in *.
    cbn [ast.newParser ast.tokens ast.pos]. lia.
Qed.

(** The policy of the test "multiple addition": 18 tokens, the last one
    that of the end of the input. *)
Lemma parser_ends_on_closed_input_witness :
  ast.closed ast.multiple_addition
  /\ ast.fuel_rate * length ast.multiple_addition + 2 <= 362
  /\ ((exists policy next,
         ast.run (@ast.policyFromCedar ast.no_library 362) ast.multiple_addition
         = ast.Parsed policy next)
      \/ (exists e,
            ast.run (@ast.policyFromCedar ast.no_library 362) ast.multiple_addition
            = ast.Rejected e)).
Proof.
  assert (Hc : ast.closed ast.multiple_addition).
  { eexists. split; reflexivity. }
  assert (Hk : ast.fuel_rate * length ast.multiple_addition + 2 <= 362)
    by (vm_compute; lia).
  split; [exact Hc|]. split; [exact Hk|].
  exact (parser_ends_on_closed_input ast.no_library _ 362 Hc Hk).
Defined.

(** X12. No expression is empty: on a closed token list, whenever
    [expression] returns a node it has moved forwards by one token at
    least. *)
Theorem expression_reads_a_token (G : ast.GoLib) (fuel : nat) (p p' : ast.parser)
  (n : ast.Node) :
  ast.in_bounds p -> ast.closed (ast.tokens p) ->
  ast.expression fuel p = ast.Return n p' ->
  ast.pos p < ast.pos p' /\ ast.tokens p' = ast.tokens p.
Proof.
  intros Hb Hc E.
  set (K := Nat.max fuel (ast.fuel_rate * ast.remaining p + 10)).
  assert (EK : ast.expression K p = ast.Return n p').
  { rewrite (extends_expression fuel K ltac:(lia) p); [exact E|].
    rewrite E. discriminate. }
  pose proof (fine_expression K p Hb Hc ltac:(lia)) as Hf.
  rewrite EK in Hf. destruct Hf as (Ht & _ & Hp). split; assumption.
Qed.

(** The expression [42 + 2 + 1]: the parser returns behind [42 + 2]. *)
Lemma expression_reads_a_token_witness :
  let p := ast.newParser ast.expr_multiple_addition in
  let p' := ast.mkParser ast.expr_multiple_addition 3 in
  ast.in_bounds p /\ ast.closed (ast.tokens p)
  /\ @ast.expression ast.no_library 20 p
     = ast.Return (ast.Plus (ast.Long 42) (ast.Long 2)) p'
  /\ ast.pos p < ast.pos p'.
Proof.
  intros p p'.
  assert (Hb : ast.in_bounds p) by (unfold ast.in_bounds; simpl; lia).
  assert (Hc : ast.closed (ast.tokens p)) by (eexists; split; reflexivity).
  assert (E : @ast.expression ast.no_library 20 p
              = ast.Return (ast.Plus (ast.Long 42) (ast.Long 2)) p')
    by (vm_compute; reflexivity).
  split; [exact Hb|]. split; [exact Hc|]. split; [exact E|].
  exact (proj1 (expression_reads_a_token ast.no_library 20 p p' _ Hb Hc E)).
Defined.

(** ** Lists, panics, access chains and type paths *)
Section Chains.
Import types ast.

Lemma peek_Return p t p' :
  peek p = Return t p' -> p' = p /\ tokens p !! pos p = Some t.
Proof.
  unfold peek. destruct (tokens p !! pos p) as [u|]; [|discriminate].
  intros E. inversion E; subst. split; reflexivity.
Qed.

Lemma peek_out_of_bounds p : ~ in_bounds p -> peek p = IndexOutOfRange.
Proof.
  intros Hb. unfold peek. destruct (tokens p !! pos p) as [u|] eqn:E; [|reflexivity].
  exfalso. apply Hb. unfold in_bounds. eapply lookup_lt_Some. exact E.
Qed.

Lemma entlist_marker : forall fuel res p l p',
  entlist fuel res p = Return l p' -> stands_on "]" p'.
Proof.
  induction fuel as [|fuel IH]; intros res p l p' E; [discriminate|].
  simpl in E. unfold bind at 1 in E.
  destruct (peek p) as [t p0| | |] eqn:Ep; try discriminate.
  apply peek_Return in Ep as [-> Et].
  destruct (String.eqb_spec (Text t) "]") as [Heq|Hne]; cbn [negb] in E.
  - inversion E; subst. exists t. split; assumption.
  - unfold bind at 1 in E.
    destruct ((if (0 <? length res)%nat then exact "," else ret tt) p)
      as [u p1| | |]; try discriminate.
    unfold bind at 1 in E.
    destruct (entity (S fuel) p1) as [e p2| | |]; try discriminate.
    eapply IH. exact E.
Qed.

Section WithLibrary.
Context `{GoLib}.

Lemma expressions_marker : forall fuel marker res p l p',
  expressions fuel marker res p = Return l p' -> stands_on marker p'.
Proof.
  induction fuel as [|fuel IH]; intros marker res p l p' E; [discriminate|].
  simpl in E. unfold bind at 1 in E.
  destruct (peek p) as [t p0| | |] eqn:Ep; try discriminate.
  apply peek_Return in Ep as [-> Et].
  destruct (String.eqb_spec (Text t) marker) as [Heq|Hne]; cbn [negb] in E.
  - inversion E; subst. exists t. split; [assumption|reflexivity].
  - unfold bind at 1 in E.
    destruct ((if (0 <? length res)%nat then exact "," else ret tt) p)
      as [u p1| | |]; try discriminate.
    unfold bind at 1 in E.
    destruct (expression fuel p1) as [e p2| | |]; try discriminate.
    eapply IH. exact E.
Qed.

Lemma access_dot fuel lhs d n rest p u :
  Text d = "." -> isIdent n = true -> reads (d :: n :: rest) p ->
  tokens p !! (pos p + 2) = Some u -> String.eqb (Text u) "(" = false ->
  access (S fuel) lhs p = Return (Access lhs (Text n), true) (skip 2 p).
Proof.
  intros Hd Hn Hr Hu Hopen. simpl. unfold bind at 1.
  rewrite (reads_peek _ _ _ Hr), Hd. cbn [String.eqb Ascii.eqb Bool.eqb].
  unfold bind at 1. rewrite (reads_advance _ _ _ Hr).
  pose proof (reads_tail _ _ _ Hr) as Hr1.
  unfold bind at 1. rewrite (reads_advance _ _ _ Hr1), Hn. cbn [negb].
  rewrite skip_skip. cbn [Nat.add].
  unfold bind at 1. rewrite (peek_at (skip 2 p) u Hu), Hopen. reflexivity.
Qed.

Lemma access_index fuel lhs o k c rest p v :
  Text o = "[" -> isString k = true -> Text c = "]" -> stringValue k = inr v ->
  reads (o :: k :: c :: rest) p ->
  access (S fuel) lhs p = Return (Access lhs v, true) (skip 3 p).
Proof.
  intros Ho Hk Hc Hv Hr. simpl. unfold bind at 1.
  rewrite (reads_peek _ _ _ Hr), Ho. cbn [String.eqb Ascii.eqb Bool.eqb].
  unfold bind at 1. rewrite (reads_advance _ _ _ Hr).
  pose proof (reads_tail _ _ _ Hr) as Hr1.
  unfold bind at 1. rewrite (reads_advance _ _ _ Hr1), Hk. cbn [negb].
  rewrite skip_skip. cbn [Nat.add].
  pose proof (reads_tail _ _ _ Hr1) as Hr2. rewrite skip_skip in Hr2.
  cbn [Nat.add] in Hr2.
  unfold bind at 1. rewrite Hv. unfold lift, ret at 1.
  unfold bind at 1. rewrite (exact_reads _ _ _ _ Hr2 Hc).
  rewrite skip_skip. reflexivity.
Qed.

Lemma access_none fuel lhs p t :
  tokens p !! pos p = Some t ->
  String.eqb (Text t) "." = false -> String.eqb (Text t) "[" = false ->
  access (S fuel) lhs p = Return (lhs, false) p.
Proof.
  intros Ht Hdot Hopen. simpl. unfold bind at 1.
  rewrite (peek_at p t Ht), Hdot, Hopen. reflexivity.
Qed.

Lemma chain_head steps names next p :
  map step_name steps = map Some names ->
  continues_member next = false ->
  reads (chain_tokens steps) p ->
  tokens p !! (pos p + length (chain_tokens steps)) = Some next ->
  exists u, tokens p !! pos p = Some u /\ String.eqb (Text u) "(" = false.
Proof.
  intros Hmap Hnext Hr Hat. destruct steps as [|s steps].
  - simpl in Hat. rewrite Nat.add_0_r in Hat. exists next. split; [exact Hat|].
    unfold continues_member in Hnext.
    apply orb_false_iff in Hnext as [_ Hnext]. exact Hnext.
  - destruct names as [|name names]; [discriminate|].
    simpl in Hmap. injection Hmap as Hs _.
    destruct s as [d n|o k c]; simpl in Hs, Hr.
    + exists d. split; [eapply reads_head; exact Hr|].
      destruct (String.eqb_spec (Text d) ".") as [E|]; [|discriminate].
      rewrite E. reflexivity.
    + exists o. split; [eapply reads_head; exact Hr|].
      destruct (String.eqb_spec (Text o) "[") as [E|]; [|discriminate].
      rewrite E. reflexivity.
Qed.

Lemma member_loop_run steps : forall names fuel res p next,
  map step_name steps = map Some names ->
  continues_member next = false ->
  reads (chain_tokens steps) p ->
  tokens p !! (pos p + length (chain_tokens steps)) = Some next ->
  member_loop (length steps + S (S fuel)) res p
  = Return (fold_left Access names res) (skip (length (chain_tokens steps)) p).
Proof.
  induction steps as [|s steps IH]; intros names fuel res p next Hmap Hnext Hr Hat.
  - destruct names; [|discriminate]. simpl in Hat.
    cbn [length Nat.add chain_tokens flat_map fold_left].
    rewrite Nat.add_0_r in Hat. rewrite skip_0.
    unfold continues_member in Hnext.
    apply orb_false_iff in Hnext as [Hnext _].
    apply orb_false_iff in Hnext as [Hdot Hopen].
    change (member_loop (S (S fuel)) res p)
      with (bind (access (S fuel) res)
              (fun r => if snd r then member_loop (S fuel) (fst r) else ret (fst r)) p).
    unfold bind. rewrite (access_none fuel res p next Hat Hdot Hopen). reflexivity.
  - destruct names as [|name names]; [discriminate|].
    simpl in Hmap. injection Hmap as Hs Hmap.
    replace (length (s :: steps) + S (S fuel))
      with (S (S (length steps + S fuel))) by (simpl; lia).
    change (member_loop (S (S (length steps + S fuel))) res p)
      with (bind (access (S (length steps + S fuel)) res)
              (fun r => if snd r then member_loop (S (length steps + S fuel)) (fst r)
                        else ret (fst r)) p).
    replace (S (length steps + S fuel)) with (length steps + S (S fuel)) by lia.
    destruct s as [d n|o k c]; simpl in Hs, Hr, Hat.
    + destruct (String.eqb_spec (Text d) ".") as [Ed|]; [|discriminate].
      destruct (isIdent n) eqn:En; [|discriminate]. simpl in Hs.
      injection Hs as <-.
      pose proof (reads_tail _ _ _ (reads_tail _ _ _ Hr)) as Hr2.
      rewrite skip_skip in Hr2. cbn [Nat.add] in Hr2.
      assert (Hat2 : tokens (skip 2 p)
                     !! (pos (skip 2 p) + length (chain_tokens steps)) = Some next).
      { unfold skip. cbn [tokens pos]. rewrite <- Hat. f_equal. lia. }
      destruct (chain_head steps names next (skip 2 p) Hmap Hnext Hr2 Hat2)
        as (u & Hu & Hopen).
      unfold bind.
      replace (length steps + S (S fuel)) with (S (length steps + S fuel)) at 1 by lia.
      rewrite (access_dot _ res d n _ p u Ed En Hr Hu Hopen). cbn [snd fst].
      rewrite (IH names fuel _ (skip 2 p) next Hmap Hnext Hr2 Hat2).
      rewrite skip_skip. reflexivity.
    + destruct (String.eqb_spec (Text o) "[") as [Eo|]; [|discriminate].
      destruct (isString k) eqn:Ek; [|discriminate].
      destruct (String.eqb_spec (Text c) "]") as [Ec|]; [|discriminate].
      simpl in Hs. destruct (stringValue k) as [e|v] eqn:Ev; [discriminate|].
      injection Hs as <-.
      pose proof (reads_tail _ _ _ (reads_tail _ _ _ (reads_tail _ _ _ Hr))) as Hr3.
      rewrite !skip_skip in Hr3. cbn [Nat.add] in Hr3.
      assert (Hat3 : tokens (skip 3 p)
                     !! (pos (skip 3 p) + length (chain_tokens steps)) = Some next).
      { unfold skip. cbn [tokens pos]. rewrite <- Hat. f_equal. lia. }
      unfold bind.
      replace (length steps + S (S fuel)) with (S (length steps + S fuel)) at 1 by lia.
      rewrite (access_index _ res o k c _ p v Eo Ek Ec Ev Hr). cbn [snd fst].
      rewrite (IH names fuel _ (skip 3 p) next Hmap Hnext Hr3 Hat3).
      rewrite skip_skip. reflexivity.
Qed.

End WithLibrary.

Lemma path_loop_run more : forall fuel res p next,
  forallb (fun ct => String.eqb (Text (fst ct)) "::" && isIdent (snd ct)) more = true ->
  String.eqb (Text next) "::" = false ->
  reads (flat_map (fun ct => [fst ct; snd ct]) more) p ->
  tokens p !! (pos p + 2 * length more) = Some next ->
  path_loop (length more + S fuel) res p
  = Return (fold_left (fun acc ct => acc +:+ "::" +:+ Text (snd ct)) more res)
           (skip (2 * length more) p).
Proof.
  induction more as [|[c t] more IH]; intros fuel res p next Hm Hnext Hr Hat.
  - simpl in *. rewrite Nat.add_0_r in Hat. rewrite skip_0.
    unfold bind. rewrite (peek_at p next Hat), Hnext. reflexivity.
  - simpl in Hm. apply andb_true_iff in Hm as [Hct Hm].
    apply andb_true_iff in Hct as [Hc Ht].
    change (length ((c, t) :: more) + S fuel) with (S (length more + S fuel)).
    simpl in Hr, Hat |- *.
    unfold bind at 1. rewrite (reads_peek _ _ _ Hr), Hc. cbn [negb].
    unfold bind at 1. rewrite (reads_advance _ _ _ Hr).
    pose proof (reads_tail _ _ _ Hr) as Hr1.
    unfold bind at 1. rewrite (reads_advance _ _ _ Hr1), Ht.
    pose proof (reads_tail _ _ _ Hr1) as Hr2.
    rewrite skip_skip in Hr2 |- *. cbn [Nat.add] in Hr2 |- *.
    assert (Hat2 : tokens (skip 2 p) !! (pos (skip 2 p) + 2 * length more)
                   = Some next).
    { unfold skip. cbn [tokens pos]. rewrite <- Hat. f_equal. lia. }
    rewrite (IH fuel _ (skip 2 p) next Hm Hnext Hr2 Hat2).
    rewrite skip_skip. f_equal. unfold skip. f_equal. lia.
Qed.

End Chains.

(** X13. The loops of the lists return in front of the closing token
    only: when [expressions] returns, the parser stands on a token whose
    text is the end marker it was given, and when [entlist] returns, on a
    closing bracket; the [advance] that [primary], [access] and [action]
    make next, without a test, reads that token. *)
Theorem lists_return_at_their_end_marker (G : ast.GoLib) (fuel : nat)
  (p p' : ast.parser) :
  (forall marker res l,
     ast.expressions fuel marker res p = ast.Return l p' ->
     ast.stands_on marker p')
  /\ (forall res l,
        ast.entlist fuel res p = ast.Return l p' -> ast.stands_on "]" p').
Proof.
  split.
  - intros marker res l E. exact (expressions_marker fuel marker res p l p' E).
  - intros res l E. exact (entlist_marker fuel res p l p' E).
Qed.

(** The elements of the set literal of 1 and 2, and the entities of an
    action list of A::'x' and B::'y', each up to the closing bracket. *)
Lemma lists_return_at_their_end_marker_witness :
  @ast.expressions ast.no_library 20 "]" [] (ast.newParser ast.expr_set_elements)
  = ast.Return [ast.Long 1; ast.Long 2] (ast.mkParser ast.expr_set_elements 3)
  /\ ast.stands_on "]" (ast.mkParser ast.expr_set_elements 3)
  /\ ast.entlist 5 [] (ast.newParser ast.action_list_elements)
     = ast.Return [types.mkEntityUID "A" "x"; types.mkEntityUID "B" "y"]
                  (ast.mkParser ast.action_list_elements 7)
  /\ ast.stands_on "]" (ast.mkParser ast.action_list_elements 7).
Proof.
  assert (E1 : @ast.expressions ast.no_library 20 "]" []
                 (ast.newParser ast.expr_set_elements)
               = ast.Return [ast.Long 1; ast.Long 2]
                            (ast.mkParser ast.expr_set_elements 3))
    by (vm_compute; reflexivity).
  assert (E2 : ast.entlist 5 [] (ast.newParser ast.action_list_elements)
               = ast.Return [types.mkEntityUID "A" "x"; types.mkEntityUID "B" "y"]
                            (ast.mkParser ast.action_list_elements 7))
    by (vm_compute; reflexivity).
  split; [exact E1|]. split.
  - exact (proj1 (lists_return_at_their_end_marker ast.no_library 20 _ _) _ _ _ E1).
  - split; [exact E2|].
    exact (proj2 (lists_return_at_their_end_marker ast.no_library 5 _ _) _ _ E2).
Defined.

(** X14. The parser panics exactly when it is called out of bounds: with
    some fuel, [policyFromCedar] and [expression] index the tokens out of
    range if and only if the position is not below the number of tokens,
    as it is for the parser that [newParser] makes of no tokens at all. *)
Theorem parser_panics_exactly_out_of_bounds (G : ast.GoLib) (fuel : nat)
  (p : ast.parser) :
  0 < fuel ->
  (ast.policyFromCedar fuel p = ast.IndexOutOfRange <-> ~ ast.in_bounds p)
  /\ (ast.expression fuel p = ast.IndexOutOfRange <-> ~ ast.in_bounds p).
Proof.
  intros Hfuel. destruct fuel as [|fuel]; [lia|]. split; split.
  - intros E Hb. pose proof (safe_policyFromCedar (S fuel) p Hb) as Hs.
    rewrite E in Hs. exact Hs.
  - intros Hb. unfold ast.policyFromCedar. unfold ast.bind at 1.
    cbn [ast.annotations]. unfold ast.bind at 1.
    rewrite (peek_out_of_bounds p Hb). reflexivity.
  - intros E Hb. pose proof (safe_expression (S fuel) p Hb) as Hs.
    rewrite E in Hs. exact Hs.
  - intros Hb. cbn [ast.expression]. unfold ast.bind at 1.
    rewrite (peek_out_of_bounds p Hb). reflexivity.
Qed.

(** No tokens at all. *)
Lemma parser_panics_exactly_out_of_bounds_witness :
  0 < 1
  /\ @ast.policyFromCedar ast.no_library 1 (ast.newParser []) = ast.IndexOutOfRange
  /\ @ast.expression ast.no_library 1 (ast.newParser []) = ast.IndexOutOfRange.
Proof.
  assert (H1 : 0 < 1) by lia.
  assert (Hb : ~ ast.in_bounds (ast.newParser [])).
  { unfold ast.in_bounds. simpl. lia. }
  split; [exact H1|]. split.
  - exact (proj2 (proj1 (parser_panics_exactly_out_of_bounds ast.no_library 1 _ H1)) Hb).
  - exact (proj2 (proj2 (parser_panics_exactly_out_of_bounds ast.no_library 1 _ H1)) Hb).
Defined.

(** X15. [member] applies a chain of accesses from left to right, and an
    access by a string in brackets is the access by that name: when
    [primary] returns [res] and is followed by accesses, each a dot and an
    identifier or an opening bracket, a string and a closing bracket, and
    then by a token that is no dot, opening bracket or opening
    parenthesis, [member] returns
    [res] under the accesses, the first one innermost, and stands on that
    token. *)
Theorem member_applies_access_chain (G : ast.GoLib)
  (steps : list ast.access_step) (names : list string) (next : ast.Token)
  (fuel : nat) (res : ast.Node) (p p1 : ast.parser) :
  ast.primary fuel p = ast.Return res p1 ->
  map ast.step_name steps = map Some names ->
  ast.continues_member next = false ->
  ast.reads (ast.chain_tokens steps) p1 ->
  ast.tokens p1 !! (ast.pos p1 + length (ast.chain_tokens steps)) = Some next ->
  ast.member (S (length steps + S (S fuel))) p
  = ast.Return (fold_left ast.Access names res)
               (ast.skip (length (ast.chain_tokens steps)) p1).
Proof.
  intros Hprim Hmap Hnext Hr Hat.
  set (k := length steps + S (S fuel)).
  change (ast.member (S k) p)
    with (ast.bind (ast.primary k) (fun res => ast.member_loop k res) p).
  destruct (extends_expressions fuel k ltac:(lia))
    as (_ & _ & _ & _ & _ & _ & _ & _ & _ & Hp & _).
  unfold ast.bind. rewrite (Hp p), Hprim by (rewrite Hprim; discriminate).
  exact (member_loop_run steps names fuel res p1 next Hmap Hnext Hr Hat).
Qed.

(** The expression context.a['b'].c == 1, up to the comparison. *)
Lemma member_applies_access_chain_witness :
  let steps := [ast.Dot (ast.op 7 1 8 ".") (ast.ident 8 1 9 "a");
                ast.Index (ast.op 9 1 10 "[") (ast.str 10 1 11 "b")
                          (ast.op 13 1 14 "]");
                ast.Dot (ast.op 14 1 15 ".") (ast.ident 15 1 16 "c")] in
  let p := ast.newParser ast.expr_access_chain in
  let p1 := ast.mkParser ast.expr_access_chain 1 in
  @ast.primary ast.no_library 1 p = ast.Return ast.Context p1
  /\ map ast.step_name steps = map Some ["a"; "b"; "c"]
  /\ ast.reads (ast.chain_tokens steps) p1
  /\ @ast.member ast.no_library 7 p
     = ast.Return
         (ast.Access (ast.Access (ast.Access ast.Context "a") "b") "c")
         (ast.mkParser ast.expr_access_chain 8).
Proof.
  intros steps p p1.
  assert (H1 : @ast.primary ast.no_library 1 p = ast.Return ast.Context p1)
    by reflexivity.
  assert (H2 : map ast.step_name steps = map Some ["a"; "b"; "c"])
    by (vm_compute; reflexivity).
  assert (H3 : ast.continues_member (ast.op 17 1 18 "==") = false) by reflexivity.
  assert (H4 : ast.reads (ast.chain_tokens steps) p1).
  { split; [|simpl; lia].
    intros [|[|[|[|[|[|[|i]]]]]]] t E; simpl in E; inversion E; subst; reflexivity. }
  assert (H5 : ast.tokens p1 !! (ast.pos p1 + length (ast.chain_tokens steps))
               = Some (ast.op 17 1 18 "==")) by reflexivity.
  split; [exact H1|]. split; [exact H2|]. split; [exact H4|].
  etransitivity;
    [exact (member_applies_access_chain ast.no_library steps _ _ 1 _ p p1
              H1 H2 H3 H4 H5)|].
  reflexivity.
Defined.

(** X16. [path] reads a type path of any length and stops in front of the
    first token that is not [::]: on an identifier, any number of [::] and
    identifier, and then such a token, it returns the identifiers joined
    by [::] and stands on that token. *)
Theorem path_reads_names (first : ast.Token)
  (more : list (ast.Token * ast.Token)) (next : ast.Token) (fuel : nat)
  (p : ast.parser) :
  ast.isIdent first = true ->
  forallb (fun ct => String.eqb (ast.Text (fst ct)) "::" && ast.isIdent (snd ct))
          more = true ->
  String.eqb (ast.Text next) "::" = false ->
  ast.reads (ast.path_tokens first more) p ->
  ast.tokens p !! (ast.pos p + S (2 * length more)) = Some next ->
  ast.path (length more + S fuel) p
  = ast.Return (ast.type_path first more) (ast.skip (S (2 * length more)) p).
Proof.
  intros Hfirst Hmore Hnext Hr Hat. unfold ast.path_tokens in Hr.
  unfold ast.path, ast.bind at 1. rewrite (reads_advance _ _ _ Hr), Hfirst.
  cbn [negb].
  assert (Hat1 : ast.tokens (ast.skip 1 p)
                 !! (ast.pos (ast.skip 1 p) + 2 * length more) = Some next).
  { unfold ast.skip. cbn [ast.tokens ast.pos]. rewrite <- Hat. f_equal. lia. }
  rewrite (path_loop_run more fuel _ _ next Hmore Hnext (reads_tail _ _ _ Hr) Hat1).
  rewrite skip_skip. reflexivity.
Qed.

(** The type path [A::B::C]. *)
Lemma path_reads_names_witness :
  let more := [(ast.op 1 1 2 "::", ast.ident 3 1 4 "B");
               (ast.op 4 1 5 "::", ast.ident 6 1 7 "C")] in
  let p := ast.newParser ast.expr_type_path in
  ast.isIdent (ast.ident 0 1 1 "A") = true
  /\ ast.reads (ast.path_tokens (ast.ident 0 1 1 "A") more) p
  /\ ast.path (2 + 1) p = ast.Return "A::B::C" (ast.mkParser ast.expr_type_path 5).
Proof.
  intros more p.
  assert (H1 : ast.isIdent (ast.ident 0 1 1 "A") = true) by reflexivity.
  assert (H2 : forallb (fun ct => String.eqb (ast.Text (fst ct)) "::"
                                  && ast.isIdent (snd ct)) more = true) by reflexivity.
  assert (H3 : String.eqb (ast.Text (ast.eof 7 1 8)) "::" = false) by reflexivity.
  assert (H4 : ast.reads (ast.path_tokens (ast.ident 0 1 1 "A") more) p).
  { split; [|simpl; lia].
    intros [|[|[|[|[|i]]]]] t E; simpl in E; inversion E; subst; reflexivity. }
  assert (H5 : ast.tokens p !! (ast.pos p + S (2 * length more))
               = Some (ast.eof 7 1 8)) by reflexivity.
  split; [exact H1|]. split; [exact H4|].
  etransitivity; [exact (path_reads_names _ more _ 0 p H1 H2 H3 H4 H5)|].
  reflexivity.
Defined.

(** * What the parser does on the inputs of the tests *)
Section ParserClaims.
Import types ast.
Context `{GoLib}.

(** With fuel to spare, the result on a token list is the one computed. *)
Lemma policyFromCedar_fuel n k toks r :
  run (policyFromCedar n) toks = r -> r <> Unfinished ->
  run (policyFromCedar (n + k)) toks = r.
Proof.
  intros E Hr. subst r. apply run_extends; [|exact Hr].
  apply extends_policyFromCedar. lia.
Qed.

Lemma expression_fuel n k toks r :
  run (expression n) toks = r -> r <> Unfinished ->
  run (expression (n + k)) toks = r.
Proof.
  intros E Hr. subst r. apply run_extends; [|exact Hr].
  apply extends_expression. lia.
Qed.

(** The parser agrees with the tests on policies with one operator of a
    level, on precedence and on scopes. *)
Example parses_what_the_tests_expect (k : nat) :
  run (policyFromCedar (40 + k)) addition
  = Parsed (addCondition ConditionWhen (Plus (Long 42) (Long 2)) (Permit [])) 15
  /\ run (policyFromCedar (40 + k)) mult_over_add
     = Parsed (addCondition ConditionWhen
                 (Equals (Plus (Long 2) (Times (Long 3) (Long 4))) (Long 14))
                 (Permit [])) 19
  /\ run (policyFromCedar (40 + k)) scope_in
     = Parsed (setResource (ScopeIn (mkEntityUID "Genus" "malus"))
                 (setAction (ScopeIn (mkEntityUID "ActionType" "farming"))
                    (setPrincipal (ScopeIn (mkEntityUID "Group" "folkHeroes"))
                       (Permit [])))) 21.
Proof.
  repeat split; apply policyFromCedar_fuel; solve [vm_compute; reflexivity | discriminate].
Qed.

(** C6 fails on the code: each of [or], [and], [add] and [mult] reads one
    operator at most.  On [42 + 2 + 1] the parser returns [Plus 42 2] and
    stops in front of the second [+] (the token of index 3), where the tests
    and the grammar have [Plus (Plus 42 2) 1]; so does it on [42 - 2 + 1]
    and on [true || false || true]; and the policies of the tests "multiple
    addition", "mixed addition and subtraction", "multiple or", "multiple
    and" and "multiple multiplication" are rejected at the second operator. *)
Theorem repeated_operator_not_parsed (k : nat) :
  run (expression (20 + k)) expr_multiple_addition
  = Parsed (Plus (Long 42) (Long 2)) 3
  /\ run (expression (20 + k)) expr_mixed_addition_and_subtraction
     = Parsed (Minus (Long 42) (Long 2)) 3
  /\ run (expression (20 + k)) expr_multiple_or = Parsed (Or True_ False_) 3
  /\ run (policyFromCedar (40 + k)) multiple_addition
     = Rejected (ParseError (at_ 55 2 17) "1" "exact got + want }")
  /\ run (policyFromCedar (40 + k)) mixed_addition_and_subtraction
     = Rejected (ParseError (at_ 55 2 17) "1" "exact got + want }")
  /\ run (policyFromCedar (40 + k)) multiple_or
     = Rejected (ParseError (at_ 63 2 25) "true" "exact got || want }")
  /\ run (policyFromCedar (40 + k)) multiple_and
     = Rejected (ParseError (at_ 63 2 25) "true" "exact got && want }")
  /\ run (policyFromCedar (40 + k)) multiple_multiplication
     = Rejected (ParseError (at_ 55 2 17) "1" "exact got * want }").
Proof.
  repeat split;
    first [apply policyFromCedar_fuel | apply expression_fuel];
    solve [vm_compute; reflexivity | discriminate].
Qed.

(** C7 fails on the code: the parser has none of the three messages.  A
    call of a name other than [ip] and [decimal] is read as the type of an
    entity and rejected with "exact got ( want ::", where the test expects
    "`not_an_extension_fn` is not a function"; [context.ip()] and
    [context.not_an_extension_method()] are accepted as calls of an
    extension method of that name, where the tests expect "`ip` is a
    function, not a method" and "`not_an_extension_method` is not a
    method". *)
Theorem call_errors_missing (k : nat) :
  run (policyFromCedar (40 + k)) not_extension_function
  = Rejected (ParseError (at_ 66 1 67) ")" "exact got ( want ::")
  /\ run (policyFromCedar (40 + k)) extension_method_is_function
     = Parsed (addCondition ConditionWhen (ExtMethodCall Context "ip" [])
                 (Permit [])) 17
  /\ run (policyFromCedar (40 + k)) not_extension_method
     = Parsed (addCondition ConditionWhen
                 (ExtMethodCall Context "not_an_extension_method" [])
                 (Permit [])) 17.
Proof.
  repeat split; apply policyFromCedar_fuel;
    solve [vm_compute; reflexivity | discriminate].
Qed.

(** C3 fails on the code: a text in canonical form that the tests
    round-trip is not parsed at all, so that no serializer can give it
    back: [like] is rejected as unimplemented (the test "like no
    wildcards"), and so is every operator repeated on one level (the test
    "multiple addition"). *)
Theorem canonical_text_not_parsed (k : nat) (serialize : Policy -> string)
  (text : string) :
  let round_trip toks :=
    match run (policyFromCedar (40 + k)) toks with
    | Parsed policy _ => Some (serialize policy)
    | _ => None
    end in
  run (policyFromCedar (40 + k)) like_no_wildcards
  = Rejected (ParseError (at_ 66 2 28) "like" "unimplemented")
  /\ round_trip like_no_wildcards <> Some text
  /\ round_trip multiple_addition <> Some text.
Proof.
  intros round_trip.
  assert (E1 : run (policyFromCedar (40 + k)) like_no_wildcards
               = Rejected (ParseError (at_ 66 2 28) "like" "unimplemented")).
  { apply policyFromCedar_fuel; [vm_compute; reflexivity | discriminate]. }
  assert (E2 : run (policyFromCedar (40 + k)) multiple_addition
               = Rejected (ParseError (at_ 55 2 17) "1" "exact got + want }")).
  { apply policyFromCedar_fuel; [vm_compute; reflexivity | discriminate]. }
  subst round_trip. cbv beta. rewrite E1, E2. repeat split; discriminate.
Qed.

End ParserClaims.

(** C5 fails on the code: [ip] hands its argument to [netip.ParsePrefix],
    which wants a slash, so the bare address of the test "ip extension
    function" is rejected, not promoted to /32; and [decimal] hands its
    argument to [strconv.ParseFloat] and accepts whatever that accepts, a
    literal with five fractional digits included. *)
Theorem extension_arguments_not_validated (G : ast.GoLib) (k : nat) :
  ast.run (ast.policyFromCedar (40 + k)) ast.ip_extension_function
  = ast.Rejected (ast.ValueError "no '/'")
  /\ ast.run (ast.policyFromCedar (40 + k)) ast.decimal_five_digits
     = match ast.ParseFloat "1.23456", ast.ParseFloat "23.45" with
       | inr x, inr y =>
           ast.Parsed
             (ast.addCondition ast.ConditionWhen
                (ast.Equals (ast.Decimal (ast.Float_to_int64 x))
                            (ast.Decimal (ast.Float_to_int64 y)))
                (ast.Permit [])) 21
       | inl e, _ => ast.Rejected (ast.ValueError e)
       | inr _, inl e => ast.Rejected (ast.ValueError e)
       end.
Proof.
  split.
  - apply policyFromCedar_fuel; [vm_compute; reflexivity | discriminate].
  - destruct G as [F pa pf fi]. cbn [ast.ParseFloat ast.Float_to_int64].
    remember (pf "1.23456") as r1 eqn:E1. remember (pf "23.45") as r2 eqn:E2.
    set (pf' := fun s : string =>
                  if String.eqb s "1.23456" then r1
                  else if String.eqb s "23.45" then r2 else pf s).
    assert (Hpf : forall s, pf s = pf' s).
    { intros s. unfold pf'.
      destruct (String.eqb_spec s "1.23456") as [->|_]; [exact (eq_sym E1)|].
      destruct (String.eqb_spec s "23.45") as [->|_]; [exact (eq_sym E2)|].
      reflexivity. }
    rewrite (run_agree _ _ _
               (agree_policyFromCedar pa pa F pf pf' fi fi
                  (fun _ => eq_refl) Hpf (fun _ => eq_refl) (40 + k))).
    clear Hpf E1 E2. subst pf'.
    destruct r1 as [e1|x]; [|destruct r2 as [e2|y]];
      (apply policyFromCedar_fuel; [vm_compute; reflexivity | discriminate]).
Qed.

(** C9. On a token list that is not empty, [advance] never moves the
    position past the last token: from an index in bounds, [peek] and
    [advance] return the token at the index, and [advance] moves to the next
    index or, at the last one, stays, returning the last token again; and no
    method of the parser, from [policyFromCedar] down, indexes the tokens out
    of range, whatever the tokens and the fuel. *)
Theorem advance_in_bounds (toks : list ast.Token) :
  toks <> [] ->
  ast.in_bounds (ast.newParser toks)
  /\ (forall i, i < length toks ->
        exists t, toks !! i = Some t
          /\ ast.peek (ast.mkParser toks i) = ast.Return t (ast.mkParser toks i)
          /\ ast.advance (ast.mkParser toks i)
             = ast.Return t (ast.mkParser toks (Nat.min (S i) (length toks - 1))))
  /\ (exists t, last toks = Some t
        /\ ast.advance (ast.mkParser toks (length toks - 1))
           = ast.Return t (ast.mkParser toks (length toks - 1)))
  /\ (forall (G : ast.GoLib) fuel p,
        ast.tokens p = toks -> ast.in_bounds p ->
        ast.policyFromCedar fuel p <> ast.IndexOutOfRange
        /\ ast.expression fuel p <> ast.IndexOutOfRange)
  /\ (forall (G : ast.GoLib) fuel,
        ast.run (ast.policyFromCedar fuel) toks <> ast.Panicked).
Proof.
  intros Hne.
  assert (Hlen : 0 < length toks) by (destruct toks; [congruence|simpl; lia]).
  assert (Hadv : forall i, i < length toks ->
            exists t, toks !! i = Some t
              /\ ast.peek (ast.mkParser toks i) = ast.Return t (ast.mkParser toks i)
              /\ ast.advance (ast.mkParser toks i)
                 = ast.Return t (ast.mkParser toks (Nat.min (S i) (length toks - 1)))).
  { intros i Hi. destruct (toks !! i) as [t|] eqn:E.
    - exists t. split; [reflexivity|].
      unfold ast.advance, ast.bind, ast.peek. cbn [ast.tokens ast.pos].
      rewrite E. split; [reflexivity|]. cbn [ast.tokens ast.pos].
      destruct (Z.ltb_spec (Z.of_nat i) (Z.of_nat (length toks) - 1)).
      + rewrite Nat.min_l by lia. reflexivity.
      + rewrite Nat.min_r by lia. f_equal. f_equal. lia.
    - apply lookup_ge_None in E. lia. }
  split; [exact Hlen|]. split; [exact Hadv|]. split.
  - destruct (Hadv (length toks - 1) ltac:(lia)) as (t & Ht & _ & Ha).
    exists t. split.
    + rewrite last_lookup. rewrite <- Ht. f_equal. lia.
    + rewrite Ha. rewrite Nat.min_r by lia. reflexivity.
  - split.
    + intros G fuel p Ht Hp. split.
      * pose proof (safe_policyFromCedar fuel p Hp) as Hs.
        intros E. rewrite E in Hs. exact Hs.
      * pose proof (safe_expression fuel p Hp) as Hs.
        intros E. rewrite E in Hs. exact Hs.
    + intros G fuel. unfold ast.run.
      pose proof (safe_policyFromCedar fuel (ast.newParser toks) Hlen) as Hs.
      destruct (ast.policyFromCedar fuel (ast.newParser toks)); try discriminate.
      destruct Hs.
Qed.

(** The shortest input, the token of the end of the input alone. *)
Lemma advance_in_bounds_witness :
  [ast.eof 0 1 1] <> []
  /\ ast.advance (ast.newParser [ast.eof 0 1 1])
     = ast.Return (ast.eof 0 1 1) (ast.newParser [ast.eof 0 1 1])
  /\ (forall (G : ast.GoLib) fuel,
        ast.run (ast.policyFromCedar fuel) [ast.eof 0 1 1] <> ast.Panicked).
Proof.
  assert (Hne : [ast.eof 0 1 1] <> []) by discriminate.
  destruct (advance_in_bounds [ast.eof 0 1 1] Hne) as (_ & _ & _ & _ & Hrun).
  split; [exact Hne|]. split; [reflexivity|exact Hrun].
Defined.
